(** * DIS optical flow: patch matching, densification, pyramid sizes and
      the entry checks of [DISOpticalFlowImpl::calc]

    A shallow embedding of the C++ implementation (namespace [cv], class
    [DISOpticalFlowImpl]).  Integers ([int], [uchar], [short]) are [Z];
    raw pixel pointers are functions from offsets to values; [float] is an
    abstract carrier [F] with the operations the code applies to it
    (class [Arith]), instantiated twice:

    - [binary32]: IEEE 754 single precision, from the standard library's
      [SpecFloat] with [prec = 24] and [emax = 128] (what [float] is on the
      targets of the code);
    - [Qc]: exact rational arithmetic, the usual idealisation, which
      satisfies the ordered-field laws of class [ExactArith].

    Loops are folds over the integer range they run through, in the source
    order; nothing is reassociated in a definition.  The two [double]
    expressions at the entry of [calc] are given in integer arithmetic and
    related to their reading over the real numbers.  The library functions
    [log2] and [std::floor] on [float], used by the automatic choice of
    the coarsest scale, are parameters of the definitions that call them.

    Results come in three kinds.  What the code accumulates, and in which
    order, is stated for every arithmetic, so it holds for [binary32].
    That an accumulated value is the mathematical sum or quotient is stated
    under [ExactArith].  What rounding keeps (a rounded weight is positive,
    a sum of positive weights is positive) is proved for [binary32]
    itself, and concrete runs show where single precision leaves the
    mathematical value. *)

From Stdlib Require Import ZArith List Bool Lia Ring Field.
From Stdlib Require Import QArith Qcanon.
From Stdlib Require Import Reals Lra.
From Stdlib Require Import Floats.SpecFloat.
Import ListNotations.

Local Open Scope Z_scope.

(** ** Loops *)

(** [Zrange lo n] is [lo; lo+1; ...; lo+n-1]. *)
Fixpoint Zrange (lo : Z) (n : nat) : list Z :=
  match n with
  | O => []
  | S k => lo :: Zrange (lo + 1) k
  end.

(** [for (int i = lo; i < hi; i++) s = body i s;] *)
Definition for_lt {St : Type} (lo hi : Z) (body : Z -> St -> St) (s : St) : St :=
  fold_left (fun s i => body i s) (Zrange lo (Z.to_nat (hi - lo))) s.

(** [for (int i = lo; i <= hi; i++) s = body i s;] *)
Definition for_le {St : Type} (lo hi : Z) (body : Z -> St -> St) (s : St) : St :=
  for_lt lo (hi + 1) body s.

(** A raw pointer [T *p]: [p k] is [p[k]]. *)
Definition ptr (A : Type) : Type := Z -> A.

(** [p + k] *)
Definition ptr_add {A : Type} (p : ptr A) (k : Z) : ptr A := fun o => p (k + o).

(** [p[k] = v] *)
Definition ptr_store {A : Type} (p : ptr A) (k : Z) (v : A) : ptr A :=
  fun o => if o =? k then v else p o.

(** ** The arithmetic of [float] *)

Class Arith (F : Type) : Type := {
  Fzero : F;                 (* 0.0f *)
  Fone : F;                  (* 1.0f *)
  EPS : F;                   (* #define EPS 0.001F *)
  Fadd : F -> F -> F;
  Fsub : F -> F -> F;
  Fmul : F -> F -> F;
  Fdiv : F -> F -> F;
  Fabs : F -> F;             (* std::abs(float) *)
  Fltb : F -> F -> bool;     (* operator< *)
  of_int : Z -> F;           (* conversion of an int, uchar or short *)
  to_int : F -> Z            (* (int)x *)
}.

Declare Scope arith_scope.
Delimit Scope arith_scope with fl.
Infix "+" := Fadd : arith_scope.
Infix "-" := Fsub : arith_scope.
Infix "*" := Fmul : arith_scope.
Infix "/" := Fdiv : arith_scope.
Infix "<?" := Fltb : arith_scope.

(** [std::max(a, b)] is [(a < b) ? b : a]; [std::min(a, b)] is
    [(b < a) ? b : a]. *)
Definition Fmax {F} `{Arith F} (a b : F) : F := if (a <? b)%fl then b else a.
Definition Fmin {F} `{Arith F} (a b : F) : F := if (b <? a)%fl then b else a.

(** The laws of exact arithmetic: an ordered field in which [Fabs] is the
    absolute value. *)
Class ExactArith (F : Type) `{Arith F} : Prop := {
  Ffield : field_theory Fzero Fone Fadd Fmul Fsub (fun x => Fsub Fzero x)
             Fdiv (fun x => Fdiv Fone x) eq;
  Flt_irrefl : forall a, (a <? a)%fl = false;
  Flt_trans : forall a b c, (a <? b)%fl = true -> (b <? c)%fl = true -> (a <? c)%fl = true;
  Flt_total : forall a b, (a <? b)%fl = true \/ a = b \/ (b <? a)%fl = true;
  Fadd_lt_mono : forall a b c, (a <? b)%fl = true -> (a + c <? b + c)%fl = true;
  Fmul_pos : forall a b, (Fzero <? a)%fl = true -> (Fzero <? b)%fl = true ->
                         (Fzero <? a * b)%fl = true;
  Fabs_def : forall a, Fabs a = if (a <? Fzero)%fl then (Fzero - a)%fl else a;
  of_int_1 : of_int 1 = Fone;
  of_int_add : forall m n, of_int (m + n) = (of_int m + of_int n)%fl
}.

(** ** Patch processing functions *)

(** Lanes of a 128-bit register holding four elements, and of the 8-element
    row loaded from memory before it is expanded. *)
Record v4 (A : Type) : Type := V4 { lane0 : A; lane1 : A; lane2 : A; lane3 : A }.
Arguments V4 {A}.
Arguments lane0 {A}. Arguments lane1 {A}. Arguments lane2 {A}. Arguments lane3 {A}.

Record v8 (A : Type) : Type :=
  V8 { e0 : A; e1 : A; e2 : A; e3 : A; e4 : A; e5 : A; e6 : A; e7 : A }.
Arguments V8 {A}.

Definition v_map {A B} (f : A -> B) (x : v4 A) : v4 B :=
  V4 (f (lane0 x)) (f (lane1 x)) (f (lane2 x)) (f (lane3 x)).
Definition v_map2 {A B C} (f : A -> B -> C) (x : v4 A) (y : v4 B) : v4 C :=
  V4 (f (lane0 x) (lane0 y)) (f (lane1 x) (lane1 y))
     (f (lane2 x) (lane2 y)) (f (lane3 x) (lane3 y)).

Section PatchMatcher.
Context {F : Type} `{Arith F}.
Local Open Scope arith_scope.

Definition v_setall_f32 (x : F) : v4 F := V4 x x x x.
(** [v_load_expand(p)] and [v_load(p)]: eight consecutive elements. *)
Definition v_load_expand (p : ptr Z) : v8 Z :=
  V8 (p 0%Z) (p 1%Z) (p 2%Z) (p 3%Z) (p 4%Z) (p 5%Z) (p 6%Z) (p 7%Z).
Definition v_load (p : ptr Z) : v8 Z := v_load_expand p.
(** [v_expand(a, lo, hi)]: the low and the high half. *)
Definition v_expand (a : v8 Z) : v4 Z * v4 Z :=
  match a with V8 a0 a1 a2 a3 a4 a5 a6 a7 => (V4 a0 a1 a2 a3, V4 a4 a5 a6 a7) end.
(** [v_cvt_f32(v_reinterpret_as_s32(x))] and [v_cvt_f32(x)] *)
Definition v_cvt_f32 (x : v4 Z) : v4 F := v_map of_int x.
Definition v_add : v4 F -> v4 F -> v4 F := v_map2 Fadd.
Definition v_sub : v4 F -> v4 F -> v4 F := v_map2 Fsub.
Definition v_mul : v4 F -> v4 F -> v4 F := v_map2 Fmul.
(** [v_reduce_sum]: the sum of the four lanes, added pairwise. *)
Definition v_reduce_sum (x : v4 F) : F := (lane0 x + lane1 x) + (lane2 x + lane3 x).

(** The bilinearly interpolated difference at row [i], column [j] of the
    patch, as the scalar loops of the three functions write it. *)
Definition patch_diff (I0_ptr I1_ptr : ptr Z) (I0_stride I1_stride : Z)
    (w00 w01 w10 w11 : F) (i j : Z) : F :=
  w00 * of_int (I1_ptr (i * I1_stride + j)%Z) +
  w01 * of_int (I1_ptr (i * I1_stride + j + 1)%Z) +
  w10 * of_int (I1_ptr ((i + 1) * I1_stride + j)%Z) +
  w11 * of_int (I1_ptr ((i + 1) * I1_stride + j + 1)%Z) -
  of_int (I0_ptr (i * I0_stride + j)%Z).

(** The registers that the three [HAL_*_BILINEAR_8x8_PATCH_EXTRACTION]
    macros keep from one row to the next. *)
Record hal_regs : Type := {
  r_I0_ptr : ptr Z;
  r_I1_ptr : ptr Z;
  I1_row_4_left : v4 Z;
  I1_row_4_right : v4 Z;
  I1_row_shifted_4_left : v4 Z;
  I1_row_shifted_4_right : v4 Z
}.

(** [HAL_INIT_BILINEAR_8x8_PATCH_EXTRACTION] *)
Definition HAL_INIT (I0_ptr I1_ptr : ptr Z) (I1_stride : Z) : hal_regs :=
  let I1_row_8 := v_load_expand I1_ptr in
  let I1_row_shifted_8 := v_load_expand (ptr_add I1_ptr 1) in
  let '(l, r) := v_expand I1_row_8 in
  let '(sl, sr) := v_expand I1_row_shifted_8 in
  {| r_I0_ptr := I0_ptr; r_I1_ptr := ptr_add I1_ptr I1_stride;
     I1_row_4_left := l; I1_row_4_right := r;
     I1_row_shifted_4_left := sl; I1_row_shifted_4_right := sr |}.

(** [HAL_PROCESS_BILINEAR_8x8_PATCH_EXTRACTION]: the next row of [I1], and
    [I_diff_left], [I_diff_right]. *)
Definition HAL_PROCESS (w00 w01 w10 w11 : F) (st : hal_regs)
  : v4 F * v4 F * (v4 Z * v4 Z * v4 Z * v4 Z) :=
  let w00v := v_setall_f32 w00 in let w01v := v_setall_f32 w01 in
  let w10v := v_setall_f32 w10 in let w11v := v_setall_f32 w11 in
  let I1_row_next_8 := v_load_expand (r_I1_ptr st) in
  let I1_row_next_shifted_8 := v_load_expand (ptr_add (r_I1_ptr st) 1) in
  let '(nl, nr) := v_expand I1_row_next_8 in
  let '(nsl, nsr) := v_expand I1_row_next_shifted_8 in
  let I0_row_8 := v_load_expand (r_I0_ptr st) in
  let '(I0l, I0r) := v_expand I0_row_8 in
  let I_diff_left :=
    v_sub (v_add (v_add (v_add (v_mul w00v (v_cvt_f32 (I1_row_4_left st)))
                               (v_mul w01v (v_cvt_f32 (I1_row_shifted_4_left st))))
                        (v_mul w10v (v_cvt_f32 nl)))
                 (v_mul w11v (v_cvt_f32 nsl)))
          (v_cvt_f32 I0l) in
  let I_diff_right :=
    v_sub (v_add (v_add (v_add (v_mul w00v (v_cvt_f32 (I1_row_4_right st)))
                               (v_mul w01v (v_cvt_f32 (I1_row_shifted_4_right st))))
                        (v_mul w10v (v_cvt_f32 nr)))
                 (v_mul w11v (v_cvt_f32 nsr)))
          (v_cvt_f32 I0r) in
  (I_diff_left, I_diff_right, (nl, nr, nsl, nsr)).

(** [HAL_BILINEAR_8x8_PATCH_EXTRACTION_NEXT_ROW] *)
Definition HAL_NEXT_ROW (I0_stride I1_stride : Z) (st : hal_regs)
    (next : v4 Z * v4 Z * v4 Z * v4 Z) : hal_regs :=
  let '(nl, nr, nsl, nsr) := next in
  {| r_I0_ptr := ptr_add (r_I0_ptr st) I0_stride;
     r_I1_ptr := ptr_add (r_I1_ptr st) I1_stride;
     I1_row_4_left := nl; I1_row_4_right := nr;
     I1_row_shifted_4_left := nsl; I1_row_shifted_4_right := nsr |}.

(** *** [processPatch] *)

(** The branch taken when [CV_SIMD128] is set and [patch_sz == 8]. *)
Definition processPatch_simd (I0_ptr I1_ptr I0x_ptr I0y_ptr : ptr Z)
    (I0_stride I1_stride : Z) (w00 w01 w10 w11 : F) : F * F * F :=
  let zero := v_setall_f32 Fzero in
  let '(Ux_vec, Uy_vec, SSD_vec, _, _, _) :=
    for_lt 0 8 (fun _ '(Ux_vec, Uy_vec, SSD_vec, I0x_ptr, I0y_ptr, st) =>
      let '(I_diff_left, I_diff_right, next) := HAL_PROCESS w00 w01 w10 w11 st in
      let '(I0x_row_4_left, I0x_row_4_right) := v_expand (v_load I0x_ptr) in
      let '(I0y_row_4_left, I0y_row_4_right) := v_expand (v_load I0y_ptr) in
      let Ux_vec := v_add Ux_vec
        (v_add (v_mul I_diff_left (v_cvt_f32 I0x_row_4_left))
               (v_mul I_diff_right (v_cvt_f32 I0x_row_4_right))) in
      let Uy_vec := v_add Uy_vec
        (v_add (v_mul I_diff_left (v_cvt_f32 I0y_row_4_left))
               (v_mul I_diff_right (v_cvt_f32 I0y_row_4_right))) in
      let SSD_vec := v_add SSD_vec
        (v_add (v_mul I_diff_left I_diff_left) (v_mul I_diff_right I_diff_right)) in
      (Ux_vec, Uy_vec, SSD_vec, ptr_add I0x_ptr I0_stride, ptr_add I0y_ptr I0_stride,
       HAL_NEXT_ROW I0_stride I1_stride st next))
    (zero, zero, zero, I0x_ptr, I0y_ptr, HAL_INIT I0_ptr I1_ptr I1_stride) in
  (v_reduce_sum SSD_vec, v_reduce_sum Ux_vec, v_reduce_sum Uy_vec).

(** The scalar branch. *)
Definition processPatch_scalar (I0_ptr I1_ptr I0x_ptr I0y_ptr : ptr Z)
    (I0_stride I1_stride : Z) (w00 w01 w10 w11 : F) (patch_sz : Z) : F * F * F :=
  for_lt 0 patch_sz (fun i =>
    for_lt 0 patch_sz (fun j '(SSD, dst_dUx, dst_dUy) =>
      let diff := patch_diff I0_ptr I1_ptr I0_stride I1_stride w00 w01 w10 w11 i j in
      (SSD + diff * diff,
       dst_dUx + diff * of_int (I0x_ptr (i * I0_stride + j)%Z),
       dst_dUy + diff * of_int (I0y_ptr (i * I0_stride + j)%Z))))
    (Fzero, Fzero, Fzero).

(** [processPatch]; [simd128] is the compile-time flag [CV_SIMD128].  The
    result is [(SSD, dst_dUx, dst_dUy)]: the value returned and the two
    reference parameters at exit. *)
Definition processPatch (simd128 : bool) (I0_ptr I1_ptr I0x_ptr I0y_ptr : ptr Z)
    (I0_stride I1_stride : Z) (w00 w01 w10 w11 : F) (patch_sz : Z) : F * F * F :=
  if simd128 && (patch_sz =? 8)%Z
  then processPatch_simd I0_ptr I1_ptr I0x_ptr I0y_ptr I0_stride I1_stride w00 w01 w10 w11
  else processPatch_scalar I0_ptr I1_ptr I0x_ptr I0y_ptr I0_stride I1_stride
         w00 w01 w10 w11 patch_sz.

(** *** [computeSSD] *)

Definition computeSSD_simd (I0_ptr I1_ptr : ptr Z) (I0_stride I1_stride : Z)
    (w00 w01 w10 w11 : F) : F :=
  let '(SSD_vec, _) :=
    for_lt 0 8 (fun _ '(SSD_vec, st) =>
      let '(I_diff_left, I_diff_right, next) := HAL_PROCESS w00 w01 w10 w11 st in
      (v_add SSD_vec
         (v_add (v_mul I_diff_left I_diff_left) (v_mul I_diff_right I_diff_right)),
       HAL_NEXT_ROW I0_stride I1_stride st next))
    (v_setall_f32 Fzero, HAL_INIT I0_ptr I1_ptr I1_stride) in
  v_reduce_sum SSD_vec.

Definition computeSSD_scalar (I0_ptr I1_ptr : ptr Z) (I0_stride I1_stride : Z)
    (w00 w01 w10 w11 : F) (patch_sz : Z) : F :=
  for_lt 0 patch_sz (fun i =>
    for_lt 0 patch_sz (fun j SSD =>
      let diff := patch_diff I0_ptr I1_ptr I0_stride I1_stride w00 w01 w10 w11 i j in
      SSD + diff * diff))
    Fzero.

Definition computeSSD (simd128 : bool) (I0_ptr I1_ptr : ptr Z) (I0_stride I1_stride : Z)
    (w00 w01 w10 w11 : F) (patch_sz : Z) : F :=
  if simd128 && (patch_sz =? 8)%Z
  then computeSSD_simd I0_ptr I1_ptr I0_stride I1_stride w00 w01 w10 w11
  else computeSSD_scalar I0_ptr I1_ptr I0_stride I1_stride w00 w01 w10 w11 patch_sz.

(** *** [computeSSDMeanNorm] *)

(** The two accumulators [(sum_diff, sum_diff_sq)] of each branch. *)
Definition meanNorm_sums_simd (I0_ptr I1_ptr : ptr Z) (I0_stride I1_stride : Z)
    (w00 w01 w10 w11 : F) : F * F :=
  let '(sum_diff_vec, sum_diff_sq_vec, _) :=
    for_lt 0 8 (fun _ '(sum_diff_vec, sum_diff_sq_vec, st) =>
      let '(I_diff_left, I_diff_right, next) := HAL_PROCESS w00 w01 w10 w11 st in
      let sum_diff_sq_vec := v_add sum_diff_sq_vec
        (v_add (v_mul I_diff_left I_diff_left) (v_mul I_diff_right I_diff_right)) in
      let sum_diff_vec := v_add sum_diff_vec (v_add I_diff_left I_diff_right) in
      (sum_diff_vec, sum_diff_sq_vec, HAL_NEXT_ROW I0_stride I1_stride st next))
    (v_setall_f32 Fzero, v_setall_f32 Fzero, HAL_INIT I0_ptr I1_ptr I1_stride) in
  (v_reduce_sum sum_diff_vec, v_reduce_sum sum_diff_sq_vec).

Definition meanNorm_sums_scalar (I0_ptr I1_ptr : ptr Z) (I0_stride I1_stride : Z)
    (w00 w01 w10 w11 : F) (patch_sz : Z) : F * F :=
  for_lt 0 patch_sz (fun i =>
    for_lt 0 patch_sz (fun j '(sum_diff, sum_diff_sq) =>
      let diff := patch_diff I0_ptr I1_ptr I0_stride I1_stride w00 w01 w10 w11 i j in
      (sum_diff + diff, sum_diff_sq + diff * diff)))
    (Fzero, Fzero).

Definition computeSSDMeanNorm (simd128 : bool) (I0_ptr I1_ptr : ptr Z)
    (I0_stride I1_stride : Z) (w00 w01 w10 w11 : F) (patch_sz : Z) : F :=
  let n := of_int patch_sz * of_int patch_sz in
  let '(sum_diff, sum_diff_sq) :=
    if simd128 && (patch_sz =? 8)%Z
    then meanNorm_sums_simd I0_ptr I1_ptr I0_stride I1_stride w00 w01 w10 w11
    else meanNorm_sums_scalar I0_ptr I1_ptr I0_stride I1_stride w00 w01 w10 w11 patch_sz in
  sum_diff_sq - sum_diff * sum_diff / n.

End PatchMatcher.

(** ** The object and its buffers *)

(** The integer and boolean members of [DISOpticalFlowImpl] (the three
    [float] parameters of the variational refinement are only passed on to
    the external smoother). *)
Record DISOpticalFlowImpl : Type := {
  finest_scale : Z;
  coarsest_scale : Z;
  patch_size : Z;
  patch_stride : Z;
  grad_descent_iter : Z;
  variational_refinement_iter : Z;
  use_mean_normalization : bool;
  use_spatial_propagation : bool;
  border_size : Z;
  w : Z;   (* flow buffer width on the current scale *)
  h : Z;   (* flow buffer height on the current scale *)
  ws : Z;  (* sparse flow buffer width on the current scale *)
  hs : Z   (* sparse flow buffer height on the current scale *)
}.

(** ** Densification *)

Section Densification.
Context {F : Type} `{Arith F}.
Local Open Scope arith_scope.

(** [Densification_ParBody]: the members set by the constructor. *)
Record Densification_ParBody : Type := {
  pb_dis : DISOpticalFlowImpl;
  pb_nstripes : Z;
  pb_stripe_sz : Z;
  pb_h : Z;
  pb_Ux : ptr F;
  pb_Uy : ptr F;
  pb_Sx : ptr F;
  pb_Sy : ptr F;
  pb_I0 : ptr Z;
  pb_I1 : ptr Z
}.

(** [(int)ceil(h / (double)nstripes)].  For [int] operands and a positive
    divisor the rounding of the quotient to [double] is too small to reach
    an integer it is not equal to, so the result is the integer ceiling. *)
Definition ceil_div (a b : Z) : Z := (- ((- a) / b))%Z.

Definition Densification_ParBody_ctor (_dis : DISOpticalFlowImpl) (_nstripes _h : Z)
    (dst_Ux dst_Uy src_Sx src_Sy : ptr F) (_I0 _I1 : ptr Z) : Densification_ParBody :=
  {| pb_dis := _dis; pb_nstripes := _nstripes; pb_stripe_sz := ceil_div _h _nstripes;
     pb_h := _h; pb_Ux := dst_Ux; pb_Uy := dst_Uy; pb_Sx := src_Sx; pb_Sy := src_Sy;
     pb_I0 := _I0; pb_I1 := _I1 |}.

(** [UPDATE_SPARSE_I_COORDINATES] and [UPDATE_SPARSE_J_COORDINATES]: one
    step of the window [(start, end)] of sparse-grid indices along an axis
    of length [extent], at dense coordinate [i]. *)
Definition UPDATE_SPARSE_COORDINATES (extent psz pstr : Z) (i : Z) (se : Z * Z) : Z * Z :=
  let '(start_s, end_s) := se in
  let end_s := if (Z.rem i pstr =? 0)%Z && (i + psz <=? extent)%Z
               then (end_s + 1)%Z else end_s in
  let start_s := if (0 <=? i - psz)%Z && (Z.rem (i - psz) pstr =? 0)%Z && (start_s <? end_s)%Z
                 then (start_s + 1)%Z else start_s in
  (start_s, end_s).

(** The window in force once coordinates [0 .. i] have been visited. *)
Definition sparse_window (extent psz pstr : Z) (i : Z) : Z * Z :=
  for_le 0 i (UPDATE_SPARSE_COORDINATES extent psz pstr) (0, -1)%Z.

(** The four sample indices [(i_l, i_u, j_l, j_u)] and the clamped
    coordinates [(i_m, j_m)] for pixel [(i, j)] and displacement
    [(sx, sy)]. *)
Definition sample_coords (dis : DISOpticalFlowImpl) (i j : Z) (sx sy : F)
  : F * F * (Z * Z * Z * Z) :=
  let j_m := Fmin (Fmax (of_int j + sx) Fzero) (of_int (w dis) - Fone - EPS) in
  let i_m := Fmin (Fmax (of_int i + sy) Fzero) (of_int (h dis) - Fone - EPS) in
  let j_l := to_int j_m in
  let j_u := (j_l + 1)%Z in
  let i_l := to_int i_m in
  let i_u := (i_l + 1)%Z in
  (i_m, j_m, (i_l, i_u, j_l, j_u)).

(** [diff]: the residual of the patch at grid cell [(is, js)] seen from
    pixel [(i, j)]. *)
Definition residual (dis : DISOpticalFlowImpl) (Sx_ptr Sy_ptr : ptr F) (I0_ptr I1_ptr : ptr Z)
    (i j is_ js_ : Z) : F :=
  let '(i_m, j_m, (i_l, i_u, j_l, j_u)) :=
    sample_coords dis i j (Sx_ptr (is_ * ws dis + js_)%Z) (Sy_ptr (is_ * ws dis + js_)%Z) in
  (j_m - of_int j_l) * (i_m - of_int i_l) * of_int (I1_ptr (i_u * w dis + j_u)%Z) +
  (of_int j_u - j_m) * (i_m - of_int i_l) * of_int (I1_ptr (i_u * w dis + j_l)%Z) +
  (j_m - of_int j_l) * (of_int i_u - i_m) * of_int (I1_ptr (i_l * w dis + j_u)%Z) +
  (of_int j_u - j_m) * (of_int i_u - i_m) * of_int (I1_ptr (i_l * w dis + j_l)%Z) -
  of_int (I0_ptr (i * w dis + j)%Z).

(** [coef = 1 / max(1.0f, abs(diff))] *)
Definition coef_of (diff : F) : F := Fone / Fmax Fone (Fabs diff).

(** The accumulators [(sum_coef, sum_Ux, sum_Uy)] at pixel [(i, j)] after
    the two loops over the window. *)
Definition pixel_sums (dis : DISOpticalFlowImpl) (Sx_ptr Sy_ptr : ptr F) (I0_ptr I1_ptr : ptr Z)
    (i j : Z) (wi wj : Z * Z) : F * F * F :=
  let '(start_is, end_is) := wi in
  let '(start_js, end_js) := wj in
  for_le start_is end_is (fun is_ =>
    for_le start_js end_js (fun js_ '(sum_coef, sum_Ux, sum_Uy) =>
      let diff := residual dis Sx_ptr Sy_ptr I0_ptr I1_ptr i j is_ js_ in
      let coef := coef_of diff in
      (sum_coef + coef,
       sum_Ux + coef * Sx_ptr (is_ * ws dis + js_)%Z,
       sum_Uy + coef * Sy_ptr (is_ * ws dis + js_)%Z)))
    (Fzero, Fzero, Fzero).

(** The body of the loop over [j]: the window step, the sums, the two
    stores.  The state is the window along [j] and the two output
    buffers. *)
Definition densify_pixel (dis : DISOpticalFlowImpl) (Sx_ptr Sy_ptr : ptr F)
    (I0_ptr I1_ptr : ptr Z) (i : Z) (wi : Z * Z) (j : Z)
    (st : Z * Z * ptr F * ptr F) : Z * Z * ptr F * ptr F :=
  let '(start_js, end_js, Ux_ptr, Uy_ptr) := st in
  let wj := UPDATE_SPARSE_COORDINATES (w dis) (patch_size dis) (patch_stride dis) j
              (start_js, end_js) in
  let '(sum_coef, sum_Ux, sum_Uy) := pixel_sums dis Sx_ptr Sy_ptr I0_ptr I1_ptr i j wi wj in
  (fst wj, snd wj,
   ptr_store Ux_ptr (i * w dis + j)%Z (sum_Ux / sum_coef),
   ptr_store Uy_ptr (i * w dis + j)%Z (sum_Uy / sum_coef)).

(** The body of the loop over [i]. *)
Definition densify_row (body : Densification_ParBody) (i : Z)
    (st : Z * Z * ptr F * ptr F) : Z * Z * ptr F * ptr F :=
  let dis := pb_dis body in
  let '(start_is, end_is, Ux_ptr, Uy_ptr) := st in
  let wi := UPDATE_SPARSE_COORDINATES (pb_h body) (patch_size dis) (patch_stride dis) i
              (start_is, end_is) in
  let '(_, _, Ux_ptr, Uy_ptr) :=
    for_lt 0 (w dis)
      (densify_pixel dis (pb_Sx body) (pb_Sy body) (pb_I0 body) (pb_I1 body) i wi)
      (0, -1, Ux_ptr, Uy_ptr)%Z in
  (fst wi, snd wi, Ux_ptr, Uy_ptr).

(** [Densification_ParBody::operator()(range)]: the output buffers
    [(Ux, Uy)] after the call. *)
Definition Densification_operator (body : Densification_ParBody) (range : Z * Z)
  : ptr F * ptr F :=
  let dis := pb_dis body in
  let start_i := Z.min (fst range * pb_stripe_sz body) (pb_h body) in
  let end_i := Z.min (snd range * pb_stripe_sz body) (pb_h body) in
  let wi0 :=
    for_lt 0 start_i
      (UPDATE_SPARSE_COORDINATES (pb_h body) (patch_size dis) (patch_stride dis))
      (0, -1)%Z in
  let '(_, _, Ux_ptr, Uy_ptr) :=
    for_lt start_i end_i (densify_row body) (fst wi0, snd wi0, pb_Ux body, pb_Uy body) in
  (Ux_ptr, Uy_ptr).

End Densification.

(** ** Pyramid sizes: [prepareBuffers] *)

(** The extent [(rows, cols)] of a [Mat_]; the pixels of a pyramid level
    come from [cv::resize], which is outside the class. *)
Definition Size : Type := (Z * Z)%type.

Definition INT_MIN : Z := -2147483648.

(** 32-bit two's complement wrap-around of an [int] result. *)
Definition wrap_int (x : Z) : Z := (x + 2147483648) mod 4294967296 - 2147483648.

(** [v.resize(n)]: existing elements are kept, new ones are empty. *)
Definition vector_resize {A : Type} (v : list A) (n : nat) (d : A) : list A :=
  firstn n v ++ repeat d (n - length v).

(** [v[k] = x] for [k] in range. *)
Fixpoint vector_store {A : Type} (v : list A) (k : nat) (x : A) : list A :=
  match v, k with
  | [], _ => []
  | _ :: t, O => x :: t
  | y :: t, S k' => y :: vector_store t k' x
  end.

Definition vector_at (v : list Size) (k : Z) : Size := nth (Z.to_nat k) v (0, 0).

(** One iteration of the loop over [i] in [prepareBuffers], on the state
    [(fraction, cur_rows, cur_cols, I0s, I1s)]. *)
Definition prepareBuffers_level (self : DISOpticalFlowImpl) (I0_size : Size) (i : Z)
    (st : Z * Z * Z * list Size * list Size) : Z * Z * Z * list Size * list Size :=
  let '(fraction, cur_rows, cur_cols, I0s, I1s) := st in
  let '(cur_rows, cur_cols, I0s, I1s) :=
    if i =? finest_scale self then
      let cur_rows := Z.quot (fst I0_size) fraction in
      let cur_cols := Z.quot (snd I0_size) fraction in
      (cur_rows, cur_cols,
       vector_store I0s (Z.to_nat i) (cur_rows, cur_cols),
       vector_store I1s (Z.to_nat i) (cur_rows, cur_cols))
    else if finest_scale self <? i then
      let cur_rows := Z.quot (fst (vector_at I0s (i - 1))) 2 in
      let cur_cols := Z.quot (snd (vector_at I0s (i - 1))) 2 in
      (cur_rows, cur_cols,
       vector_store I0s (Z.to_nat i) (cur_rows, cur_cols),
       vector_store I1s (Z.to_nat i) (cur_rows, cur_cols))
    else (cur_rows, cur_cols, I0s, I1s) in
  (wrap_int (fraction * 2), cur_rows, cur_cols, I0s, I1s).

(** [prepareBuffers]: the extents of the two image pyramids afterwards.
    [I0s] and [I1s] are the vectors left by the previous call. *)
Definition prepareBuffers (self : DISOpticalFlowImpl) (I0s I1s : list Size) (I0_size : Size)
  : list Size * list Size :=
  let n := Z.to_nat (coarsest_scale self + 1) in
  let I0s := vector_resize I0s n (0, 0) in
  let I1s := vector_resize I1s n (0, 0) in
  let '(_, _, _, I0s, I1s) :=
    for_le 0 (coarsest_scale self) (prepareBuffers_level self I0_size) (1, 0, 0, I0s, I1s) in
  (I0s, I1s).

(** ** Scale selection *)

(** [(int)(log(m / (4.0 * p)) / log(2.0) + 0.5)] for positive [m] and [p],
    in integer arithmetic: the value [y = log2(m / (4 p)) + 1/2] is never
    an integer (that would make [sqrt 2] rational), and for [k >= 0],
    [k <= y] iff [4^k * 8 p^2 <= m^2], while for [j >= 0], [-j - 1 < y] iff
    [2 p^2 < 4^j * m^2].  The conversion truncates toward zero.  For
    [p <= 0] the argument of the conversion is infinite or not a number
    and the result is the indefinite value [INT_MIN]. *)
Definition search_range_scale (m p : Z) : Z :=
  if (m <=? 0) || (p <=? 0) then INT_MIN
  else if 8 * p * p <=? m * m then Z.log2 (m * m / (8 * p * p)) / 2
  else let s := 2 * p * p / (m * m) in
       if s =? 0 then 0 else - (Z.log2 s / 2 + 1).

(** [(int)(log(q) / log(2.0))] for the [int] [q]: the floor of the binary
    logarithm when [q >= 1]; [log(0)] is minus infinity, which the
    conversion turns into [INT_MIN]. *)
Definition patch_fit_scale (q : Z) : Z :=
  if q <=? 0 then INT_MIN else Z.log2 q.

(** The two conversions read over the real numbers: [Rtrunc] is the
    conversion of a [double] to [int], which discards the fraction. *)
Definition Rtrunc (x : R) : Z := if Rle_dec 0 x then Zfloor x else Zceil x.

Definition search_range_scale_R (m p : Z) : Z :=
  Rtrunc (ln (IZR m / (4 * IZR p)) / ln 2 + / 2)%R.

Definition patch_fit_scale_R (q : Z) : Z := Rtrunc (ln (IZR q) / ln 2)%R.

Definition set_scales (self : DISOpticalFlowImpl) (ps cs fs : Z) : DISOpticalFlowImpl :=
  {| finest_scale := fs; coarsest_scale := cs; patch_size := ps;
     patch_stride := patch_stride self; grad_descent_iter := grad_descent_iter self;
     variational_refinement_iter := variational_refinement_iter self;
     use_mean_normalization := use_mean_normalization self;
     use_spatial_propagation := use_spatial_propagation self;
     border_size := border_size self; w := w self; h := h self; ws := ws self; hs := hs self |}.

Definition set_coarsest_scale (self : DISOpticalFlowImpl) (cs : Z) : DISOpticalFlowImpl :=
  set_scales self (patch_size self) cs (finest_scale self).

Section AutoSelect.
Context {F : Type} `{Arith F}.

(** [log2] and [std::floor] on [float]: functions of the C library. *)
Variables Flog2 Ffloor : F -> F.

(** [autoSelectCoarsestScale]:
    [max(0, (int)floor(log2((2.0f * (float)img_width) /
                            ((float)fratio * (float)patch_size))))].
    The product, the quotient and the conversions are those of [float]. *)
Definition autoSelectCoarsestScale (self : DISOpticalFlowImpl) (img_width : Z) : Z :=
  let fratio := 5 in
  Z.max 0 (to_int (Ffloor (Flog2
    ((of_int 2 * of_int img_width) / (of_int fratio * of_int (patch_size self)))%fl))).

(** [autoSelectPatchSizeAndScales] *)
Definition autoSelectPatchSizeAndScales (self : DISOpticalFlowImpl) (img_width : Z)
  : DISOpticalFlowImpl :=
  let choose (ps off : Z) :=
    let self1 := set_scales self ps (coarsest_scale self) (finest_scale self) in
    let cs := autoSelectCoarsestScale self1 img_width in
    set_scales self1 ps cs (Z.max (cs - off) 0) in
  match finest_scale self with
  | 1 => choose 8 2
  | 3 => choose 12 4
  | 4 => choose 12 5
  | _ => choose 8 2
  end.

End AutoSelect.

(** ** The entry of [calc] *)

Definition CV_8U : Z := 0.
Definition CV_32F : Z := 5.

(** What [calc] looks at in an array argument: its extent, element type
    and layout, and the storage it refers to.  [data = None] is storage
    that has just been allocated and not yet written. *)
Record Mat : Type := {
  rows : Z;
  cols : Z;
  depth : Z;
  channels : Z;
  isContinuous : bool;
  data : option (list Z)
}.

Definition empty (m : Mat) : bool := (rows m =? 0) || (cols m =? 0).
Definition sameSize (a b : Mat) : bool := (rows a =? rows b) && (cols a =? cols b).

(** [m.create(size, type)]: nothing happens when the extent and type
    already agree; otherwise the array is released and allocated anew. *)
Definition create (m : Mat) (r c d ch : Z) : Mat :=
  if (rows m =? r) && (cols m =? c) && (depth m =? d) && (channels m =? ch)
  then m
  else {| rows := r; cols := c; depth := d; channels := ch;
          isContinuous := true; data := None |}.

(** How a call can end without a result: one of the two exceptions, or the
    [int] division by a zero [patch_size], which raises no exception and
    stops the process. *)
Inductive Error : Type :=
  | StsAssert     (* a failed CV_Assert *)
  | StsBadSize    (* CV_Error(cv::Error::StsBadSize, ...) *)
  | DivideByZero. (* min(cols, rows) / patch_size with patch_size == 0 *)

Section CalcEntry.
Context {F : Type} `{Arith F}.
Variables Flog2 Ffloor : F -> F.

(** [calc] from its first statement to the call of [prepareBuffers]:
    either the way the call ends, or [use_input_flow]; together with the
    object and the caller's [flow] array as they are at that point. *)
Definition calc_entry (self : DISOpticalFlowImpl) (I0 I1 flow : Mat)
  : (Error + bool) * DISOpticalFlowImpl * Mat :=
  if negb (negb (empty I0) && (depth I0 =? CV_8U) && (channels I0 =? 1))
  then (inl StsAssert, self, flow)
  else if negb (negb (empty I1) && (depth I1 =? CV_8U) && (channels I1 =? 1))
  then (inl StsAssert, self, flow)
  else if negb (sameSize I0 I1) then (inl StsAssert, self, flow)
  else if negb (isContinuous I0) then (inl StsAssert, self, flow)
  else if negb (isContinuous I1) then (inl StsAssert, self, flow)
  else
    let '(use_input_flow, flow) :=
      if sameSize flow I0 && (depth flow =? CV_32F) && (channels flow =? 2)
      then (true, flow)
      else (false, create flow (rows I1) (cols I1) CV_32F 2) in
    if patch_size self =? 0 then (inl DivideByZero, self, flow)
    else
    let self := set_coarsest_scale self
      (Z.min (search_range_scale (Z.max (cols I0) (rows I0)) (patch_size self))
             (patch_fit_scale (Z.quot (Z.min (cols I0) (rows I0)) (patch_size self)))) in
    if coarsest_scale self <? 0 then (inl StsBadSize, self, flow)
    else
      let self :=
        if coarsest_scale self <? finest_scale self
        then autoSelectPatchSizeAndScales Flog2 Ffloor self (cols I0)
        else self in
      (inr use_input_flow, self, flow).

End CalcEntry.

(** The first four statements of the loop over the scales in [calc]. *)
Definition enter_scale (self : DISOpticalFlowImpl) (I0s : list Size) (i : Z)
  : DISOpticalFlowImpl :=
  let w' := snd (vector_at I0s i) in
  let h' := fst (vector_at I0s i) in
  {| finest_scale := finest_scale self; coarsest_scale := coarsest_scale self;
     patch_size := patch_size self; patch_stride := patch_stride self;
     grad_descent_iter := grad_descent_iter self;
     variational_refinement_iter := variational_refinement_iter self;
     use_mean_normalization := use_mean_normalization self;
     use_spatial_propagation := use_spatial_propagation self;
     border_size := border_size self; w := w'; h := h';
     ws := 1 + Z.quot (w' - patch_size self) (patch_stride self);
     hs := 1 + Z.quot (h' - patch_size self) (patch_stride self) |}.

(** [DISOpticalFlowImpl::DISOpticalFlowImpl()] *)
Definition DISOpticalFlowImpl_ctor : DISOpticalFlowImpl :=
  {| finest_scale := 2; coarsest_scale := 10; patch_size := 8; patch_stride := 4;
     grad_descent_iter := 16; variational_refinement_iter := 5;
     use_mean_normalization := true; use_spatial_propagation := true;
     border_size := 16; w := 0; h := 0; ws := 0; hs := 0 |}.

(** ** The two arithmetics *)

(** *** IEEE 754 single precision *)

Module B32.

Definition prec : Z := 24.
Definition emax : Z := 128.

Definition zero : spec_float := S754_zero false.

(** Conversion of an integer: rounded to nearest, ties to even. *)
Definition of_Z (n : Z) : spec_float := binary_normalize prec emax n 0 false.

(** [(int)x]: the fraction is discarded; what does not fit an [int]
    (including infinities and NaN) gives the indefinite value [INT_MIN]. *)
Definition to_Z (x : spec_float) : Z :=
  match x with
  | S754_zero _ => 0
  | S754_finite s m e =>
      let t := cond_Zopp s (match e with
                            | Z0 => Zpos m
                            | Zpos p => Zpos m * 2 ^ Zpos p
                            | Zneg p => Zpos m / 2 ^ Zpos p
                            end) in
      if (INT_MIN <=? t) && (t <=? 2147483647) then t else INT_MIN
  | _ => INT_MIN
  end.

(** [0.001F]: the single nearest to one thousandth, [0x3A83126F]. *)
Definition eps : spec_float := S754_finite false 8589935 (-33).

(** The rational number that a finite single is. *)
Definition to_Q (x : spec_float) : Q :=
  match x with
  | S754_finite s m e => (inject_Z (cond_Zopp s (Zpos m)) * (2 # 1) ^ e)%Q
  | _ => 0%Q
  end.

End B32.

#[export] Instance binary32 : Arith spec_float := {
  Fzero := B32.zero;
  Fone := B32.of_Z 1;
  EPS := B32.eps;
  Fadd := SFadd B32.prec B32.emax;
  Fsub := SFsub B32.prec B32.emax;
  Fmul := SFmul B32.prec B32.emax;
  Fdiv := SFdiv B32.prec B32.emax;
  Fabs := SFabs;
  Fltb := SFltb;
  of_int := B32.of_Z;
  to_int := B32.to_Z
}.

(** What every result of a single-precision operation is: zero, infinite,
    not a number, or a mantissa of at most 24 digits with an exponent of
    at most 104. *)
Definition rounded (x : spec_float) : Prop :=
  match x with
  | S754_finite _ m e => Zdigits2 (Zpos m) <= 24 /\ e <= 104
  | _ => True
  end.

(** A positive single: plus infinity, or a positive mantissa with an
    exponent of at least -149. *)
Definition positive_single (x : spec_float) : Prop :=
  match x with
  | S754_finite false _ e => -149 <= e
  | S754_infinity false => True
  | _ => False
  end.

Definition is_infinite (x : spec_float) : bool :=
  match x with S754_infinity _ => true | _ => false end.

(** *** Exact rationals *)

Definition Qc_ltb (a b : Qc) : bool :=
  match (a ?= b)%Qc with Lt => true | _ => false end.

#[export] Instance exact : Arith Qc := {
  Fzero := 0%Qc;
  Fone := 1%Qc;
  EPS := Q2Qc (1 # 1000);
  Fadd := Qcplus;
  Fsub := Qcminus;
  Fmul := Qcmult;
  Fdiv := Qcdiv;
  Fabs := fun a => if Qc_ltb a 0%Qc then (0 - a)%Qc else a;
  Fltb := Qc_ltb;
  of_int := fun n => Q2Qc (inject_Z n);
  to_int := fun a => Z.quot (Qnum (this a)) (Zpos (Qden (this a)))
}.

(** ** What the patch functions are to compute *)

Section PatchSpec.
Context {F : Type} `{Arith F}.
Local Open Scope arith_scope.

(** The sum of a list, and the sum of [f i j] over the cells of a
    [patch_sz] x [patch_sz] patch. *)
Definition sum_list (l : list F) : F := fold_right Fadd Fzero l.

Definition patch_cells (patch_sz : Z) : list (Z * Z) :=
  list_prod (Zrange 0 (Z.to_nat patch_sz)) (Zrange 0 (Z.to_nat patch_sz)).

Definition sum_over_patch (patch_sz : Z) (f : Z -> Z -> F) : F :=
  sum_list (map (fun c => f (fst c) (snd c)) (patch_cells patch_sz)).

End PatchSpec.

(** ** The sums as the code accumulates them *)

Section Accumulation.
Context {F : Type} `{Arith F}.
Local Open Scope arith_scope.

(** [s = 0.0f; for (x : l) s += x;]: the terms are added one after the
    other, from the left. *)
Definition running_sum (l : list F) : F := fold_left Fadd l Fzero.

(** The scalar loops: over the cells of the patch, row after row. *)
Definition running_sum_over_patch (patch_sz : Z) (f : Z -> Z -> F) : F :=
  running_sum (map (fun c => f (fst c) (snd c)) (patch_cells patch_sz)).

(** The vector loop: lane [c] of an accumulator receives, row after row,
    the sum of the terms of columns [c] and [c + 4]. *)
Definition lane_sum (f : Z -> Z -> F) (c : Z) : F :=
  running_sum (map (fun r => f r c + f r (c + 4)%Z) (Zrange 0 8)).

Definition lane_sums (f : Z -> Z -> F) : v4 F :=
  V4 (lane_sum f 0) (lane_sum f 1) (lane_sum f 2) (lane_sum f 3).

(** The sum of [f] over the patch in the order of the branch taken. *)
Definition accumulated (simd128 : bool) (patch_sz : Z) (f : Z -> Z -> F) : F :=
  if simd128 && (patch_sz =? 8)%Z then v_reduce_sum (lane_sums f)
  else running_sum_over_patch patch_sz f.

(** The vector accumulators in front of row [r]. *)
Definition lanes_at (f : Z -> Z -> F) (r : Z) : v4 F :=
  let lane c := running_sum (map (fun i => f i c + f i (c + 4)%Z) (Zrange 0 (Z.to_nat r))) in
  V4 (lane 0%Z) (lane 1%Z) (lane 2%Z) (lane 3%Z).

(** The average as the code computes it: the two sums accumulated cell
    after cell, then one division. *)
Definition accumulated_average (cells : list (Z * Z)) (coef val : Z * Z -> F) : F :=
  running_sum (map (fun c => coef c * val c) cells) / running_sum (map coef cells).

End Accumulation.

(** ** Invariants of the vector branches *)

Section PatchInvariants.
Context {F : Type} `{Arith F}.
Local Open Scope arith_scope.

(** After [r] rows lane [c] of an accumulator holds the sum over those
    rows of columns [c] and [c + 4] of the summand [g]. *)
Definition lane_acc (g : Z -> Z -> F) (r c : Z) : F :=
  sum_list (map (fun i => g i c + g i (c + 4)%Z) (Zrange 0 (Z.to_nat r))).

Definition acc4 (g : Z -> Z -> F) (r : Z) : v4 F :=
  V4 (lane_acc g r 0) (lane_acc g r 1) (lane_acc g r 2) (lane_acc g r 3).

End PatchInvariants.

(** Four consecutive columns of row [r], from column [c]. *)
Definition row4 {A : Type} (g : Z -> Z -> A) (r c : Z) : v4 A :=
  V4 (g r c) (g r (c + 1)) (g r (c + 2)) (g r (c + 3)).

(** The registers in front of row [r] of the patch at [I0_ptr], [I1_ptr]. *)
Definition regs_at (I0_ptr I1_ptr : ptr Z) (I0_stride I1_stride : Z)
    (r : Z) (st : hal_regs) : Prop :=
  (forall o, r_I0_ptr st o = I0_ptr (r * I0_stride + o)) /\
  (forall o, r_I1_ptr st o = I1_ptr ((r + 1) * I1_stride + o)) /\
  I1_row_4_left st = row4 (fun i j => I1_ptr (i * I1_stride + j)) r 0 /\
  I1_row_4_right st = row4 (fun i j => I1_ptr (i * I1_stride + j)) r 4 /\
  I1_row_shifted_4_left st = row4 (fun i j => I1_ptr (i * I1_stride + j + 1)) r 0 /\
  I1_row_shifted_4_right st = row4 (fun i j => I1_ptr (i * I1_stride + j + 1)) r 4.

(** ** What densification is to compute *)

Section DensificationSpec.
Context {F : Type} `{Arith F}.
Local Open Scope arith_scope.

(** The flow stored at pixel [(i, j)] of an image of height [hh]: the
    quotients of the accumulators, for the windows in force at row [i] and
    column [j]. *)
Definition pixel_flow (dis : DISOpticalFlowImpl) (hh : Z) (Sx_ptr Sy_ptr : ptr F)
    (I0_ptr I1_ptr : ptr Z) (i j : Z) : F * F :=
  let wi := sparse_window hh (patch_size dis) (patch_stride dis) i in
  let wj := sparse_window (w dis) (patch_size dis) (patch_stride dis) j in
  let '(sum_coef, sum_Ux, sum_Uy) := pixel_sums dis Sx_ptr Sy_ptr I0_ptr I1_ptr i j wi wj in
  (sum_Ux / sum_coef, sum_Uy / sum_coef).

(** Bilinear interpolation of the image [img] of width [width] at the
    real position [(y, x)]: the four neighbours weighted by the fractional
    parts. *)
Definition bilinear (img : ptr Z) (width : Z) (y x : F) : F :=
  let x0 := to_int x in
  let y0 := to_int y in
  let fx := x - of_int x0 in
  let fy := y - of_int y0 in
  (Fone - fx) * (Fone - fy) * of_int (img (y0 * width + x0)%Z) +
  fx * (Fone - fy) * of_int (img (y0 * width + (x0 + 1))%Z) +
  (Fone - fx) * fy * of_int (img ((y0 + 1) * width + x0)%Z) +
  fx * fy * of_int (img ((y0 + 1) * width + (x0 + 1))%Z).

(** Patch [k] along an axis starts at [k * pstr] and is [psz] long. *)
Definition covers (psz pstr n k : Z) : bool :=
  (k * pstr <=? n)%Z && (n <? k * pstr + psz)%Z.

(** The number of patches along an axis of length [extent]
    ([ws] and [hs] in [calc]). *)
Definition grid_size (extent psz pstr : Z) : Z := (1 + (extent - psz) / pstr)%Z.

(** The patches whose footprint holds coordinate [n]. *)
Definition overlapping (extent psz pstr n : Z) : list Z :=
  filter (covers psz pstr n) (Zrange 0 (Z.to_nat (grid_size extent psz pstr))).

(** The patches blended at coordinate [n]: the overlapping ones, or the
    last patch where none overlaps. *)
Definition patches_used (extent psz pstr n : Z) : list Z :=
  match overlapping extent psz pstr n with
  | [] => [(grid_size extent psz pstr - 1)%Z]
  | l => l
  end.

(** The average of [val] over [cells] with weights [coef]. *)
Definition weighted_average (cells : list (Z * Z)) (coef val : Z * Z -> F) : F :=
  sum_list (map (fun c => coef c * val c) cells) / sum_list (map coef cells).

End DensificationSpec.

(** The grid cells of a pair of windows. *)
Definition window_cells (wi wj : Z * Z) : list (Z * Z) :=
  list_prod (Zrange (fst wi) (Z.to_nat (snd wi + 1 - fst wi)))
            (Zrange (fst wj) (Z.to_nat (snd wj + 1 - fst wj))).

(** ** Invariants of the densification loops *)

(** The rows [lo <= i' < i] of the output have been stored. *)
Definition rows_stored {F : Type} `{Arith F} (body : Densification_ParBody (F := F))
    (lo i : Z) (Ux_ptr Uy_ptr : ptr F) : Prop :=
  forall i' j', lo <= i' < i -> 0 <= j' < w (pb_dis body) ->
    Ux_ptr (i' * w (pb_dis body) + j') =
      fst (pixel_flow (pb_dis body) (pb_h body) (pb_Sx body) (pb_Sy body)
             (pb_I0 body) (pb_I1 body) i' j') /\
    Uy_ptr (i' * w (pb_dis body) + j') =
      snd (pixel_flow (pb_dis body) (pb_h body) (pb_Sx body) (pb_Sy body)
             (pb_I0 body) (pb_I1 body) i' j').

(** The window [(s, e)] at coordinate [n], [last] being the index of the
    last patch: [e] is the last patch that starts at or before [n], [s] the
    first patch that ends after [n], both capped at [last]. *)
Definition window_inv (last psz pstr n : Z) (se : Z * Z) : Prop :=
  0 <= fst se <= snd se /\ snd se <= last /\
  snd se * pstr <= n /\
  (snd se < last -> n < (snd se + 1) * pstr) /\
  (0 < fst se -> (fst se - 1) * pstr + psz <= n) /\
  (fst se < last -> n < fst se * pstr + psz).

(** ** Invariant of the loop over the levels *)

(** A level is half the level below it. *)
Definition halved (v : list Size) (i : Z) : Prop :=
  vector_at v (i + 1) = (fst (vector_at v i) / 2, snd (vector_at v i) / 2).

(** The state of the loop of [prepareBuffers] in front of level [r]. *)
Definition levels_built (self : DISOpticalFlowImpl) (I0_size : Size) (r : Z)
    (st : Z * Z * Z * list Size * list Size) : Prop :=
  let '(fraction, cur_rows, cur_cols, I0s, I1s) := st in
  let fs := finest_scale self in
  let n := Z.to_nat (coarsest_scale self + 1) in
  length I0s = n /\ length I1s = n /\
  (r <= fs -> fraction = 2 ^ r) /\
  (fs < r ->
     vector_at I0s fs = (fst I0_size / 2 ^ fs, snd I0_size / 2 ^ fs) /\
     (forall i, fs <= i < r -> vector_at I1s i = vector_at I0s i /\
                               0 <= fst (vector_at I0s i) /\ 0 <= snd (vector_at I0s i)) /\
     (forall i, fs <= i -> i + 1 < r -> halved I0s i)).

(** ** What [calc] requires of its arguments *)

(** The five assertions at the head of [calc]. *)
Definition valid_arrays (I0 I1 : Mat) : bool :=
  negb (empty I0) && (depth I0 =? CV_8U) && (channels I0 =? 1) &&
  (negb (empty I1) && (depth I1 =? CV_8U) && (channels I1 =? 1)) &&
  sameSize I0 I1 && isContinuous I0 && isContinuous I1.

(** The caller's [flow] is taken as the initial flow. *)
Definition usable_flow (flow I0 : Mat) : bool :=
  sameSize flow I0 && (depth flow =? CV_32F) && (channels flow =? 2).

(** * Example data *)

(** Weights [15/16, 1/16, 0, 0] (a sample 1/16 of a pixel to the right).
    In row 0 the differences are 187.5 in column 0 and -180 in column 4;
    in row 1 they are 1/16 in columns 0 and 4; all others are 0. *)
Definition patch_I0 : ptr Z := fun o =>
  if o =? 4 then 180 else if o =? 8 then 14
  else if (13 <=? o) && (o <=? 15) then 1 else 0.

Definition patch_I1 : ptr Z := fun o =>
  if o =? 0 then 200 else if o =? 9 then 15
  else if (14 <=? o) && (o <=? 17) then 1 else 0.

Definition no_gradient : ptr Z := fun _ => 0.

(** Default patch size 8 and stride 4 on a 13 x 13 scale: a 2 x 2 grid of
    patches over rows and columns 0..7 and 4..11; row and column 12 lie
    under no patch. *)
Definition dis_13 : DISOpticalFlowImpl := enter_scale DISOpticalFlowImpl_ctor [(13, 13)] 0.

Definition Sx_13 : ptr Qc := fun k => of_int (5 * k).
Definition Sy_13 : ptr Qc := fun k => of_int (- k).
Definition I0_13 : ptr Z := fun o => o mod 256.
Definition I1_13 : ptr Z := fun o => (3 * o) mod 256.

Definition body_13 : Densification_ParBody (F := Qc) :=
  Densification_ParBody_ctor dis_13 1 13 (fun _ => 0%Qc) (fun _ => 0%Qc)
    Sx_13 Sy_13 I0_13 I1_13.

Definition coef_13 (i j : Z) (c : Z * Z) : Qc :=
  coef_of (residual dis_13 Sx_13 Sy_13 I0_13 I1_13 i j (fst c) (snd c)).

(** The same scale, frames and displacements in single precision. *)
Definition Sx_13_binary32 : ptr spec_float := fun k => of_int (5 * k).
Definition Sy_13_binary32 : ptr spec_float := fun k => of_int (- k).

Definition body_13_binary32 : Densification_ParBody (F := spec_float) :=
  Densification_ParBody_ctor dis_13 1 13 (fun _ => Fzero) (fun _ => Fzero)
    Sx_13_binary32 Sy_13_binary32 I0_13 I1_13.

Definition coef_13_binary32 (i j : Z) (c : Z * Z) : spec_float :=
  coef_of (residual dis_13 Sx_13_binary32 Sy_13_binary32 I0_13 I1_13 i j (fst c) (snd c)).

(** The same scale with one displacement in every patch. *)
Definition body_13_uniform : Densification_ParBody (F := Qc) :=
  Densification_ParBody_ctor dis_13 1 13 (fun _ => 0%Qc) (fun _ => 0%Qc)
    (fun _ => Q2Qc (7 # 2)) (fun _ => Q2Qc (-1 # 3)) I0_13 I1_13.

(** An 8 x 8 scale holds one patch.  Frame 0 is black, frame 1 has the
    value 3 everywhere, the patch carries the displacement (3.5, 0): at
    pixel (0, 0) the residual is 3 and the weight the single nearest to
    1/3. *)
Definition dis_8 : DISOpticalFlowImpl := enter_scale DISOpticalFlowImpl_ctor [(8, 8)] 0.

Definition body_8 : Densification_ParBody (F := spec_float) :=
  Densification_ParBody_ctor dis_8 1 8 (fun _ => Fzero) (fun _ => Fzero)
    (fun _ => (of_int 7 / of_int 2)%fl) (fun _ => Fzero) (fun _ => 0) (fun _ => 3).

Definition dis_wide : DISOpticalFlowImpl :=
  enter_scale DISOpticalFlowImpl_ctor [(8, 32770)] 0.

(** A continuous single-channel 8-bit image. *)
Definition gray_image (r c : Z) : Mat :=
  {| rows := r; cols := c; depth := CV_8U; channels := 1; isContinuous := true;
     data := Some (repeat 0 (Z.to_nat (r * c))) |}.

(** A 5 x 5 two-channel float array that the caller has filled. *)
Definition flow_5x5 : Mat :=
  {| rows := 5; cols := 5; depth := CV_32F; channels := 2; isContinuous := true;
     data := Some (repeat 7 50) |}.

(** The calls of [calc] below are looked at up to the size check and the
    choice of [use_input_flow], or do not reach [autoSelectCoarsestScale]:
    nothing that is stated depends on the two library functions, which
    stand as the identity. *)
Definition libm_unused : spec_float -> spec_float := fun x => x.

(** A 400 x 300 input: the entry of [calc] keeps scales 4 down to 2. *)
Definition self_400x300 : DISOpticalFlowImpl :=
  snd (fst (calc_entry libm_unused libm_unused DISOpticalFlowImpl_ctor
              (gray_image 300 400) (gray_image 300 400) flow_5x5)).

(** * Proofs *)

(** ** Loops and ranges *)

Lemma Zrange_length lo n : length (Zrange lo n) = n.
Proof. revert lo; induction n as [|n IH]; intros lo; simpl; [reflexivity|now rewrite IH]. Qed.

Lemma Zrange_snoc lo n : Zrange lo (S n) = Zrange lo n ++ [lo + Z.of_nat n].
Proof.
  revert lo; induction n as [|n IH]; intros lo.
  - simpl. now rewrite Z.add_0_r.
  - change (Zrange lo (S (S n))) with (lo :: Zrange (lo + 1) (S n)).
    rewrite IH. simpl. do 3 f_equal. lia.
Qed.

Lemma Zrange_In lo n x : In x (Zrange lo n) <-> lo <= x < lo + Z.of_nat n.
Proof.
  revert lo; induction n as [|n IH]; intros lo.
  - simpl. lia.
  - change (Zrange lo (S n)) with (lo :: Zrange (lo + 1) n).
    simpl In. rewrite IH. lia.
Qed.

Lemma for_lt_nil {St : Type} lo hi (body : Z -> St -> St) s :
  hi <= lo -> for_lt lo hi body s = s.
Proof.
  intros Hle. unfold for_lt. replace (Z.to_nat (hi - lo)) with O by lia. reflexivity.
Qed.

Lemma for_lt_snoc {St : Type} lo hi (body : Z -> St -> St) s :
  lo <= hi -> for_lt lo (hi + 1) body s = body hi (for_lt lo hi body s).
Proof.
  intros Hle. unfold for_lt.
  replace (Z.to_nat (hi + 1 - lo)) with (S (Z.to_nat (hi - lo))) by lia.
  rewrite Zrange_snoc, fold_left_app. simpl.
  f_equal. lia.
Qed.

(** Invariants: what holds before iteration [lo] and is carried by every
    iteration holds at the exit. *)
Lemma for_lt_ind {St : Type} (P : Z -> St -> Prop) lo hi (body : Z -> St -> St) s :
  lo <= hi -> P lo s ->
  (forall i t, lo <= i < hi -> P i t -> P (i + 1) (body i t)) ->
  P hi (for_lt lo hi body s).
Proof.
  intros Hle H0 Hstep.
  assert (G : forall n, P (lo + Z.of_nat n) (for_lt lo (lo + Z.of_nat n) body s) \/
                        hi < lo + Z.of_nat n).
  { induction n as [|n IH].
    - left. rewrite Z.add_0_r, for_lt_nil by lia. exact H0.
    - destruct (Z_lt_le_dec hi (lo + Z.of_nat (S n))) as [Hgt|Hin]; [now right|left].
      destruct IH as [IH|IH]; [|lia].
      replace (lo + Z.of_nat (S n)) with (lo + Z.of_nat n + 1) by lia.
      rewrite for_lt_snoc by lia. apply Hstep; [lia|exact IH]. }
  destruct (G (Z.to_nat (hi - lo))) as [G1|G1]; [|lia].
  now replace (lo + Z.of_nat (Z.to_nat (hi - lo))) with hi in G1 by lia.
Qed.

(** ** Sums in exact arithmetic *)

Section Sums.
Context {F : Type} `{ExactArith F}.
Local Open Scope arith_scope.

Add Field Ffield_tac : Ffield.

Lemma sum_list_app (l l' : list F) : sum_list (l ++ l') = sum_list l + sum_list l'.
Proof.
  induction l as [|x l IH]; simpl.
  - ring.
  - rewrite IH. ring.
Qed.

Lemma sum_list_map_add {A : Type} (g k : A -> F) (l : list A) :
  sum_list (map (fun x => g x + k x) l) = sum_list (map g l) + sum_list (map k l).
Proof.
  induction l as [|x l IH]; simpl.
  - ring.
  - rewrite IH. ring.
Qed.

Lemma sum_list_map_ext {A : Type} (g k : A -> F) (l : list A) :
  (forall x, In x l -> g x = k x) -> sum_list (map g l) = sum_list (map k l).
Proof.
  intros E. induction l as [|x l IH]; simpl; [reflexivity|].
  rewrite E by (now left). rewrite IH; [reflexivity|]. intros y Hy. apply E. now right.
Qed.

Lemma sum_list_prod {A B : Type} (g : A -> B -> F) (l : list A) (l' : list B) :
  sum_list (map (fun c => g (fst c) (snd c)) (list_prod l l')) =
  sum_list (map (fun a => sum_list (map (g a) l')) l).
Proof.
  induction l as [|a l IH]; simpl; [reflexivity|].
  rewrite map_app, sum_list_app, IH, map_map. reflexivity.
Qed.

(** A loop that adds [f j] to an accumulator. *)
Lemma fold_acc1 (body : Z -> F -> F) (f : Z -> F) :
  (forall j a, body j a = a + f j) ->
  forall l a, fold_left (fun s j => body j s) l a = a + sum_list (map f l).
Proof.
  intros Hb. induction l as [|x l IH]; intros a; simpl.
  - ring.
  - rewrite IH, Hb. ring.
Qed.

Lemma fold_acc2 (body : Z -> F * F -> F * F) (f g : Z -> F) :
  (forall j a b, body j (a, b) = (a + f j, b + g j)) ->
  forall l a b, fold_left (fun s j => body j s) l (a, b) =
                (a + sum_list (map f l), b + sum_list (map g l)).
Proof.
  intros Hb. induction l as [|x l IH]; intros a b; simpl.
  - f_equal; ring.
  - rewrite Hb, IH. f_equal; ring.
Qed.

Lemma fold_acc3 (body : Z -> F * F * F -> F * F * F) (f g k : Z -> F) :
  (forall j a b c, body j (a, b, c) = (a + f j, b + g j, c + k j)) ->
  forall l a b c, fold_left (fun s j => body j s) l (a, b, c) =
                  (a + sum_list (map f l), b + sum_list (map g l), c + sum_list (map k l)).
Proof.
  intros Hb. induction l as [|x l IH]; intros a b c; simpl.
  - f_equal; [f_equal|]; ring.
  - rewrite Hb, IH. f_equal; [f_equal|]; ring.
Qed.

End Sums.

(** ** The patch functions in exact arithmetic *)

Ltac idx := first [ reflexivity | lia | progress f_equal; idx ].

Section PatchProofs.
Context {F : Type} `{ExactArith F}.
Local Open Scope arith_scope.

Add Field Ffield_patch : Ffield.

Variables (I0_ptr I1_ptr I0x_ptr I0y_ptr : ptr Z) (I0_stride I1_stride : Z).
Variables (w00 w01 w10 w11 : F).

Let diff := patch_diff I0_ptr I1_ptr I0_stride I1_stride w00 w01 w10 w11.
Let gradx (i j : Z) : F := of_int (I0x_ptr (i * I0_stride + j)%Z).
Let grady (i j : Z) : F := of_int (I0y_ptr (i * I0_stride + j)%Z).

Lemma nested_sum (g : Z -> Z -> F) (patch_sz : Z) :
  Fzero + sum_list (map (fun i => sum_list (map (g i) (Zrange 0 (Z.to_nat (patch_sz - 0)))))
                        (Zrange 0 (Z.to_nat (patch_sz - 0)))) =
  sum_over_patch patch_sz g.
Proof.
  unfold sum_over_patch, patch_cells. rewrite sum_list_prod, Z.sub_0_r. ring.
Qed.

(** The scalar branches. *)
Lemma computeSSD_scalar_sum patch_sz :
  computeSSD_scalar I0_ptr I1_ptr I0_stride I1_stride w00 w01 w10 w11 patch_sz =
  sum_over_patch patch_sz (fun i j => diff i j * diff i j).
Proof.
  unfold computeSSD_scalar, for_lt at 1.
  rewrite (fold_acc1 _ (fun i => sum_list (map (fun j => diff i j * diff i j)
                                               (Zrange 0 (Z.to_nat (patch_sz - 0)))))).
  - apply nested_sum.
  - intros i a. unfold for_lt. now rewrite (fold_acc1 _ (fun j => diff i j * diff i j)).
Qed.

Lemma meanNorm_sums_scalar_sum patch_sz :
  meanNorm_sums_scalar I0_ptr I1_ptr I0_stride I1_stride w00 w01 w10 w11 patch_sz =
  (sum_over_patch patch_sz diff, sum_over_patch patch_sz (fun i j => diff i j * diff i j)).
Proof.
  unfold meanNorm_sums_scalar, for_lt at 1.
  rewrite (fold_acc2 _
    (fun i => sum_list (map (diff i) (Zrange 0 (Z.to_nat (patch_sz - 0)))))
    (fun i => sum_list (map (fun j => diff i j * diff i j)
                            (Zrange 0 (Z.to_nat (patch_sz - 0)))))).
  - f_equal; apply nested_sum.
  - intros i a b. unfold for_lt.
    now rewrite (fold_acc2 _ (diff i) (fun j => diff i j * diff i j)).
Qed.

Lemma processPatch_scalar_sum patch_sz :
  processPatch_scalar I0_ptr I1_ptr I0x_ptr I0y_ptr I0_stride I1_stride
    w00 w01 w10 w11 patch_sz =
  (sum_over_patch patch_sz (fun i j => diff i j * diff i j),
   sum_over_patch patch_sz (fun i j => diff i j * gradx i j),
   sum_over_patch patch_sz (fun i j => diff i j * grady i j)).
Proof.
  unfold processPatch_scalar, for_lt at 1.
  rewrite (fold_acc3 _
    (fun i => sum_list (map (fun j => diff i j * diff i j)
                            (Zrange 0 (Z.to_nat (patch_sz - 0)))))
    (fun i => sum_list (map (fun j => diff i j * gradx i j)
                            (Zrange 0 (Z.to_nat (patch_sz - 0)))))
    (fun i => sum_list (map (fun j => diff i j * grady i j)
                            (Zrange 0 (Z.to_nat (patch_sz - 0)))))).
  - f_equal; [f_equal|]; apply nested_sum.
  - intros i a b c. unfold for_lt.
    now rewrite (fold_acc3 _ (fun j => diff i j * diff i j)
                   (fun j => diff i j * gradx i j) (fun j => diff i j * grady i j)).
Qed.

Lemma acc4_zero g : v_setall_f32 Fzero = acc4 g 0.
Proof. reflexivity. Qed.

Lemma acc4_step g r :
  (0 <= r)%Z ->
  v_add (acc4 g r) (v_add (row4 g r 0) (row4 g r 4)) = acc4 g (r + 1).
Proof.
  intros Hr. unfold acc4, lane_acc, v_add, v_map2, row4. simpl.
  replace (Z.to_nat (r + 1)) with (S (Z.to_nat r)) by lia.
  rewrite Zrange_snoc, !map_app, !sum_list_app. simpl.
  rewrite Z2Nat.id by lia.
  f_equal; ring.
Qed.

Lemma acc4_reduce g : v_reduce_sum (acc4 g 8) = sum_over_patch 8 g.
Proof.
  unfold sum_over_patch, patch_cells. rewrite sum_list_prod.
  unfold v_reduce_sum, acc4, lane_acc. cbn [lane0 lane1 lane2 lane3].
  rewrite <- !sum_list_map_add.
  apply sum_list_map_ext. intros i _. simpl. ring.
Qed.

Lemma regs_at_init : regs_at I0_ptr I1_ptr I0_stride I1_stride 0 (HAL_INIT I0_ptr I1_ptr I1_stride).
Proof.
  unfold regs_at, HAL_INIT, row4, ptr_add; cbn -[Z.mul Z.add].
  repeat split; intros; idx.
Qed.

Lemma HAL_PROCESS_diff r st :
  regs_at I0_ptr I1_ptr I0_stride I1_stride r st ->
  fst (fst (HAL_PROCESS w00 w01 w10 w11 st)) = row4 diff r 0 /\
  snd (fst (HAL_PROCESS w00 w01 w10 w11 st)) = row4 diff r 4 /\
  regs_at I0_ptr I1_ptr I0_stride I1_stride (r + 1) (HAL_NEXT_ROW I0_stride I1_stride st (snd (HAL_PROCESS w00 w01 w10 w11 st))).
Proof.
  intros (Hp0 & Hp1 & Hl & Hr & Hsl & Hsr).
  unfold HAL_PROCESS, HAL_NEXT_ROW, regs_at. cbn -[Z.mul Z.add].
  rewrite Hl, Hr, Hsl, Hsr.
  unfold row4, diff, patch_diff, v_sub, v_add, v_mul, v_cvt_f32, v_map2, v_map,
    v_setall_f32, ptr_add. cbn -[Z.mul Z.add].
  rewrite !Hp0, !Hp1.
  repeat split; intros; try rewrite !Hp0; try rewrite !Hp1; idx.
Qed.

Lemma row4_mul (g k : Z -> Z -> F) r c :
  v_mul (row4 g r c) (row4 k r c) = row4 (fun i j => g i j * k i j) r c.
Proof. reflexivity. Qed.

Lemma row4_load (p : ptr Z) (q : ptr Z) r :
  (forall o, q o = p (r * I0_stride + o)%Z) ->
  fst (v_expand (v_load q)) = row4 (fun i j => p (i * I0_stride + j)%Z) r 0 /\
  snd (v_expand (v_load q)) = row4 (fun i j => p (i * I0_stride + j)%Z) r 4.
Proof.
  intros Hq. unfold v_load, v_load_expand, v_expand, row4. cbn -[Z.mul Z.add].
  rewrite !Hq. split; idx.
Qed.

Lemma computeSSD_simd_sum :
  computeSSD_simd I0_ptr I1_ptr I0_stride I1_stride w00 w01 w10 w11 =
  sum_over_patch 8 (fun i j => diff i j * diff i j).
Proof.
  unfold computeSSD_simd.
  match goal with |- context [for_lt 0 8 ?b ?s] =>
    pose proof (for_lt_ind
      (fun r t => fst t = acc4 (fun i j => diff i j * diff i j) r /\ regs_at I0_ptr I1_ptr I0_stride I1_stride r (snd t))
      0 8 b s) as Hinv
  end.
  destruct Hinv as [Hacc _].
  - lia.
  - split; [apply acc4_zero | apply regs_at_init].
  - intros r [SSD_vec st] Hr [Ha Hst]. simpl in Ha, Hst. subst SSD_vec.
    destruct (HAL_PROCESS_diff r st Hst) as (Hl & Hrt & Hnext).
    destruct (HAL_PROCESS w00 w01 w10 w11 st) as [[dl dr] next].
    simpl in Hl, Hrt, Hnext. subst dl dr. simpl. split; [|exact Hnext].
    rewrite !row4_mul. apply acc4_step. lia.
  - destruct (for_lt 0 8 _ _) as [SSD_vec st]. simpl in Hacc. subst SSD_vec.
    apply acc4_reduce.
Qed.

Lemma meanNorm_sums_simd_sum :
  meanNorm_sums_simd I0_ptr I1_ptr I0_stride I1_stride w00 w01 w10 w11 =
  (sum_over_patch 8 diff, sum_over_patch 8 (fun i j => diff i j * diff i j)).
Proof.
  unfold meanNorm_sums_simd.
  match goal with |- context [for_lt 0 8 ?b ?s] =>
    pose proof (for_lt_ind
      (fun r t => fst (fst t) = acc4 diff r /\
                  snd (fst t) = acc4 (fun i j => diff i j * diff i j) r /\
                  regs_at I0_ptr I1_ptr I0_stride I1_stride r (snd t))
      0 8 b s) as Hinv
  end.
  destruct Hinv as (Hd & Hsq & _).
  - lia.
  - split; [|split]; try apply acc4_zero. apply regs_at_init.
  - intros r [[sd sq] st] Hr (Ha & Hb & Hst). simpl in Ha, Hb, Hst. subst sd sq.
    destruct (HAL_PROCESS_diff r st Hst) as (Hl & Hrt & Hnext).
    destruct (HAL_PROCESS w00 w01 w10 w11 st) as [[dl dr] next].
    simpl in Hl, Hrt, Hnext. subst dl dr. simpl. split; [|split; [|exact Hnext]].
    + apply acc4_step. lia.
    + rewrite !row4_mul. apply acc4_step. lia.
  - destruct (for_lt 0 8 _ _) as [[sd sq] st]. simpl in Hd, Hsq. subst sd sq.
    f_equal; apply acc4_reduce.
Qed.

Lemma processPatch_simd_sum :
  processPatch_simd I0_ptr I1_ptr I0x_ptr I0y_ptr I0_stride I1_stride w00 w01 w10 w11 =
  (sum_over_patch 8 (fun i j => diff i j * diff i j),
   sum_over_patch 8 (fun i j => diff i j * gradx i j),
   sum_over_patch 8 (fun i j => diff i j * grady i j)).
Proof.
  unfold processPatch_simd.
  match goal with |- context [for_lt 0 8 ?b ?s] =>
    pose proof (for_lt_ind
      (fun r t =>
         let '(Ux_vec, Uy_vec, SSD_vec, px, py, st) := t in
         Ux_vec = acc4 (fun i j => diff i j * gradx i j) r /\
         Uy_vec = acc4 (fun i j => diff i j * grady i j) r /\
         SSD_vec = acc4 (fun i j => diff i j * diff i j) r /\
         (forall o, px o = I0x_ptr (r * I0_stride + o)%Z) /\
         (forall o, py o = I0y_ptr (r * I0_stride + o)%Z) /\
         regs_at I0_ptr I1_ptr I0_stride I1_stride r st)
      0 8 b s) as Hinv
  end.
  cbv beta in Hinv.
  destruct (for_lt 0 8 _ _) as [[[[[Ux_vec Uy_vec] SSD_vec] px] py] st].
  destruct Hinv as (Hx & Hy & Hs & _).
  - lia.
  - split; [|split; [|split; [|split; [|split]]]];
      try apply acc4_zero; try apply regs_at_init; intros; idx.
  - intros r [[[[[Ux' Uy'] SSD'] px'] py'] st'] Hr (Ha & Hb & Hc & Hpx & Hpy & Hst).
    subst Ux' Uy' SSD'.
    destruct (HAL_PROCESS_diff r st' Hst) as (Hl & Hrt & Hnext).
    destruct (HAL_PROCESS w00 w01 w10 w11 st') as [[dl dr] next].
    simpl in Hl, Hrt, Hnext. subst dl dr.
    destruct (row4_load I0x_ptr px' r Hpx) as [Hxl Hxr].
    destruct (row4_load I0y_ptr py' r Hpy) as [Hyl Hyr].
    destruct (v_expand (v_load px')) as [xl xr]. destruct (v_expand (v_load py')) as [yl yr].
    simpl in Hxl, Hxr, Hyl, Hyr. subst xl xr yl yr.
    split; [|split; [|split; [|split; [|split; [|exact Hnext]]]]].
    + apply (acc4_step (fun i j => diff i j * gradx i j)). lia.
    + apply (acc4_step (fun i j => diff i j * grady i j)). lia.
    + rewrite !row4_mul. apply acc4_step. lia.
    + intros o. unfold ptr_add. rewrite Hpx. idx.
    + intros o. unfold ptr_add. rewrite Hpy. idx.
  - subst Ux_vec Uy_vec SSD_vec. f_equal; [f_equal|]; apply acc4_reduce.
Qed.

End PatchProofs.

(** ** The patch functions in any arithmetic *)

Lemma fold_left_map_acc {A B St : Type} (g : St -> B -> St) (h : A -> B) (l : list A) (a : St) :
  fold_left g (map h l) a = fold_left (fun s x => g s (h x)) l a.
Proof. revert a; induction l as [|x l IH]; intros a; simpl; [reflexivity|apply IH]. Qed.

Lemma fold_left_list_prod {A B St : Type} (g : St -> A * B -> St) (l : list A) (l' : list B)
    (a : St) :
  fold_left g (list_prod l l') a =
  fold_left (fun s x => fold_left (fun s y => g s (x, y)) l' s) l a.
Proof.
  revert a; induction l as [|x l IH]; intros a; simpl; [reflexivity|].
  rewrite fold_left_app, fold_left_map_acc. apply IH.
Qed.

Lemma fold_left_ext_acc {A St : Type} (g k : St -> A -> St) (l : list A) (a : St) :
  (forall s x, g s x = k s x) -> fold_left g l a = fold_left k l a.
Proof.
  intros E. revert a; induction l as [|x l IH]; intros a; simpl; [reflexivity|].
  rewrite E. apply IH.
Qed.

(** A loop on three accumulators that do not look at each other. *)
Lemma fold_left_triple {A X Y Z' : Type} (body : A -> X * Y * Z' -> X * Y * Z')
    (f : X -> A -> X) (g : Y -> A -> Y) (k : Z' -> A -> Z') :
  (forall j a b c, body j (a, b, c) = (f a j, g b j, k c j)) ->
  forall l a b c, fold_left (fun s j => body j s) l (a, b, c) =
                  (fold_left f l a, fold_left g l b, fold_left k l c).
Proof.
  intros Hb. induction l as [|x l IH]; intros a b c; simpl; [reflexivity|].
  rewrite Hb. apply IH.
Qed.

Lemma fold_left_pair {A X Y : Type} (body : A -> X * Y -> X * Y)
    (f : X -> A -> X) (g : Y -> A -> Y) :
  (forall j a b, body j (a, b) = (f a j, g b j)) ->
  forall l a b, fold_left (fun s j => body j s) l (a, b) =
                (fold_left f l a, fold_left g l b).
Proof.
  intros Hb. induction l as [|x l IH]; intros a b; simpl; [reflexivity|].
  rewrite Hb. apply IH.
Qed.

Section AccumulationProofs.
Context {F : Type} `{Arith F}.
Local Open Scope arith_scope.

Variables (I0_ptr I1_ptr I0x_ptr I0y_ptr : ptr Z) (I0_stride I1_stride : Z).
Variables (w00 w01 w10 w11 : F).

Let diff := patch_diff I0_ptr I1_ptr I0_stride I1_stride w00 w01 w10 w11.
Let gradx (i j : Z) : F := of_int (I0x_ptr (i * I0_stride + j)%Z).
Let grady (i j : Z) : F := of_int (I0y_ptr (i * I0_stride + j)%Z).

(** Two nested loops that add [f i j] are the running sum over the cells. *)
Lemma nested_running_sum (f : Z -> Z -> F) (patch_sz : Z) (a : F) :
  fold_left (fun s i => fold_left (fun s j => s + f i j) (Zrange 0 (Z.to_nat (patch_sz - 0))) s)
            (Zrange 0 (Z.to_nat (patch_sz - 0))) a =
  fold_left Fadd (map (fun c => f (fst c) (snd c)) (patch_cells patch_sz)) a.
Proof.
  unfold patch_cells. rewrite Z.sub_0_r, fold_left_map_acc, fold_left_list_prod. reflexivity.
Qed.

Lemma computeSSD_scalar_running patch_sz :
  computeSSD_scalar I0_ptr I1_ptr I0_stride I1_stride w00 w01 w10 w11 patch_sz =
  running_sum_over_patch patch_sz (fun i j => diff i j * diff i j).
Proof.
  exact (nested_running_sum (fun i j => diff i j * diff i j) patch_sz Fzero).
Qed.

Lemma meanNorm_sums_scalar_running patch_sz :
  meanNorm_sums_scalar I0_ptr I1_ptr I0_stride I1_stride w00 w01 w10 w11 patch_sz =
  (running_sum_over_patch patch_sz diff,
   running_sum_over_patch patch_sz (fun i j => diff i j * diff i j)).
Proof.
  unfold meanNorm_sums_scalar, running_sum_over_patch, running_sum, for_lt at 1.
  rewrite (fold_left_pair _
    (fun s i => fold_left (fun s j => s + diff i j) (Zrange 0 (Z.to_nat (patch_sz - 0))) s)
    (fun s i => fold_left (fun s j => s + diff i j * diff i j)
                  (Zrange 0 (Z.to_nat (patch_sz - 0))) s)).
  - f_equal.
    + exact (nested_running_sum diff patch_sz Fzero).
    + exact (nested_running_sum (fun i j => diff i j * diff i j) patch_sz Fzero).
  - intros i a b. unfold for_lt.
    now rewrite (fold_left_pair _ (fun s j => s + diff i j) (fun s j => s + diff i j * diff i j)).
Qed.

Lemma processPatch_scalar_running patch_sz :
  processPatch_scalar I0_ptr I1_ptr I0x_ptr I0y_ptr I0_stride I1_stride
    w00 w01 w10 w11 patch_sz =
  (running_sum_over_patch patch_sz (fun i j => diff i j * diff i j),
   running_sum_over_patch patch_sz (fun i j => diff i j * gradx i j),
   running_sum_over_patch patch_sz (fun i j => diff i j * grady i j)).
Proof.
  unfold processPatch_scalar, running_sum_over_patch, running_sum, for_lt at 1.
  rewrite (fold_left_triple _
    (fun s i => fold_left (fun s j => s + diff i j * diff i j)
                  (Zrange 0 (Z.to_nat (patch_sz - 0))) s)
    (fun s i => fold_left (fun s j => s + diff i j * gradx i j)
                  (Zrange 0 (Z.to_nat (patch_sz - 0))) s)
    (fun s i => fold_left (fun s j => s + diff i j * grady i j)
                  (Zrange 0 (Z.to_nat (patch_sz - 0))) s)).
  - f_equal; [f_equal|].
    + exact (nested_running_sum (fun i j => diff i j * diff i j) patch_sz Fzero).
    + exact (nested_running_sum (fun i j => diff i j * gradx i j) patch_sz Fzero).
    + exact (nested_running_sum (fun i j => diff i j * grady i j) patch_sz Fzero).
  - intros i a b c. unfold for_lt.
    now rewrite (fold_left_triple _ (fun s j => s + diff i j * diff i j)
                   (fun s j => s + diff i j * gradx i j) (fun s j => s + diff i j * grady i j)).
Qed.

Lemma lanes_at_zero f : v_setall_f32 Fzero = lanes_at f 0.
Proof. reflexivity. Qed.

Lemma lanes_at_step f r :
  (0 <= r)%Z ->
  v_add (lanes_at f r) (v_add (row4 f r 0) (row4 f r 4)) = lanes_at f (r + 1).
Proof.
  intros Hr. unfold lanes_at, running_sum, v_add, v_map2, row4. cbn [lane0 lane1 lane2 lane3].
  replace (Z.to_nat (r + 1)) with (S (Z.to_nat r)) by lia.
  rewrite Zrange_snoc, !map_app, !fold_left_app. simpl.
  rewrite Z2Nat.id by lia. reflexivity.
Qed.

Lemma lanes_at_end f : lanes_at f 8 = lane_sums f.
Proof. reflexivity. Qed.

Lemma computeSSD_simd_running :
  computeSSD_simd I0_ptr I1_ptr I0_stride I1_stride w00 w01 w10 w11 =
  v_reduce_sum (lane_sums (fun i j => diff i j * diff i j)).
Proof.
  unfold computeSSD_simd.
  match goal with |- context [for_lt 0 8 ?b ?s] =>
    pose proof (for_lt_ind
      (fun r t => fst t = lanes_at (fun i j => diff i j * diff i j) r /\
                  regs_at I0_ptr I1_ptr I0_stride I1_stride r (snd t))
      0 8 b s) as Hinv
  end.
  destruct Hinv as [Hacc _].
  - lia.
  - split; [apply lanes_at_zero | apply regs_at_init].
  - intros r [SSD_vec st] Hr [Ha Hst]. simpl in Ha, Hst. subst SSD_vec.
    destruct (HAL_PROCESS_diff I0_ptr I1_ptr I0_stride I1_stride w00 w01 w10 w11 r st Hst)
      as (Hl & Hrt & Hnext).
    destruct (HAL_PROCESS w00 w01 w10 w11 st) as [[dl dr] next].
    simpl in Hl, Hrt, Hnext. subst dl dr. simpl. split; [|exact Hnext].
    rewrite !row4_mul. apply lanes_at_step. lia.
  - destruct (for_lt 0 8 _ _) as [SSD_vec st]. simpl in Hacc. subst SSD_vec.
    now rewrite lanes_at_end.
Qed.


Lemma meanNorm_sums_simd_running :
  meanNorm_sums_simd I0_ptr I1_ptr I0_stride I1_stride w00 w01 w10 w11 =
  (v_reduce_sum (lane_sums diff), v_reduce_sum (lane_sums (fun i j => diff i j * diff i j))).
Proof.
  unfold meanNorm_sums_simd.
  match goal with |- context [for_lt 0 8 ?b ?s] =>
    pose proof (for_lt_ind
      (fun r t => fst (fst t) = lanes_at diff r /\
                  snd (fst t) = lanes_at (fun i j => diff i j * diff i j) r /\
                  regs_at I0_ptr I1_ptr I0_stride I1_stride r (snd t))
      0 8 b s) as Hinv
  end.
  destruct Hinv as (Hd & Hsq & _).
  - lia.
  - split; [|split]; try apply lanes_at_zero. apply regs_at_init.
  - intros r [[sd sq] st] Hr (Ha & Hb & Hst). simpl in Ha, Hb, Hst. subst sd sq.
    destruct (HAL_PROCESS_diff I0_ptr I1_ptr I0_stride I1_stride w00 w01 w10 w11 r st Hst)
      as (Hl & Hrt & Hnext).
    destruct (HAL_PROCESS w00 w01 w10 w11 st) as [[dl dr] next].
    simpl in Hl, Hrt, Hnext. subst dl dr. simpl. split; [|split; [|exact Hnext]].
    + apply lanes_at_step. lia.
    + rewrite !row4_mul. apply lanes_at_step. lia.
  - destruct (for_lt 0 8 _ _) as [[sd sq] st]. simpl in Hd, Hsq. subst sd sq.
    now rewrite !lanes_at_end.
Qed.

Lemma processPatch_simd_running :
  processPatch_simd I0_ptr I1_ptr I0x_ptr I0y_ptr I0_stride I1_stride w00 w01 w10 w11 =
  (v_reduce_sum (lane_sums (fun i j => diff i j * diff i j)),
   v_reduce_sum (lane_sums (fun i j => diff i j * gradx i j)),
   v_reduce_sum (lane_sums (fun i j => diff i j * grady i j))).
Proof.
  unfold processPatch_simd.
  match goal with |- context [for_lt 0 8 ?b ?s] =>
    pose proof (for_lt_ind
      (fun r t =>
         let '(Ux_vec, Uy_vec, SSD_vec, px, py, st) := t in
         Ux_vec = lanes_at (fun i j => diff i j * gradx i j) r /\
         Uy_vec = lanes_at (fun i j => diff i j * grady i j) r /\
         SSD_vec = lanes_at (fun i j => diff i j * diff i j) r /\
         (forall o, px o = I0x_ptr (r * I0_stride + o)%Z) /\
         (forall o, py o = I0y_ptr (r * I0_stride + o)%Z) /\
         regs_at I0_ptr I1_ptr I0_stride I1_stride r st)
      0 8 b s) as Hinv
  end.
  cbv beta in Hinv.
  destruct (for_lt 0 8 _ _) as [[[[[Ux_vec Uy_vec] SSD_vec] px] py] st].
  destruct Hinv as (Hx & Hy & Hs & _).
  - lia.
  - split; [|split; [|split; [|split; [|split]]]];
      try apply lanes_at_zero; try apply regs_at_init; intros; idx.
  - intros r [[[[[Ux' Uy'] SSD'] px'] py'] st'] Hr (Ha & Hb & Hc & Hpx & Hpy & Hst).
    subst Ux' Uy' SSD'.
    destruct (HAL_PROCESS_diff I0_ptr I1_ptr I0_stride I1_stride w00 w01 w10 w11 r st' Hst)
      as (Hl & Hrt & Hnext).
    destruct (HAL_PROCESS w00 w01 w10 w11 st') as [[dl dr] next].
    simpl in Hl, Hrt, Hnext. subst dl dr.
    destruct (row4_load I0_stride I0x_ptr px' r Hpx) as [Hxl Hxr].
    destruct (row4_load I0_stride I0y_ptr py' r Hpy) as [Hyl Hyr].
    destruct (v_expand (v_load px')) as [xl xr]. destruct (v_expand (v_load py')) as [yl yr].
    simpl in Hxl, Hxr, Hyl, Hyr. subst xl xr yl yr.
    split; [|split; [|split; [|split; [|split; [|exact Hnext]]]]].
    + apply (lanes_at_step (fun i j => diff i j * gradx i j)). lia.
    + apply (lanes_at_step (fun i j => diff i j * grady i j)). lia.
    + rewrite !row4_mul. apply lanes_at_step. lia.
    + intros o. unfold ptr_add. rewrite Hpx. idx.
    + intros o. unfold ptr_add. rewrite Hpy. idx.
  - subst Ux_vec Uy_vec SSD_vec. now rewrite !lanes_at_end.
Qed.

End AccumulationProofs.


(** ** The exact rationals are an exact arithmetic *)

Lemma Qc_ltb_lt (a b : Qc) : Qc_ltb a b = true <-> (a < b)%Qc.
Proof.
  unfold Qc_ltb. rewrite Qclt_alt. destruct (a ?= b)%Qc; split; congruence.
Qed.

#[export] Instance exact_laws : ExactArith Qc.
Proof.
  constructor.
  - constructor.
    + constructor; intros; simpl; ring.
    + exact Q_apart_0_1.
    + intros p q. simpl. unfold Qcdiv. ring.
    + intros p Hp. simpl. unfold Qcdiv. rewrite Qcmult_1_l. now apply Qcmult_inv_l.
  - intros a. simpl. unfold Qc_ltb.
    replace (a ?= a)%Qc with Eq; [reflexivity|]. symmetry. now apply Qceq_alt.
  - intros a b c. simpl. rewrite !Qc_ltb_lt. apply Qclt_trans.
  - intros a b. simpl. rewrite !Qc_ltb_lt. destruct (Qc_dec a b) as [[Hlt|Hgt]|Heq]; auto.
  - intros a b c. simpl. rewrite !Qc_ltb_lt. intros Hab.
    apply Qclt_minus_iff. apply Qclt_minus_iff in Hab.
    replace (b + c + - (a + c))%Qc with (b + - a)%Qc by ring. exact Hab.
  - intros a b. simpl. rewrite !Qc_ltb_lt. intros Ha Hb.
    rewrite <- (Qcmult_0_l b). now apply Qcmult_lt_compat_r.
  - intros a. reflexivity.
  - reflexivity.
  - intros m n. apply Q2Qc_eq_iff.
    change (inject_Z (m + n) == Qred (inject_Z m) + Qred (inject_Z n))%Q.
    rewrite !Qred_correct, inject_Z_plus. reflexivity.
Qed.

(** ** Patch matching: the results *)

Section PatchResultsAnyArithmetic.
Context {F : Type} `{Arith F}.
Local Open Scope arith_scope.

(** C3, as amended. For every patch size, patch, window and weights,
    [computeSSD] returns the sum over the patch of the squared differences
    as [float] accumulates it: on the scalar branch the terms are added
    one after the other in row-major order, starting from 0; on the vector
    branch (patch size 8 with [CV_SIMD128]) each of four lanes adds, row
    after row, the terms of columns [c] and [c + 4], and [v_reduce_sum]
    adds the lanes.  The difference is
    [w00 * I1[i][j] + w01 * I1[i][j+1] + w10 * I1[i+1][j] +
     w11 * I1[i+1][j+1] - I0[i][j]], evaluated from the left.
    [computeSSDMeanNorm] returns the sum of the squares accumulated in
    that way minus the square of the accumulated sum of the differences
    divided by [N = (float)patch_sz * patch_sz].  In exact arithmetic
    these are the sums of the claim. *)
Theorem computeSSD_returns_sum (simd128 : bool) (I0_ptr I1_ptr : ptr Z)
    (I0_stride I1_stride : Z) (w00 w01 w10 w11 : F) (patch_sz : Z) :
  let diff := patch_diff I0_ptr I1_ptr I0_stride I1_stride w00 w01 w10 w11 in
  let sq := fun i j => diff i j * diff i j in
  let N := of_int patch_sz * of_int patch_sz in
  (computeSSD simd128 I0_ptr I1_ptr I0_stride I1_stride w00 w01 w10 w11 patch_sz =
     accumulated simd128 patch_sz sq /\
   computeSSDMeanNorm simd128 I0_ptr I1_ptr I0_stride I1_stride w00 w01 w10 w11 patch_sz =
     accumulated simd128 patch_sz sq -
     accumulated simd128 patch_sz diff * accumulated simd128 patch_sz diff / N) /\
  (ExactArith F ->
   computeSSD simd128 I0_ptr I1_ptr I0_stride I1_stride w00 w01 w10 w11 patch_sz =
     sum_over_patch patch_sz sq /\
   computeSSDMeanNorm simd128 I0_ptr I1_ptr I0_stride I1_stride w00 w01 w10 w11 patch_sz =
     sum_over_patch patch_sz sq -
     sum_over_patch patch_sz diff * sum_over_patch patch_sz diff / N).
Proof.
  intros diff sq N. unfold computeSSD, computeSSDMeanNorm, accumulated. split.
  - destruct (simd128 && (patch_sz =? 8)%Z) eqn:E.
    + rewrite computeSSD_simd_running, meanNorm_sums_simd_running. split; reflexivity.
    + rewrite computeSSD_scalar_running, meanNorm_sums_scalar_running. split; reflexivity.
  - intros HE. destruct (simd128 && (patch_sz =? 8)%Z) eqn:E.
    + apply andb_true_iff in E. destruct E as [_ E]. apply Z.eqb_eq in E. subst patch_sz.
      rewrite computeSSD_simd_sum, meanNorm_sums_simd_sum. split; reflexivity.
    + rewrite computeSSD_scalar_sum, meanNorm_sums_scalar_sum. split; reflexivity.
Qed.

(** C4, as amended. For every patch size, patches, weights and gradient
    patches, [processPatch] returns the sum of the squared differences and
    leaves in [dst_dUx] and [dst_dUy] the sums over the patch of the
    difference times the x gradient and times the y gradient, each sum
    accumulated in [float] in the order of the branch taken (as for
    [computeSSD]).  In exact arithmetic these are the sums of the
    claim. *)
Theorem processPatch_returns_sums (simd128 : bool) (I0_ptr I1_ptr I0x_ptr I0y_ptr : ptr Z)
    (I0_stride I1_stride : Z) (w00 w01 w10 w11 : F) (patch_sz : Z) :
  let diff := patch_diff I0_ptr I1_ptr I0_stride I1_stride w00 w01 w10 w11 in
  let sq := fun i j => diff i j * diff i j in
  let dx := fun i j => diff i j * of_int (I0x_ptr (i * I0_stride + j)%Z) in
  let dy := fun i j => diff i j * of_int (I0y_ptr (i * I0_stride + j)%Z) in
  processPatch simd128 I0_ptr I1_ptr I0x_ptr I0y_ptr I0_stride I1_stride
    w00 w01 w10 w11 patch_sz =
  (accumulated simd128 patch_sz sq, accumulated simd128 patch_sz dx,
   accumulated simd128 patch_sz dy) /\
  (ExactArith F ->
   processPatch simd128 I0_ptr I1_ptr I0x_ptr I0y_ptr I0_stride I1_stride
     w00 w01 w10 w11 patch_sz =
   (sum_over_patch patch_sz sq, sum_over_patch patch_sz dx, sum_over_patch patch_sz dy)).
Proof.
  intros diff sq dx dy. unfold processPatch, accumulated. split.
  - destruct (simd128 && (patch_sz =? 8)%Z) eqn:E.
    + apply processPatch_simd_running.
    + apply processPatch_scalar_running.
  - intros HE. destruct (simd128 && (patch_sz =? 8)%Z) eqn:E.
    + apply andb_true_iff in E. destruct E as [_ E]. apply Z.eqb_eq in E. subst patch_sz.
      apply processPatch_simd_sum.
    + apply processPatch_scalar_sum.
Qed.

End PatchResultsAnyArithmetic.

Section PatchResults.
Context {F : Type} `{ExactArith F}.
Local Open Scope arith_scope.

(** C5, as amended. In exact arithmetic the vector branch taken for patch
    size 8 and the scalar branch of [processPatch], [computeSSD] and
    [computeSSDMeanNorm] give the same values. *)
Theorem simd_agrees_in_exact_arithmetic (I0_ptr I1_ptr I0x_ptr I0y_ptr : ptr Z)
    (I0_stride I1_stride : Z) (w00 w01 w10 w11 : F) :
  processPatch true I0_ptr I1_ptr I0x_ptr I0y_ptr I0_stride I1_stride w00 w01 w10 w11 8 =
  processPatch false I0_ptr I1_ptr I0x_ptr I0y_ptr I0_stride I1_stride w00 w01 w10 w11 8 /\
  computeSSD true I0_ptr I1_ptr I0_stride I1_stride w00 w01 w10 w11 8 =
  computeSSD false I0_ptr I1_ptr I0_stride I1_stride w00 w01 w10 w11 8 /\
  computeSSDMeanNorm true I0_ptr I1_ptr I0_stride I1_stride w00 w01 w10 w11 8 =
  computeSSDMeanNorm false I0_ptr I1_ptr I0_stride I1_stride w00 w01 w10 w11 8.
Proof.
  unfold processPatch, computeSSD, computeSSDMeanNorm. simpl andb. cbv iota.
  rewrite processPatch_simd_sum, processPatch_scalar_sum.
  rewrite computeSSD_simd_sum, computeSSD_scalar_sum.
  rewrite meanNorm_sums_simd_sum, meanNorm_sums_scalar_sum.
  repeat split.
Qed.

End PatchResults.

(** ** Densification: what the loops store *)

Section DensificationLoops.
Context {F : Type} `{Arith F}.

Lemma ptr_store_eq {A : Type} (p : ptr A) k v : ptr_store p k v k = v.
Proof. unfold ptr_store. now rewrite Z.eqb_refl. Qed.

Lemma ptr_store_neq {A : Type} (p : ptr A) k v o : o <> k -> ptr_store p k v o = p o.
Proof. intros Hne. unfold ptr_store. apply Z.eqb_neq in Hne. now rewrite Hne. Qed.

Lemma sparse_window_step extent psz pstr i :
  0 <= i ->
  UPDATE_SPARSE_COORDINATES extent psz pstr i
    (for_lt 0 i (UPDATE_SPARSE_COORDINATES extent psz pstr) (0, -1)) =
  sparse_window extent psz pstr i.
Proof.
  intros Hi. unfold sparse_window, for_le. now rewrite for_lt_snoc.
Qed.

(** Two pixels of one image have different offsets. *)
Lemma pixel_offset_inj (ww i j i' j' : Z) :
  0 <= j < ww -> 0 <= j' < ww -> i * ww + j = i' * ww + j' -> i = i' /\ j = j'.
Proof.
  intros Hj Hj' E.
  assert (Hi : i = i').
  { destruct (Z.lt_trichotomy i i') as [Hlt|[Heq|Hgt]]; [|exact Heq|]; exfalso; nia. }
  subst i'. split; [reflexivity|lia].
Qed.

Variable body : Densification_ParBody (F := F).
Let flow_at (i j : Z) : F * F :=
  pixel_flow (pb_dis body) (pb_h body) (pb_Sx body) (pb_Sy body) (pb_I0 body) (pb_I1 body) i j.

Lemma densify_row_stores lo i s e Ux_ptr Uy_ptr :
  0 <= i ->
  (s, e) = for_lt 0 i (UPDATE_SPARSE_COORDINATES (pb_h body) (patch_size (pb_dis body))
                         (patch_stride (pb_dis body))) (0, -1) ->
  rows_stored body lo i Ux_ptr Uy_ptr ->
  let '(s', e', Ux', Uy') := densify_row body i (s, e, Ux_ptr, Uy_ptr) in
  (s', e') = for_lt 0 (i + 1) (UPDATE_SPARSE_COORDINATES (pb_h body) (patch_size (pb_dis body))
                                 (patch_stride (pb_dis body))) (0, -1) /\
  rows_stored body lo (i + 1) Ux' Uy'.
Proof.
  intros Hi Hwin Hrows. unfold densify_row. 
  rewrite Hwin, sparse_window_step by exact Hi.
  set (wi := sparse_window (pb_h body) (patch_size (pb_dis body)) (patch_stride (pb_dis body)) i).
  destruct (Z_le_gt_dec (w (pb_dis body)) 0) as [Hw|Hw].
  { rewrite for_lt_nil by lia. split.
    - rewrite for_lt_snoc by lia. rewrite <- surjective_pairing.
      symmetry. apply sparse_window_step. exact Hi.
    - intros i' j' _ Hj'. lia. }
  match goal with |- context [for_lt 0 (w (pb_dis body)) ?b ?st] =>
    pose proof (for_lt_ind
      (fun j t =>
         let '(sj, ej, Ux', Uy') := t in
         (sj, ej) = for_lt 0 j (UPDATE_SPARSE_COORDINATES (w (pb_dis body)) (patch_size (pb_dis body))
                                  (patch_stride (pb_dis body))) (0, -1) /\
         rows_stored body lo i Ux' Uy' /\
         (forall j', 0 <= j' < j ->
            Ux' (i * w (pb_dis body) + j') = fst (flow_at i j') /\
            Uy' (i * w (pb_dis body) + j') = snd (flow_at i j')))
      0 (w (pb_dis body)) b st) as Hinv
  end.
  cbv beta in Hinv.
  destruct (for_lt 0 (w (pb_dis body)) _ _) as [[[sj ej] Ux'] Uy'].
  destruct Hinv as (_ & Hrows' & Hrow).
  - lia.
  - split; [reflexivity|]. split; [exact Hrows|]. intros j' Hj'. lia.
  - intros j [[[sj0 ej0] Ux0] Uy0] Hj (Hwj & Hr0 & Hc0).
    unfold densify_pixel. rewrite Hwj, sparse_window_step by lia.
    pose proof (eq_refl (flow_at i j)) as Hflow. unfold flow_at at 1, pixel_flow in Hflow.
    fold wi in Hflow.
    destruct (pixel_sums (pb_dis body) (pb_Sx body) (pb_Sy body) (pb_I0 body) (pb_I1 body) i j wi
                (sparse_window (w (pb_dis body)) (patch_size (pb_dis body)) (patch_stride (pb_dis body)) j))
      as [[sum_coef sum_Ux] sum_Uy].
    split; [|split].
    + rewrite <- surjective_pairing. reflexivity.
    + intros i' j' Hi' Hj'.
      rewrite !ptr_store_neq; [now apply Hr0| |];
        intros E; apply pixel_offset_inj in E; lia.
    + intros j' Hj'. destruct (Z.eq_dec j' j) as [->|Hne].
      * rewrite !ptr_store_eq, <- Hflow. split; reflexivity.
      * rewrite !ptr_store_neq; [apply Hc0; lia| |];
          intros E; apply pixel_offset_inj in E; lia.
  - split.
    + rewrite for_lt_snoc by lia. rewrite <- surjective_pairing.
      symmetry. apply sparse_window_step. exact Hi.
    + intros i' j' Hi' Hj'. destruct (Z.eq_dec i' i) as [->|Hne].
      * now apply Hrow.
      * apply Hrows'; lia.
Qed.

(** What [operator()] leaves at pixel [(i, j)] of its stripe. *)
Lemma Densification_operator_stores (range : Z * Z) (i j : Z) :
  let start_i := Z.min (fst range * pb_stripe_sz body) (pb_h body) in
  let end_i := Z.min (snd range * pb_stripe_sz body) (pb_h body) in
  0 <= start_i -> start_i <= i < end_i -> 0 <= j < w (pb_dis body) ->
  fst (Densification_operator body range) (i * w (pb_dis body) + j) = fst (flow_at i j) /\
  snd (Densification_operator body range) (i * w (pb_dis body) + j) = snd (flow_at i j).
Proof.
  intros start_i end_i H0 Hi Hj. unfold Densification_operator. fold start_i end_i.
  match goal with |- context [for_lt start_i end_i ?b ?st] =>
    pose proof (for_lt_ind
      (fun r t =>
         let '(s, e, Ux', Uy') := t in
         (s, e) = for_lt 0 r (UPDATE_SPARSE_COORDINATES (pb_h body) (patch_size (pb_dis body))
                                (patch_stride (pb_dis body))) (0, -1) /\
         rows_stored body start_i r Ux' Uy')
      start_i end_i b st) as Hinv
  end.
  cbv beta in Hinv.
  destruct (for_lt start_i end_i _ _) as [[[s e] Ux'] Uy'].
  destruct Hinv as [_ Hrows].
  - lia.
  - split; [now rewrite <- surjective_pairing|]. intros i' j' Hi'. lia.
  - intros r [[[s0 e0] Ux0] Uy0] Hr [Hw0 Hr0].
    apply (densify_row_stores start_i r s0 e0 Ux0 Uy0); [lia|exact Hw0|exact Hr0].
  - simpl. now apply Hrows.
Qed.

End DensificationLoops.

(** ** The sliding window *)

Lemma rem_zero_multiple pstr (Hpstr : 0 < pstr) i :
  0 <= i -> (Z.rem i pstr =? 0) = true -> exists q, 0 <= q /\ i = q * pstr.
Proof.
  intros Hi E. apply Z.eqb_eq in E. rewrite Z.rem_mod_nonneg in E by lia.
  exists (i / pstr). split; [apply Z.div_pos; lia|].
  pose proof (Z.div_mod i pstr ltac:(lia)). lia.
Qed.

Lemma rem_nonzero_not_multiple pstr (Hpstr : 0 < pstr) i q :
  0 <= i -> (Z.rem i pstr =? 0) = false -> i <> q * pstr.
Proof.
  intros Hi E Heq. apply Z.eqb_neq in E. apply E.
  rewrite Z.rem_mod_nonneg by lia. subst i. apply Z.mod_mul. lia.
Qed.

Lemma mul_lt_cancel pstr (Hpstr : 0 < pstr) a b : a * pstr < b * pstr -> a < b.
Proof. intros Hlt. apply (Z.mul_lt_mono_pos_r pstr); [exact Hpstr|exact Hlt]. Qed.

Lemma mul_le_mono pstr (Hpstr : 0 < pstr) a b : a <= b -> a * pstr <= b * pstr.
Proof. intros Hab. apply Z.mul_le_mono_nonneg_r; lia. Qed.

Section Window.
Variables extent psz pstr : Z.

Let K := (extent - psz) / pstr.
Let step := UPDATE_SPARSE_COORDINATES extent psz pstr.

(** The window never becomes empty once coordinate 0 has been visited. *)
Lemma sparse_window_nonempty n :
  psz <= extent -> 0 <= n ->
  fst (sparse_window extent psz pstr n) <= snd (sparse_window extent psz pstr n).
Proof.
  intros Hpsz Hn. unfold sparse_window, for_le.
  destruct (for_lt_ind
    (fun r se => (r = 0 /\ se = (0, -1)) \/ (0 < r /\ fst se <= snd se))
    0 (n + 1) step (0, -1)) as [[Hr _]|[_ Hle]]; [lia| | |lia|exact Hle].
  - left. split; reflexivity.
  - intros i [s e] Hi [[-> E]|[Hpos Hle]]; right; (split; [lia|]).
    + injection E as -> ->. unfold step, UPDATE_SPARSE_COORDINATES.
      change (Z.rem 0 pstr) with 0. change (0 =? 0) with true.
      replace (0 + psz <=? extent) with true by (symmetry; apply Z.leb_le; lia).
      simpl andb.
      change (0 <? -1 + 1) with false. rewrite andb_false_r. simpl. lia.
    + simpl in Hle. unfold step, UPDATE_SPARSE_COORDINATES.
      destruct ((Z.rem i pstr =? 0) && (i + psz <=? extent)).
      * destruct ((0 <=? i - psz) && (Z.rem (i - psz) pstr =? 0)); simpl.
        -- destruct (s <? e + 1) eqn:E; simpl; lia.
        -- lia.
      * destruct ((0 <=? i - psz) && (Z.rem (i - psz) pstr =? 0)); simpl.
        -- destruct (s <? e) eqn:E; simpl; [apply Z.ltb_lt in E|]; lia.
        -- lia.
Qed.

Hypothesis Hpstr : 0 < pstr.
Hypothesis Hle : pstr <= psz.
Hypothesis Hext : psz <= extent.

Lemma K_bounds : 0 <= K /\ K * pstr <= extent - psz < (K + 1) * pstr.
Proof.
  unfold K. pose proof (Z.div_mod (extent - psz) pstr ltac:(lia)) as E.
  pose proof (Z.mod_pos_bound (extent - psz) pstr Hpstr) as B.
  split; [apply Z.div_pos; lia|]. lia.
Qed.

Lemma window_inv_first : window_inv K psz pstr 0 (step 0 (0, -1)).
Proof.
  pose proof K_bounds as [HK _].
  unfold step, UPDATE_SPARSE_COORDINATES.
  change (Z.rem 0 pstr) with 0. change (0 =? 0) with true.
  replace (0 + psz <=? extent) with true by (symmetry; apply Z.leb_le; lia).
  replace (0 <=? 0 - psz) with false by (symmetry; apply Z.leb_gt; lia).
  cbn [andb]. unfold window_inv. cbn [fst snd].
  rewrite !Z.add_0_l, Z.mul_0_l, Z.mul_1_l. lia.
Qed.

Lemma window_inv_step n se :
  0 <= n -> window_inv K psz pstr n se -> window_inv K psz pstr (n + 1) (step (n + 1) se).
Proof.
  intros Hn. destruct se as [s e]. unfold window_inv. cbn [fst snd].
  intros (Hs & He & Hen & HeK & Hs0 & HsK).
  pose proof K_bounds as [HK HKb].
  unfold step, UPDATE_SPARSE_COORDINATES. cbn [fst snd].
  (* the end of the window *)
  assert (He' : exists e', 
            (if (Z.rem (n + 1) pstr =? 0) && (n + 1 + psz <=? extent) then e + 1 else e) = e' /\
            e <= e' <= K /\ e' * pstr <= n + 1 /\ (e' < K -> n + 1 < (e' + 1) * pstr)).
  { destruct (Z.rem (n + 1) pstr =? 0) eqn:Erem.
    - apply (rem_zero_multiple pstr Hpstr) in Erem as (q & Hq & Eq); [|lia].
      destruct (n + 1 + psz <=? extent) eqn:Efit; simpl.
      + apply Z.leb_le in Efit. exists (e + 1). split; [reflexivity|].
        assert (e < q) by (apply (mul_lt_cancel pstr Hpstr); lia).
        assert (q <= K) by (apply Z.lt_succ_r, (mul_lt_cancel pstr Hpstr); lia).
        assert (q = e + 1).
        { destruct (Z_lt_le_dec e K) as [HlK|HgK]; [|lia].
          specialize (HeK HlK). assert (q < e + 2) by (apply (mul_lt_cancel pstr Hpstr); lia). lia. }
        subst q. repeat split; try lia.
      + apply Z.leb_gt in Efit. exists e. split; [reflexivity|].
        repeat split; try lia; intros HlK; specialize (HeK HlK);
        assert (e < q) by (apply (mul_lt_cancel pstr Hpstr); lia);
        assert (q < e + 2) by (apply (mul_lt_cancel pstr Hpstr); lia);
        assert (q = e + 1) by lia; subst q;
        pose proof (mul_le_mono pstr Hpstr (e + 1) K ltac:(lia)); lia.
    - simpl. exists e. split; [reflexivity|]. repeat split; try lia;
      intros HlK; specialize (HeK HlK);
      pose proof (rem_nonzero_not_multiple pstr Hpstr (n + 1) (e + 1) ltac:(lia) Erem); lia. }
  destruct He' as (e' & -> & Hee' & He'n & He'K).
  (* the start of the window *)
  destruct (0 <=? n + 1 - psz) eqn:Epos; simpl.
  - apply Z.leb_le in Epos.
    destruct (Z.rem (n + 1 - psz) pstr =? 0) eqn:Erem; simpl.
    + apply (rem_zero_multiple pstr Hpstr) in Erem as (q & Hq & Eq); [|lia].
      destruct (s <? e') eqn:Elt; simpl.
      * apply Z.ltb_lt in Elt.
        assert (HsK' : s < K) by lia. specialize (HsK HsK').
        assert (q <= s) by (apply Z.lt_succ_r, (mul_lt_cancel pstr Hpstr); lia).
        assert (s <= q).
        { destruct (Z_lt_le_dec 0 s) as [Hpos|Hz]; [|lia].
          specialize (Hs0 Hpos). apply Z.lt_pred_le, (mul_lt_cancel pstr Hpstr). lia. }
        assert (q = s) by lia. subst q.
        repeat split; try lia.
      * apply Z.ltb_ge in Elt. assert (s = e') by lia. subst e'.
        repeat split; try lia; intros HsK'; specialize (HsK HsK'); specialize (He'K HsK');
        lia.
    + repeat split; try lia; intros HsK'; specialize (HsK HsK');
      pose proof (rem_nonzero_not_multiple pstr Hpstr (n + 1 - psz) s ltac:(lia) Erem); lia.
  - apply Z.leb_gt in Epos.
    assert (0 <= s * pstr) by (apply Z.mul_nonneg_nonneg; lia).
    repeat split; try lia.
Qed.

Lemma sparse_window_inv n : 0 <= n -> window_inv K psz pstr n (sparse_window extent psz pstr n).
Proof.
  intros Hn. unfold sparse_window, for_le.
  destruct (for_lt_ind
    (fun r se => (r = 0 /\ se = (0, -1)) \/ (0 < r /\ window_inv K psz pstr (r - 1) se))
    0 (n + 1) step (0, -1)) as [[Hr _]|[_ Hinv]]; [lia| | |lia|].
  3: now replace (n + 1 - 1) with n in Hinv by lia.
  - left. split; reflexivity.
  - intros i se Hi [[-> ->]|[Hpos Hinv]]; right; (split; [lia|]).
    + apply window_inv_first.
    + replace (i + 1 - 1) with (i - 1 + 1) by lia. replace i with (i - 1 + 1) at 2 by lia.
      apply window_inv_step; [lia|exact Hinv].
Qed.

End Window.

(** ** The window and the overlapping patches *)

Lemma Zrange_app lo a b : Zrange lo (a + b) = Zrange lo a ++ Zrange (lo + Z.of_nat a) b.
Proof.
  revert lo; induction a as [|a IH]; intros lo.
  - simpl. now rewrite Z.add_0_r.
  - change (Zrange lo (S a + b)) with (lo :: Zrange (lo + 1) (a + b)).
    rewrite IH. simpl. do 3 f_equal. lia.
Qed.

Lemma filter_none {A : Type} (p : A -> bool) (l : list A) :
  (forall x, In x l -> p x = false) -> filter p l = [].
Proof.
  intros Hp. induction l as [|x l IH]; simpl; [reflexivity|].
  rewrite Hp by (now left). apply IH. intros y Hy. apply Hp. now right.
Qed.

Lemma filter_all {A : Type} (p : A -> bool) (l : list A) :
  (forall x, In x l -> p x = true) -> filter p l = l.
Proof.
  intros Hp. induction l as [|x l IH]; simpl; [reflexivity|].
  rewrite Hp by (now left). f_equal. apply IH. intros y Hy. apply Hp. now right.
Qed.

(** Filtering a range by a predicate that holds exactly on an interval. *)
Lemma filter_range_interval (p : Z -> bool) (n s e : Z) :
  0 <= s -> s <= e + 1 -> e < n ->
  (forall k, 0 <= k < n -> p k = true <-> s <= k <= e) ->
  filter p (Zrange 0 (Z.to_nat n)) = Zrange s (Z.to_nat (e - s + 1)).
Proof.
  intros Hs Hse Hen Hp.
  replace (Z.to_nat n) with (Z.to_nat s + (Z.to_nat (e - s + 1) + Z.to_nat (n - e - 1)))%nat
    by lia.
  rewrite !Zrange_app, !filter_app.
  rewrite filter_none, filter_all, filter_none.
  - now rewrite app_nil_r, Z.add_0_l, Z2Nat.id by lia.
  - intros k Hk. apply Zrange_In in Hk.
    destruct (p k) eqn:E; [|reflexivity]. apply Hp in E; lia.
  - intros k Hk. apply Zrange_In in Hk. apply Hp; lia.
  - intros k Hk. apply Zrange_In in Hk.
    destruct (p k) eqn:E; [|reflexivity]. apply Hp in E; lia.
Qed.

Section WindowPatches.
Variables extent psz pstr : Z.
Hypothesis Hpstr : 0 < pstr.
Hypothesis Hle : pstr <= psz.
Hypothesis Hext : psz <= extent.

Let K := (extent - psz) / pstr.

(** The window holds the patches blended at [n]: exactly those that
    overlap [n], or the last patch when [n] lies beyond it. *)
Lemma patches_used_window n :
  0 <= n ->
  patches_used extent psz pstr n =
  Zrange (fst (sparse_window extent psz pstr n))
         (Z.to_nat (snd (sparse_window extent psz pstr n) + 1 -
                    fst (sparse_window extent psz pstr n))).
Proof.
  intros Hn.
  pose proof (sparse_window_inv extent psz pstr Hpstr Hle Hext n Hn) as Hinv.
  pose proof (K_bounds extent psz pstr Hpstr Hext) as [HK HKb]. fold K in HK, HKb.
  destruct (sparse_window extent psz pstr n) as [s e]. simpl fst; simpl snd.
  unfold window_inv in Hinv. cbn [fst snd] in Hinv. fold K in Hinv.
  destruct Hinv as (Hs & He & Hen & HeK & Hs0 & HsK).
  unfold patches_used, overlapping, grid_size. fold K.
  destruct (Z_lt_le_dec n (K * pstr + psz)) as [Hcov|Hunc].
  - rewrite (filter_range_interval _ (1 + K) s e); try lia.
    + replace (e - s + 1) with (e + 1 - s) by lia.
      destruct (Z.to_nat (e + 1 - s)) eqn:E; [lia|reflexivity].
    + intros k Hk. unfold covers. rewrite andb_true_iff, Z.leb_le, Z.ltb_lt. split.
      * intros [Hk1 Hk2]. split.
        -- destruct (Z_lt_le_dec k s) as [Hlt|Hge]; [|exact Hge]. exfalso.
           pose proof (mul_le_mono pstr Hpstr k (s - 1) ltac:(lia)). lia.
        -- destruct (Z_lt_le_dec e k) as [Hlt|Hge]; [|exact Hge]. exfalso.
           pose proof (mul_le_mono pstr Hpstr (e + 1) k ltac:(lia)). lia.
      * intros [Hk1 Hk2]. split.
        -- pose proof (mul_le_mono pstr Hpstr k e ltac:(lia)). lia.
        -- destruct (Z_lt_le_dec s K) as [Hlt|Hge].
           ++ pose proof (mul_le_mono pstr Hpstr s k ltac:(lia)). lia.
           ++ assert (k = K) by lia. subst k. lia.
  - assert (s = K).
    { destruct (Z_lt_le_dec s K) as [Hlt|Hge]; [|lia]. exfalso.
      pose proof (mul_le_mono pstr Hpstr s K ltac:(lia)). lia. }
    assert (e = K) by lia. subst s e.
    rewrite filter_none.
    + replace (1 + K - 1) with K by lia. replace (Z.to_nat (K + 1 - K)) with 1%nat by lia.
      reflexivity.
    + intros k Hk. apply Zrange_In in Hk. unfold covers.
      apply andb_false_iff. right. apply Z.ltb_ge.
      pose proof (mul_le_mono pstr Hpstr k K ltac:(lia)). lia.
Qed.

(** Where some patch overlaps [n], only overlapping patches are used. *)
Lemma patches_used_overlapping n :
  0 <= n < K * pstr + psz -> patches_used extent psz pstr n = overlapping extent psz pstr n.
Proof.
  intros Hn. unfold patches_used.
  destruct (overlapping extent psz pstr n) as [|k l] eqn:E; [exfalso|reflexivity].
  pose proof (K_bounds extent psz pstr Hpstr Hext) as [HK HKb]. fold K in HK, HKb.
  assert (Hin : In (Z.min (n / pstr) K) (overlapping extent psz pstr n)).
  { unfold overlapping, grid_size. fold K. apply filter_In. split.
    - apply Zrange_In. 
      assert (0 <= n / pstr) by (apply Z.div_pos; lia). lia.
    - unfold covers. apply andb_true_iff. rewrite Z.leb_le, Z.ltb_lt.
      pose proof (Z.div_mod n pstr ltac:(lia)) as Ed.
      pose proof (Z.mod_pos_bound n pstr Hpstr) as Bd.
      destruct (Z.min_spec (n / pstr) K) as [[Hlt ->]|[Hge ->]].
      + split; lia.
      + split; [|lia]. pose proof (mul_le_mono pstr Hpstr K (n / pstr) Hge). lia. }
  rewrite E in Hin. destruct Hin.
Qed.

End WindowPatches.

(** ** Order in exact arithmetic *)

Section OrderFacts.
Context {F : Type} `{ExactArith F}.
Local Open Scope arith_scope.

Add Field Ffield_order : Ffield.

Lemma Flt_0_1 : (Fzero <? Fone) = true.
Proof.
  destruct (Flt_total Fzero Fone) as [Hlt|[Heq|Hgt]]; [exact Hlt|exfalso|].
  - apply (F_1_neq_0 Ffield). now symmetry.
  - pose proof (Fadd_lt_mono _ _ (Fzero - Fone) Hgt) as Hneg.
    replace (Fone + (Fzero - Fone)) with Fzero in Hneg by ring.
    replace (Fzero + (Fzero - Fone)) with (Fzero - Fone) in Hneg by ring.
    pose proof (Fmul_pos _ _ Hneg Hneg) as Hsq.
    now replace ((Fzero - Fone) * (Fzero - Fone)) with Fone in Hsq by ring.
Qed.

Lemma Fadd_pos a b : (Fzero <? a) = true -> (Fzero <? b) = true -> (Fzero <? a + b) = true.
Proof.
  intros Ha Hb. apply (Flt_trans _ b); [exact Hb|].
  pose proof (Fadd_lt_mono _ _ b Ha) as Hab.
  now replace (Fzero + b) with b in Hab by ring.
Qed.

Lemma Fpos_neq a : (Fzero <? a) = true -> a <> Fzero.
Proof. intros Ha ->. rewrite Flt_irrefl in Ha. discriminate. Qed.

Lemma Finv_pos b : (Fzero <? b) = true -> (Fzero <? Fone / b) = true.
Proof.
  intros Hb. pose proof (Fpos_neq b Hb) as Hne.
  destruct (Flt_total Fzero (Fone / b)) as [Hlt|[Heq|Hgt]]; [exact Hlt|exfalso|exfalso].
  - apply (F_1_neq_0 Ffield).
    replace Fone with (Fone / b * b) by (field; exact Hne). rewrite <- Heq. ring.
  - pose proof (Fadd_lt_mono _ _ (Fzero - Fone / b) Hgt) as Hneg.
    replace (Fone / b + (Fzero - Fone / b)) with Fzero in Hneg by (field; exact Hne).
    replace (Fzero + (Fzero - Fone / b)) with (Fzero - Fone / b) in Hneg by ring.
    pose proof (Fmul_pos _ _ Hneg Hb) as Hm.
    replace ((Fzero - Fone / b) * b) with (Fzero - Fone) in Hm by (field; exact Hne).
    pose proof (Fadd_lt_mono _ _ Fone Hm) as H1.
    replace (Fzero + Fone) with Fone in H1 by ring.
    replace (Fzero - Fone + Fone) with Fzero in H1 by ring.
    pose proof (Flt_trans _ _ _ Flt_0_1 H1) as Habs.
    rewrite Flt_irrefl in Habs. discriminate.
Qed.

Lemma Fmax_one_pos x : (Fzero <? Fmax Fone x) = true.
Proof.
  unfold Fmax. destruct (Fone <? x) eqn:E.
  - apply (Flt_trans _ Fone); [apply Flt_0_1|exact E].
  - apply Flt_0_1.
Qed.

(** Every weight is positive, whatever the residual. *)
Lemma coef_of_pos (d : F) : (Fzero <? coef_of d) = true.
Proof. unfold coef_of. apply Finv_pos, Fmax_one_pos. Qed.

Lemma sum_list_pos (l : list F) :
  l <> [] -> (forall x, In x l -> (Fzero <? x) = true) -> (Fzero <? sum_list l) = true.
Proof.
  induction l as [|x l IH]; intros Hne Hpos; [congruence|].
  destruct l as [|y l].
  - simpl. replace (x + Fzero) with x by ring. apply Hpos. now left.
  - change (sum_list (x :: y :: l)) with (x + sum_list (y :: l)).
    apply Fadd_pos; [apply Hpos; now left|].
    apply IH; [discriminate|]. intros z Hz. apply Hpos. now right.
Qed.

Lemma sum_list_map_mul_r {A : Type} (g : A -> F) (c : F) (l : list A) :
  sum_list (map (fun x => g x * c) l) = sum_list (map g l) * c.
Proof.
  induction l as [|x l IH]; simpl.
  - ring.
  - rewrite IH. ring.
Qed.

End OrderFacts.

(** ** Densification in exact arithmetic *)

Section DensificationProofs.
Context {F : Type} `{ExactArith F}.
Local Open Scope arith_scope.

Add Field Ffield_dense : Ffield.

Variables (dis : DISOpticalFlowImpl) (Sx_ptr Sy_ptr : ptr F) (I0_ptr I1_ptr : ptr Z).

Let coef (i j : Z) (c : Z * Z) : F :=
  coef_of (residual dis Sx_ptr Sy_ptr I0_ptr I1_ptr i j (fst c) (snd c)).
Let valx (c : Z * Z) : F := Sx_ptr (fst c * ws dis + snd c)%Z.
Let valy (c : Z * Z) : F := Sy_ptr (fst c * ws dis + snd c)%Z.

(** The residual is the bilinear sample of frame 1 at the clamped position
    minus the pixel of frame 0. *)
Lemma residual_is_bilinear i j is_ js_ :
  let sx := Sx_ptr (is_ * ws dis + js_)%Z in
  let sy := Sy_ptr (is_ * ws dis + js_)%Z in
  let i_m := fst (fst (sample_coords dis i j sx sy)) in
  let j_m := snd (fst (sample_coords dis i j sx sy)) in
  residual dis Sx_ptr Sy_ptr I0_ptr I1_ptr i j is_ js_ =
  bilinear I1_ptr (w dis) i_m j_m - of_int (I0_ptr (i * w dis + j)%Z).
Proof.
  unfold residual, bilinear, sample_coords. cbn [fst snd].
  rewrite !of_int_add, of_int_1. ring.
Qed.

(** The accumulators are the three sums over the cells of the window. *)
Lemma pixel_sums_sum i j wi wj :
  pixel_sums dis Sx_ptr Sy_ptr I0_ptr I1_ptr i j wi wj =
  (sum_list (map (coef i j) (window_cells wi wj)),
   sum_list (map (fun c => coef i j c * valx c) (window_cells wi wj)),
   sum_list (map (fun c => coef i j c * valy c) (window_cells wi wj))).
Proof.
  destruct wi as [si ei], wj as [sj ej].
  unfold pixel_sums, window_cells, for_le, for_lt at 1. simpl fst; simpl snd.
  set (rj := Zrange sj (Z.to_nat (ej + 1 - sj))).
  rewrite (fold_acc3 _
    (fun a => sum_list (map (fun b => coef i j (a, b)) rj))
    (fun a => sum_list (map (fun b => coef i j (a, b) * valx (a, b)) rj))
    (fun a => sum_list (map (fun b => coef i j (a, b) * valy (a, b)) rj))).
  - rewrite (sum_list_prod (fun a b => coef i j (a, b))).
    rewrite (sum_list_prod (fun a b => coef i j (a, b) * valx (a, b))).
    rewrite (sum_list_prod (fun a b => coef i j (a, b) * valy (a, b))).
    f_equal; [f_equal|]; ring.
  - intros a x y z. unfold for_lt. fold rj.
    now rewrite (fold_acc3 _ (fun b => coef i j (a, b))
                   (fun b => coef i j (a, b) * valx (a, b))
                   (fun b => coef i j (a, b) * valy (a, b))).
Qed.

Lemma window_cells_nonempty wi wj :
  (fst wi <= snd wi)%Z -> (fst wj <= snd wj)%Z -> window_cells wi wj <> [].
Proof.
  intros Hi Hj. unfold window_cells.
  destruct (Z.to_nat (snd wi + 1 - fst wi)) eqn:Ei; [lia|].
  destruct (Z.to_nat (snd wj + 1 - fst wj)) eqn:Ej; [lia|].
  discriminate.
Qed.

(** A non-empty window gives a positive total weight. *)
Lemma sum_coef_pos i j wi wj :
  (fst wi <= snd wi)%Z -> (fst wj <= snd wj)%Z ->
  (Fzero <? fst (fst (pixel_sums dis Sx_ptr Sy_ptr I0_ptr I1_ptr i j wi wj))) = true.
Proof.
  intros Hi Hj. rewrite pixel_sums_sum. simpl.
  apply sum_list_pos.
  - intros E. apply map_eq_nil in E. now apply (window_cells_nonempty wi wj).
  - intros x Hx. apply in_map_iff in Hx as (c & <- & _). apply coef_of_pos.
Qed.

(** The stored flow is the weighted average over the blended patches. *)
Lemma pixel_flow_weighted_average hh i j :
  (0 < patch_stride dis)%Z -> (patch_stride dis <= patch_size dis)%Z ->
  (patch_size dis <= hh)%Z -> (patch_size dis <= w dis)%Z ->
  (0 <= i)%Z -> (0 <= j)%Z ->
  let cells := list_prod (patches_used hh (patch_size dis) (patch_stride dis) i)
                         (patches_used (w dis) (patch_size dis) (patch_stride dis) j) in
  pixel_flow dis hh Sx_ptr Sy_ptr I0_ptr I1_ptr i j =
  (weighted_average cells (coef i j) valx, weighted_average cells (coef i j) valy).
Proof.
  intros Hpstr Hle Hh Hw Hi Hj cells. unfold pixel_flow.
  rewrite pixel_sums_sum. unfold weighted_average, cells, window_cells.
  now rewrite <- !patches_used_window by assumption.
Qed.

(** Where all blended patches carry one displacement, that displacement is
    stored. *)
Lemma pixel_flow_constant hh i j (dx dy : F) :
  (0 < patch_stride dis)%Z -> (patch_stride dis <= patch_size dis)%Z ->
  (patch_size dis <= hh)%Z -> (patch_size dis <= w dis)%Z ->
  (0 <= i)%Z -> (0 <= j)%Z ->
  (forall is_ js_,
     In is_ (patches_used hh (patch_size dis) (patch_stride dis) i) ->
     In js_ (patches_used (w dis) (patch_size dis) (patch_stride dis) j) ->
     Sx_ptr (is_ * ws dis + js_)%Z = dx /\ Sy_ptr (is_ * ws dis + js_)%Z = dy) ->
  pixel_flow dis hh Sx_ptr Sy_ptr I0_ptr I1_ptr i j = (dx, dy).
Proof.
  intros Hpstr Hle Hh Hw Hi Hj Hconst.
  pose proof (sum_coef_pos i j
                (sparse_window hh (patch_size dis) (patch_stride dis) i)
                (sparse_window (w dis) (patch_size dis) (patch_stride dis) j)
                (sparse_window_nonempty hh _ _ i Hh Hi)
                (sparse_window_nonempty (w dis) _ _ j Hw Hj)) as Hpos.
  rewrite pixel_sums_sum in Hpos. simpl in Hpos. apply Fpos_neq in Hpos.
  rewrite pixel_flow_weighted_average by assumption.
  unfold weighted_average, window_cells in *.
  rewrite <- !patches_used_window in Hpos by assumption.
  set (cells := list_prod _ _) in *.
  rewrite (sum_list_map_ext (fun c => coef i j c * valx c) (fun c => coef i j c * dx)).
  2:{ intros [a b] Hc. apply in_prod_iff in Hc as [Ha Hb]. unfold valx. simpl.
      now rewrite (proj1 (Hconst a b Ha Hb)). }
  rewrite (sum_list_map_ext (fun c => coef i j c * valy c) (fun c => coef i j c * dy)).
  2:{ intros [a b] Hc. apply in_prod_iff in Hc as [Ha Hb]. unfold valy. simpl.
      now rewrite (proj2 (Hconst a b Ha Hb)). }
  rewrite !sum_list_map_mul_r. f_equal; field; exact Hpos.
Qed.

End DensificationProofs.

(** ** Densification in any arithmetic *)

Section DensificationAccumulation.
Context {F : Type} `{Arith F}.
Local Open Scope arith_scope.

Variables (dis : DISOpticalFlowImpl) (Sx_ptr Sy_ptr : ptr F) (I0_ptr I1_ptr : ptr Z).

Let coef (i j : Z) (c : Z * Z) : F :=
  coef_of (residual dis Sx_ptr Sy_ptr I0_ptr I1_ptr i j (fst c) (snd c)).
Let valx (c : Z * Z) : F := Sx_ptr (fst c * ws dis + snd c)%Z.
Let valy (c : Z * Z) : F := Sy_ptr (fst c * ws dis + snd c)%Z.

Lemma pixel_sums_running i j wi wj :
  pixel_sums dis Sx_ptr Sy_ptr I0_ptr I1_ptr i j wi wj =
  (running_sum (map (coef i j) (window_cells wi wj)),
   running_sum (map (fun c => coef i j c * valx c) (window_cells wi wj)),
   running_sum (map (fun c => coef i j c * valy c) (window_cells wi wj))).
Proof.
  destruct wi as [si ei], wj as [sj ej].
  unfold pixel_sums, window_cells, running_sum, for_le, for_lt at 1. cbn [fst snd].
  set (rj := Zrange sj (Z.to_nat (ej + 1 - sj))).
  rewrite (fold_left_triple _
    (fun s a => fold_left (fun s b => s + coef i j (a, b)) rj s)
    (fun s a => fold_left (fun s b => s + coef i j (a, b) * valx (a, b)) rj s)
    (fun s a => fold_left (fun s b => s + coef i j (a, b) * valy (a, b)) rj s)).
  - rewrite !fold_left_map_acc, !fold_left_list_prod. reflexivity.
  - intros a x y z. unfold for_lt. fold rj.
    now rewrite (fold_left_triple _ (fun s b => s + coef i j (a, b))
                   (fun s b => s + coef i j (a, b) * valx (a, b))
                   (fun s b => s + coef i j (a, b) * valy (a, b))).
Qed.

Lemma pixel_flow_accumulated hh i j :
  (0 < patch_stride dis)%Z -> (patch_stride dis <= patch_size dis)%Z ->
  (patch_size dis <= hh)%Z -> (patch_size dis <= w dis)%Z ->
  (0 <= i)%Z -> (0 <= j)%Z ->
  let cells := list_prod (patches_used hh (patch_size dis) (patch_stride dis) i)
                         (patches_used (w dis) (patch_size dis) (patch_stride dis) j) in
  pixel_flow dis hh Sx_ptr Sy_ptr I0_ptr I1_ptr i j =
  (accumulated_average cells (coef i j) valx, accumulated_average cells (coef i j) valy).
Proof.
  intros Hpstr Hle Hh Hw Hi Hj cells. unfold pixel_flow.
  rewrite pixel_sums_running. unfold accumulated_average, cells, window_cells.
  now rewrite <- !patches_used_window by assumption.
Qed.

End DensificationAccumulation.

(** ** Single precision: what rounding keeps *)

Lemma pow2_double (D : Z) : 1 <= D -> 2 ^ D = 2 * 2 ^ (D - 1).
Proof.
  intros HD. replace D with (Z.succ (D - 1)) at 1 by lia. apply Z.pow_succ_r. lia.
Qed.

Lemma digits2_pos_bounds (p : positive) :
  2 ^ (Zpos (digits2_pos p) - 1) <= Zpos p < 2 ^ Zpos (digits2_pos p).
Proof.
  induction p as [p IH|p IH|]; cbn [digits2_pos]; [| |simpl; lia].
  - rewrite Pos2Z.inj_succ. replace (Z.succ (Zpos (digits2_pos p)) - 1) with (Zpos (digits2_pos p)) by lia.
    rewrite (pow2_double (Z.succ (Zpos (digits2_pos p)))) by lia.
    replace (Z.succ (Zpos (digits2_pos p)) - 1) with (Zpos (digits2_pos p)) by lia.
    rewrite (pow2_double (Zpos (digits2_pos p))) in * by lia.
    rewrite (Pos2Z.inj_xI p).
    set (X := 2 ^ (Zpos (digits2_pos p) - 1)) in *. clearbody X. lia.
  - rewrite Pos2Z.inj_succ. replace (Z.succ (Zpos (digits2_pos p)) - 1) with (Zpos (digits2_pos p)) by lia.
    rewrite (pow2_double (Z.succ (Zpos (digits2_pos p)))) by lia.
    replace (Z.succ (Zpos (digits2_pos p)) - 1) with (Zpos (digits2_pos p)) by lia.
    rewrite (pow2_double (Zpos (digits2_pos p))) in * by lia.
    rewrite (Pos2Z.inj_xO p).
    set (X := 2 ^ (Zpos (digits2_pos p) - 1)) in *. clearbody X. lia.
Qed.

Lemma Zdigits2_lt (m k : Z) : 0 <= k -> 0 <= m < 2 ^ k -> Zdigits2 m <= k.
Proof.
  intros Hk [Hm Hlt]. destruct m as [|p|p]; simpl; [lia| |lia].
  destruct (Z_le_gt_dec (Zpos (digits2_pos p)) k) as [Hle|Hgt]; [exact Hle|exfalso].
  pose proof (digits2_pos_bounds p) as [Hlo _].
  assert (2 ^ k <= 2 ^ (Zpos (digits2_pos p) - 1)) by (apply Z.pow_le_mono_r; lia). lia.
Qed.

Lemma Zdigits2_nonneg m : 0 <= Zdigits2 m.
Proof. destruct m; simpl; lia. Qed.

Lemma Zdigits2_bounds m : 1 <= m -> 2 ^ (Zdigits2 m - 1) <= m < 2 ^ Zdigits2 m.
Proof. intros Hm. destruct m as [|p|p]; try lia. apply digits2_pos_bounds. Qed.

Lemma shr_1_m mrs : 0 <= shr_m mrs -> shr_m (shr_1 mrs) = shr_m mrs / 2.
Proof.
  destruct mrs as [m r s]. simpl. intros Hm.
  destruct m as [|[p|p|]|p]; simpl; try lia.
  - reflexivity.
  - rewrite (Pos2Z.inj_xI p). apply Z.div_unique with 1; lia.
  - rewrite (Pos2Z.inj_xO p). apply Z.div_unique with 0; lia.
  - reflexivity.
Qed.

Lemma iter_pos_shr_m (n : positive) mrs :
  0 <= shr_m mrs -> shr_m (iter_pos shr_1 n mrs) = shr_m mrs / 2 ^ Zpos n.
Proof.
  revert mrs. induction n as [n IH|n IH|]; intros mrs Hm; cbn [iter_pos].
  - assert (H1 : 0 <= shr_m (shr_1 mrs)) by (rewrite shr_1_m by lia; apply Z.div_pos; lia).
    assert (H2 : 0 <= shr_m (iter_pos shr_1 n (shr_1 mrs))).
    { rewrite IH by lia. apply Z.div_pos; [lia|]. apply Z.pow_pos_nonneg; lia. }
    rewrite IH by lia. rewrite IH by lia. rewrite shr_1_m by lia.
    rewrite !Z.div_div by (try lia; apply Z.pow_pos_nonneg; lia).
    f_equal. rewrite (Pos2Z.inj_xI n).
    replace (2 * Zpos n + 1) with (1 + Zpos n + Zpos n) by lia.
    rewrite !Z.pow_add_r by lia. change (2 ^ 1) with 2. lia.
  - assert (H2 : 0 <= shr_m (iter_pos shr_1 n mrs)).
    { rewrite IH by lia. apply Z.div_pos; [lia|]. apply Z.pow_pos_nonneg; lia. }
    rewrite IH by lia. rewrite IH by lia.
    rewrite !Z.div_div by (try lia; apply Z.pow_pos_nonneg; lia).
    f_equal. rewrite (Pos2Z.inj_xO n).
    replace (2 * Zpos n) with (Zpos n + Zpos n) by lia.
    rewrite !Z.pow_add_r by lia. lia.
  - rewrite shr_1_m by lia. reflexivity.
Qed.

Lemma shr_record_of_loc_m m l : shr_m (shr_record_of_loc m l) = m.
Proof. destruct l as [|[]]; reflexivity. Qed.

(** One alignment step of the rounding, in single precision. *)
Lemma shr_fexp_bounds (m e : Z) (l : location) :
  0 <= m ->
  let '(mrs, e') := shr_fexp 24 128 m e l in
  0 <= shr_m mrs /\ Zdigits2 (shr_m mrs) <= 24 /\ -149 <= e' /\
  (1 <= m -> -149 <= e -> 1 <= shr_m mrs).
Proof.
  intros Hm. unfold shr_fexp, shr, fexp, emin.
  change (3 - 128 - 24) with (-149).
  set (d := Zdigits2 m).
  assert (Hd : 0 <= d) by apply Zdigits2_nonneg.
  destruct (Z.max (d + e - 24) (-149) - e) as [|n|n] eqn:En.
  - rewrite shr_record_of_loc_m. fold d. repeat split; lia.
  - rewrite iter_pos_shr_m by (rewrite shr_record_of_loc_m; lia).
    rewrite shr_record_of_loc_m.
    assert (Hpow : 0 < 2 ^ Zpos n) by (apply Z.pow_pos_nonneg; lia).
    split; [apply Z.div_pos; lia|]. split; [|split; [lia|]].
    + destruct (Z_le_gt_dec 1 m) as [H1|H0].
      * pose proof (Zdigits2_bounds m H1) as [_ Hhi]. fold d in Hhi.
        destruct (Z_le_gt_dec (Zpos n) d) as [Hnd|Hnd].
        -- apply Zdigits2_lt; [lia|]. split; [apply Z.div_pos; lia|].
           apply Z.div_lt_upper_bound; [lia|].
           apply Z.lt_le_trans with (2 ^ d); [exact Hhi|].
           rewrite <- Z.pow_add_r by lia. apply Z.pow_le_mono_r; lia.
        -- rewrite Z.div_small; [simpl; lia|]. split; [lia|].
           apply Z.lt_le_trans with (2 ^ d); [exact Hhi|]. apply Z.pow_le_mono_r; lia.
      * assert (m = 0) by lia. subst m. rewrite Z.div_0_l by lia. simpl. lia.
    + intros H1 He. pose proof (Zdigits2_bounds m H1) as [Hlo _]. fold d in Hlo.
      assert (1 <= d).
      { unfold d. destruct m; simpl; lia. }
      apply Z.div_le_lower_bound; [lia|]. rewrite Z.mul_1_r.
      apply Z.le_trans with (2 ^ (d - 1)); [|exact Hlo]. apply Z.pow_le_mono_r; lia.
  - rewrite shr_record_of_loc_m. fold d. repeat split; lia.
Qed.

Lemma round_nearest_even_bounds m l : m <= round_nearest_even m l <= m + 1.
Proof.
  unfold round_nearest_even. destruct l as [|[]]; try lia. destruct (Z.even m); lia.
Qed.

Lemma binary_round_aux_rounded s m e l :
  0 <= m -> rounded (binary_round_aux 24 128 s m e l).
Proof.
  intros Hm. unfold binary_round_aux.
  pose proof (shr_fexp_bounds m e l Hm) as H1.
  destruct (shr_fexp 24 128 m e l) as [mrs' e'].
  destruct H1 as (H1a & _).
  pose proof (round_nearest_even_bounds (shr_m mrs') (loc_of_shr_record mrs')) as Hr.
  pose proof (shr_fexp_bounds (round_nearest_even (shr_m mrs') (loc_of_shr_record mrs')) e'
                loc_Exact ltac:(lia)) as H2.
  destruct (shr_fexp 24 128 _ e' loc_Exact) as [mrs'' e''].
  destruct H2 as (_ & H2d & _).
  destruct (shr_m mrs'') as [|p|p]; simpl; try exact I.
  change (128 - 24) with 104.
  destruct (e'' <=? 104) eqn:E; simpl; [|exact I].
  apply Z.leb_le in E. split; [exact H2d|exact E].
Qed.

Lemma binary_round_aux_positive m e l :
  1 <= m -> -149 <= e -> positive_single (binary_round_aux 24 128 false m e l).
Proof.
  intros Hm He. unfold binary_round_aux.
  pose proof (shr_fexp_bounds m e l ltac:(lia)) as H1.
  destruct (shr_fexp 24 128 m e l) as [mrs' e'].
  destruct H1 as (H1a & _ & H1e & H1p). specialize (H1p Hm He).
  pose proof (round_nearest_even_bounds (shr_m mrs') (loc_of_shr_record mrs')) as Hr.
  pose proof (shr_fexp_bounds (round_nearest_even (shr_m mrs') (loc_of_shr_record mrs')) e'
                loc_Exact ltac:(lia)) as H2.
  destruct (shr_fexp 24 128 _ e' loc_Exact) as [mrs'' e''].
  destruct H2 as (_ & _ & H2e & H2p). specialize (H2p ltac:(lia) H1e).
  destruct (shr_m mrs'') as [|p|p]; try lia.
  change (128 - 24) with 104.
  destruct (e'' <=? 104); simpl; [exact H2e|exact I].
Qed.

Lemma shl_align_exponent mx ex ex' :
  -149 <= ex -> -149 <= ex' -> -149 <= snd (shl_align mx ex ex').
Proof. intros. unfold shl_align. destruct (ex' - ex); simpl; lia. Qed.

Lemma binary_round_rounded s m e : rounded (binary_round 24 128 s m e).
Proof.
  unfold binary_round. destruct (shl_align m e _) as [mz ez].
  apply binary_round_aux_rounded. lia.
Qed.

Lemma binary_round_positive m e :
  -149 <= e -> positive_single (binary_round 24 128 false m e).
Proof.
  intros He. unfold binary_round.
  pose proof (shl_align_exponent m e (fexp 24 128 (Zpos (digits2_pos m) + e)) He) as Hs.
  destruct (shl_align m e _) as [mz ez]. simpl in Hs.
  apply binary_round_aux_positive; [lia|]. apply Hs.
  unfold fexp, emin. lia.
Qed.

Lemma binary_normalize_rounded m e sz : rounded (binary_normalize 24 128 m e sz).
Proof. destruct m; simpl; try exact I; apply binary_round_rounded. Qed.

Lemma SFmul_rounded x y : rounded (SFmul 24 128 x y).
Proof.
  destruct x as [sx|sx| |sx mx ex], y as [sy|sy| |sy my ey]; simpl; try exact I.
  apply binary_round_aux_rounded. lia.
Qed.

Lemma SFadd_rounded x y : rounded x -> rounded y -> rounded (SFadd 24 128 x y).
Proof.
  intros Hx Hy.
  destruct x as [sx|sx| |sx mx ex], y as [sy|sy| |sy my ey]; simpl; try exact I;
    try assumption.
  - destruct sx, sy; exact I.
  - destruct sx, sy; exact I.
  - apply binary_normalize_rounded.
Qed.

Lemma SFsub_rounded x y : rounded x -> rounded y -> rounded (SFsub 24 128 x y).
Proof.
  intros Hx Hy.
  destruct x as [sx|sx| |sx mx ex], y as [sy|sy| |sy my ey]; simpl; try exact I;
    try assumption.
  - destruct sx, sy; exact I.
  - destruct sx, sy; exact I.
  - apply binary_normalize_rounded.
Qed.

Lemma SFabs_rounded x : rounded x -> rounded (SFabs x).
Proof. destruct x; simpl; auto. Qed.

Lemma SFadd_positive x y :
  positive_single x -> positive_single y -> positive_single (SFadd 24 128 x y).
Proof.
  intros Hx Hy.
  destruct x as [sx|[|]| |[|] mx ex], y as [sy|[|]| |[|] my ey]; simpl in *;
    try contradiction; try exact I.
  unfold binary_normalize.
  destruct (shl_align mx ex (Z.min ex ey)) as [m1 e1].
  destruct (shl_align my ey (Z.min ex ey)) as [m2 e2]. simpl.
  apply binary_round_positive. lia.
Qed.

Lemma SFadd_zero_positive y : positive_single y -> positive_single (SFadd 24 128 (S754_zero false) y).
Proof.
  intros Hy. destruct y as [sy|[|]| |[|] my ey]; simpl in *; try contradiction; auto.
Qed.

(** The reciprocal of a rounded finite single above 1 is positive. *)
Lemma SFdiv_one_positive m e :
  Zdigits2 (Zpos m) <= 24 -> e <= 104 ->
  positive_single (SFdiv 24 128 (S754_finite false 8388608 (-23)) (S754_finite false m e)).
Proof.
  intros Hd He. unfold SFdiv, SFdiv_core_binary. cbn [xorb].
  change (Zdigits2 8388608) with 24.
  set (d := Zdigits2 (Zpos m)) in *.
  assert (Hd1 : 1 <= d) by (unfold d; simpl; lia).
  unfold fexp, emin. change (3 - 128 - 24) with (-149).
  set (e' := Z.min (Z.max (24 + -23 - (d + e) - 24) (-149)) (-23 - e)).
  assert (He' : -149 <= e') by (unfold e'; lia).
  set (s := -23 - e - e').
  assert (Hs : 0 <= s) by (unfold s, e'; lia).
  assert (Hsd : d <= 23 + s) by (unfold s, e'; lia).
  pose proof (Zdigits2_bounds (Zpos m) ltac:(lia)) as [_ Hhi]. fold d in Hhi.
  assert (Hm' : match s with 0 => 8388608 | Zpos _ => Z.shiftl 8388608 s | Zneg _ => 0 end
                = 2 ^ (23 + s)).
  { clearbody s e'. destruct s as [|p|p]; [reflexivity| |lia].
    rewrite Z.shiftl_mul_pow2 by lia. rewrite Z.pow_add_r by lia. reflexivity. }
  rewrite Hm'.
  assert (Hge : Zpos m <= 2 ^ (23 + s)).
  { apply Z.le_trans with (2 ^ d); [lia|]. apply Z.pow_le_mono_r; lia. }
  pose proof (Z.div_eucl_eq (2 ^ (23 + s)) (Zpos m) ltac:(lia)) as Hq.
  pose proof (Z.mod_pos_bound (2 ^ (23 + s)) (Zpos m) ltac:(lia)) as Hr.
  unfold Z.modulo in Hr.
  destruct (Z.div_eucl (2 ^ (23 + s)) (Zpos m)) as [q r].
  apply binary_round_aux_positive; [|exact He'].
  destruct (Z_le_gt_dec 1 q) as [H1|H0]; [exact H1|exfalso]. nia.
Qed.

(** ** Densification in single precision: the weights *)

Lemma of_Z_rounded n : rounded (B32.of_Z n).
Proof. apply binary_normalize_rounded. Qed.

Lemma residual_rounded (dis : DISOpticalFlowImpl) (Sx_ptr Sy_ptr : ptr spec_float)
    (I0_ptr I1_ptr : ptr Z) (i j is_ js_ : Z) :
  rounded (residual dis Sx_ptr Sy_ptr I0_ptr I1_ptr i j is_ js_).
Proof.
  unfold residual. destruct (sample_coords _ _ _ _ _) as [[i_m j_m] [[[i_l i_u] j_l] j_u]].
  apply SFsub_rounded; [|apply of_Z_rounded].
  repeat (apply SFadd_rounded); apply SFmul_rounded.
Qed.

Lemma coef_of_positive (d : spec_float) :
  rounded d -> is_infinite d = false -> positive_single (coef_of d).
Proof.
  intros Hr Hi. unfold coef_of, Fmax.
  change (Fone (F := spec_float)) with (S754_finite false 8388608 (-23)).
  destruct d as [s|s| |s m e]; try discriminate.
  simpl in Hr. destruct Hr as [Hd He]. cbn [Fabs binary32 SFabs].
  destruct (_ <? _)%fl.
  - apply SFdiv_one_positive; assumption.
  - discriminate.
Qed.

Lemma fold_left_positive (l : list spec_float) (a : spec_float) :
  positive_single a -> (forall x, In x l -> positive_single x) ->
  positive_single (fold_left Fadd l a).
Proof.
  revert a. induction l as [|x l IH]; intros a Ha Hl; simpl; [exact Ha|].
  apply IH.
  - apply SFadd_positive; [exact Ha|apply Hl; now left].
  - intros y Hy. apply Hl. now right.
Qed.

Lemma running_sum_positive (l : list spec_float) :
  l <> [] -> (forall x, In x l -> positive_single x) -> positive_single (running_sum l).
Proof.
  intros Hne Hl. destruct l as [|x l]; [congruence|].
  unfold running_sum. simpl. apply fold_left_positive.
  - apply SFadd_zero_positive. apply Hl. now left.
  - intros y Hy. apply Hl. now right.
Qed.

Lemma positive_single_lt (x : spec_float) :
  positive_single x -> (Fzero <? x)%fl = true /\ x <> Fzero.
Proof.
  destruct x as [s|[|]| |[|] m e]; simpl; try contradiction; intros _; split;
    try reflexivity; discriminate.
Qed.

Lemma sum_coef_positive_binary32 (dis : DISOpticalFlowImpl) (Sx_ptr Sy_ptr : ptr spec_float)
    (I0_ptr I1_ptr : ptr Z) (i j : Z) (wi wj : Z * Z) :
  (fst wi <= snd wi)%Z -> (fst wj <= snd wj)%Z ->
  (forall c, In c (window_cells wi wj) ->
     is_infinite (residual dis Sx_ptr Sy_ptr I0_ptr I1_ptr i j (fst c) (snd c)) = false) ->
  positive_single (fst (fst (pixel_sums dis Sx_ptr Sy_ptr I0_ptr I1_ptr i j wi wj))).
Proof.
  intros Hi Hj Hfin. rewrite pixel_sums_running. cbn [fst].
  apply running_sum_positive.
  - intros E. apply map_eq_nil in E. now apply (window_cells_nonempty wi wj).
  - intros x Hx. apply in_map_iff in Hx as (c & <- & Hc).
    apply coef_of_positive; [apply residual_rounded|now apply Hfin].
Qed.

(** ** Densification: the results *)

Section DensificationResultsAnyArithmetic.
Context {F : Type} `{Arith F}.
Local Open Scope arith_scope.

(** C6, as amended. With [0 < patch_stride <= patch_size <= h, w],
    densification stores at every pixel [(i, j)] of the stripe the
    weighted average of the displacements [(Sx, Sy)] of the patches
    blended there: every patch whose footprint holds [(i, j)] along both
    axes, and, along an axis where the pixel lies beyond the last patch,
    that last patch.  The average is computed in [float]: the weights and
    the weighted displacements are accumulated patch after patch (rows of
    the grid first), and the two sums are divided.  The weight of a patch
    is [1 / max(1, |diff|)], [diff] being the expression of the code.  In
    exact arithmetic the value stored is the weighted average, and [diff]
    is the bilinear sample of frame 1 at the clamped position
    [(i, j) + displacement] minus [frame0(i, j)]. *)
Theorem densification_blends_patches_used (body : Densification_ParBody (F := F))
    (range : Z * Z) (i j : Z) :
  let dis := pb_dis body in
  let start_i := Z.min (fst range * pb_stripe_sz body) (pb_h body) in
  let end_i := Z.min (snd range * pb_stripe_sz body) (pb_h body) in
  let cells := list_prod (patches_used (pb_h body) (patch_size dis) (patch_stride dis) i)
                         (patches_used (w dis) (patch_size dis) (patch_stride dis) j) in
  let sample c := sample_coords dis i j (pb_Sx body (fst c * ws dis + snd c)%Z)
                    (pb_Sy body (fst c * ws dis + snd c)%Z) in
  let diff c := residual dis (pb_Sx body) (pb_Sy body) (pb_I0 body) (pb_I1 body)
                  i j (fst c) (snd c) in
  let coef c := coef_of (diff c) in
  (0 < patch_stride dis)%Z -> (patch_stride dis <= patch_size dis)%Z ->
  (patch_size dis <= pb_h body)%Z -> (patch_size dis <= w dis)%Z ->
  (0 <= start_i)%Z -> (start_i <= i < end_i)%Z -> (0 <= j < w dis)%Z ->
  (fst (Densification_operator body range) (i * w dis + j)%Z =
     accumulated_average cells coef (fun c => pb_Sx body (fst c * ws dis + snd c)%Z) /\
   snd (Densification_operator body range) (i * w dis + j)%Z =
     accumulated_average cells coef (fun c => pb_Sy body (fst c * ws dis + snd c)%Z)) /\
  (ExactArith F ->
   fst (Densification_operator body range) (i * w dis + j)%Z =
     weighted_average cells coef (fun c => pb_Sx body (fst c * ws dis + snd c)%Z) /\
   snd (Densification_operator body range) (i * w dis + j)%Z =
     weighted_average cells coef (fun c => pb_Sy body (fst c * ws dis + snd c)%Z) /\
   forall c, diff c =
     bilinear (pb_I1 body) (w dis) (fst (fst (sample c))) (snd (fst (sample c))) -
     of_int (pb_I0 body (i * w dis + j)%Z)).
Proof.
  cbv zeta. intros Hpstr Hle Hh Hw Hs Hi Hj.
  destruct (Densification_operator_stores body range i j Hs Hi Hj) as [-> ->].
  split.
  - rewrite pixel_flow_accumulated by (assumption || lia). split; reflexivity.
  - intros HE. rewrite pixel_flow_weighted_average by (assumption || lia).
    split; [reflexivity|]. split; [reflexivity|].
    intros c. apply residual_is_bilinear.
Qed.

(** The window and the total weight at a pixel, in any arithmetic. *)
Lemma window_and_total_weight (body : Densification_ParBody (F := F))
    (i j : Z) :
  let dis := pb_dis body in
  let wi := sparse_window (pb_h body) (patch_size dis) (patch_stride dis) i in
  let wj := sparse_window (w dis) (patch_size dis) (patch_stride dis) j in
  let coef c := coef_of (residual dis (pb_Sx body) (pb_Sy body) (pb_I0 body) (pb_I1 body)
                           i j (fst c) (snd c)) in
  let sum_coef := fst (fst (pixel_sums dis (pb_Sx body) (pb_Sy body) (pb_I0 body)
                              (pb_I1 body) i j wi wj)) in
  (0 < patch_stride dis)%Z ->
  (patch_size dis <= pb_h body)%Z -> (patch_size dis <= w dis)%Z ->
  (0 <= i < pb_h body)%Z -> (0 <= j < w dis)%Z ->
  ((fst wi <= snd wi)%Z /\ (fst wj <= snd wj)%Z /\ window_cells wi wj <> [] /\
   sum_coef = running_sum (map coef (window_cells wi wj))) /\
  ((patch_stride dis <= patch_size dis)%Z ->
   window_cells wi wj =
     list_prod (patches_used (pb_h body) (patch_size dis) (patch_stride dis) i)
               (patches_used (w dis) (patch_size dis) (patch_stride dis) j)) /\
  (ExactArith F -> (Fzero <? sum_coef) = true /\ sum_coef <> Fzero).
Proof.
  intros dis wi wj coef sum_coef Hpstr Hh Hw Hi Hj.
  assert (Hwi : (fst wi <= snd wi)%Z) by (apply sparse_window_nonempty; lia).
  assert (Hwj : (fst wj <= snd wj)%Z) by (apply sparse_window_nonempty; lia).
  split; [|split].
  - split; [exact Hwi|]. split; [exact Hwj|]. split.
    + now apply window_cells_nonempty.
    + unfold sum_coef. now rewrite pixel_sums_running.
  - intros Hle. unfold window_cells, wi, wj.
    now rewrite <- !patches_used_window by (assumption || lia).
  - intros HE.
    assert (Hpos : (Fzero <? sum_coef) = true) by (apply sum_coef_pos; assumption).
    split; [exact Hpos|]. now apply Fpos_neq.
Qed.

End DensificationResultsAnyArithmetic.

(** C8, as amended. With [0 < patch_stride] and [patch_size <= h, w], at
    every pixel [(i, j)] the window
    [[start_is .. end_is] x [start_js .. end_js]] is not empty, so that
    [sum_coef] is the accumulated sum of at least one weight.  With
    [patch_stride <= patch_size] the window holds the patches blended
    there: those that overlap the pixel, or, along an axis where none
    does, the last patch.  In exact arithmetic, and in single precision
    when no [diff] of the window is infinite, [sum_coef] is strictly
    positive, hence not zero: the assertion holds and the two divisions
    are defined. *)
Theorem densification_total_weight_positive :
  (forall (F : Type) (A : Arith F) (body : Densification_ParBody (F := F)) (i j : Z),
     let dis := pb_dis body in
     let wi := sparse_window (pb_h body) (patch_size dis) (patch_stride dis) i in
     let wj := sparse_window (w dis) (patch_size dis) (patch_stride dis) j in
     let coef c := coef_of (residual dis (pb_Sx body) (pb_Sy body) (pb_I0 body) (pb_I1 body)
                              i j (fst c) (snd c)) in
     let sum_coef := fst (fst (pixel_sums dis (pb_Sx body) (pb_Sy body) (pb_I0 body)
                                 (pb_I1 body) i j wi wj)) in
     0 < patch_stride dis ->
     patch_size dis <= pb_h body -> patch_size dis <= w dis ->
     0 <= i < pb_h body -> 0 <= j < w dis ->
     (fst wi <= snd wi /\ fst wj <= snd wj /\ window_cells wi wj <> [] /\
      sum_coef = running_sum (map coef (window_cells wi wj))) /\
     (patch_stride dis <= patch_size dis ->
      window_cells wi wj =
        list_prod (patches_used (pb_h body) (patch_size dis) (patch_stride dis) i)
                  (patches_used (w dis) (patch_size dis) (patch_stride dis) j)) /\
     (ExactArith F -> (Fzero <? sum_coef)%fl = true /\ sum_coef <> Fzero)) /\
  (forall (body : Densification_ParBody (F := spec_float)) (i j : Z),
     let dis := pb_dis body in
     let wi := sparse_window (pb_h body) (patch_size dis) (patch_stride dis) i in
     let wj := sparse_window (w dis) (patch_size dis) (patch_stride dis) j in
     let diff c := residual dis (pb_Sx body) (pb_Sy body) (pb_I0 body) (pb_I1 body)
                     i j (fst c) (snd c) in
     let sum_coef := fst (fst (pixel_sums dis (pb_Sx body) (pb_Sy body) (pb_I0 body)
                                 (pb_I1 body) i j wi wj)) in
     0 < patch_stride dis ->
     patch_size dis <= pb_h body -> patch_size dis <= w dis ->
     0 <= i < pb_h body -> 0 <= j < w dis ->
     (forall c, In c (window_cells wi wj) -> is_infinite (diff c) = false) ->
     (Fzero <? sum_coef)%fl = true /\ sum_coef <> Fzero).
Proof.
  split.
  - intros F A body i j. exact (window_and_total_weight body i j).
  - intros body i j dis wi wj diff sum_coef Hpstr Hh Hw Hi Hj Hfin.
    apply positive_single_lt, sum_coef_positive_binary32.
    + apply sparse_window_nonempty; lia.
    + apply sparse_window_nonempty; lia.
    + exact Hfin.
Qed.

Section DensificationResults.
Context {F : Type} `{ExactArith F}.
Local Open Scope arith_scope.

(** C7, as amended. In exact arithmetic, with
    [0 < patch_stride <= patch_size <= h, w], if all patches blended at a
    pixel (those overlapping it) carry the same displacement [(dx, dy)],
    the flow stored at that pixel is [(dx, dy)], whatever the residuals. *)
Theorem densification_of_agreeing_patches (body : Densification_ParBody (F := F))
    (range : Z * Z) (i j : Z) (dx dy : F) :
  let dis := pb_dis body in
  let start_i := Z.min (fst range * pb_stripe_sz body) (pb_h body) in
  let end_i := Z.min (snd range * pb_stripe_sz body) (pb_h body) in
  (0 < patch_stride dis)%Z -> (patch_stride dis <= patch_size dis)%Z ->
  (patch_size dis <= pb_h body)%Z -> (patch_size dis <= w dis)%Z ->
  (0 <= start_i)%Z -> (start_i <= i < end_i)%Z -> (0 <= j < w dis)%Z ->
  (forall is_ js_,
     In is_ (patches_used (pb_h body) (patch_size dis) (patch_stride dis) i) ->
     In js_ (patches_used (w dis) (patch_size dis) (patch_stride dis) j) ->
     pb_Sx body (is_ * ws dis + js_)%Z = dx /\ pb_Sy body (is_ * ws dis + js_)%Z = dy) ->
  fst (Densification_operator body range) (i * w dis + j)%Z = dx /\
  snd (Densification_operator body range) (i * w dis + j)%Z = dy.
Proof.
  cbv zeta. intros Hpstr Hle Hh Hw Hs Hi Hj Hconst.
  destruct (Densification_operator_stores body range i j Hs Hi Hj) as [-> ->].
  rewrite (pixel_flow_constant _ _ _ _ _ _ i j dx dy) by (assumption || lia).
  split; reflexivity.
Qed.

End DensificationResults.

(** ** The pyramid *)

Lemma vector_resize_length {A : Type} (v : list A) n d : length (vector_resize v n d) = n.
Proof. unfold vector_resize. rewrite length_app, length_firstn, repeat_length. lia. Qed.

Lemma vector_store_length {A : Type} (v : list A) k x :
  length (vector_store v k x) = length v.
Proof.
  revert k; induction v as [|y v IH]; intros [|k]; simpl; try reflexivity. now rewrite IH.
Qed.

Lemma vector_store_same {A : Type} (v : list A) k x d :
  (k < length v)%nat -> nth k (vector_store v k x) d = x.
Proof.
  revert k; induction v as [|y v IH]; intros [|k] Hk; simpl in *; try lia; [reflexivity|].
  apply IH. lia.
Qed.

Lemma vector_store_other {A : Type} (v : list A) k k' x d :
  k' <> k -> nth k' (vector_store v k x) d = nth k' v d.
Proof.
  revert k k'; induction v as [|y v IH]; intros [|k] [|k'] Hne; simpl;
    try reflexivity; try congruence.
  apply IH. congruence.
Qed.

Lemma vector_at_store_same v k x :
  0 <= k -> (Z.to_nat k < length v)%nat -> vector_at (vector_store v (Z.to_nat k) x) k = x.
Proof. intros Hk Hlen. unfold vector_at. now apply vector_store_same. Qed.

Lemma vector_at_store_other v k k' x :
  0 <= k -> 0 <= k' -> k' <> k -> vector_at (vector_store v (Z.to_nat k) x) k' = vector_at v k'.
Proof. intros Hk Hk' Hne. unfold vector_at. apply vector_store_other. lia. Qed.

Lemma wrap_int_small x : -2147483648 <= x < 2147483648 -> wrap_int x = x.
Proof. intros Hx. unfold wrap_int. rewrite Z.mod_small; lia. Qed.

Lemma quot_div_half a : 0 <= a -> Z.quot a 2 = a / 2 /\ 0 <= a / 2.
Proof.
  intros Ha. split; [apply Z.quot_div_nonneg; lia|apply Z.div_pos; lia].
Qed.

Section Pyramid.
Variables (self : DISOpticalFlowImpl) (I0_size : Size).
Hypothesis Hfinest : 0 <= finest_scale self <= coarsest_scale self.
Hypothesis Hfrac : finest_scale self <= 30.
Hypothesis Hrows : 0 <= fst I0_size.
Hypothesis Hcols : 0 <= snd I0_size.

Let fs := finest_scale self.
Let n := Z.to_nat (coarsest_scale self + 1).

Lemma levels_built_step r st :
  0 <= r <= coarsest_scale self ->
  levels_built self I0_size r st ->
  levels_built self I0_size (r + 1) (prepareBuffers_level self I0_size r st).
Proof.
  intros Hr. destruct st as [[[[fraction cur_rows] cur_cols] I0s] I1s].
  intros (Hl0 & Hl1 & Hfr & Hbuilt).
  unfold prepareBuffers_level. fold fs.
  assert (Hidx : (Z.to_nat r < n)%nat) by (unfold n; lia).
  destruct (r =? fs) eqn:Eeq; [|destruct (fs <? r) eqn:Elt].
  - apply Z.eqb_eq in Eeq. subst r. specialize (Hfr ltac:(lia)). subst fraction.
    assert (Hpow : 0 < 2 ^ fs) by (apply Z.pow_pos_nonneg; lia).
    assert (Hq : forall a, 0 <= a -> Z.quot a (2 ^ fs) = a / 2 ^ fs /\ 0 <= a / 2 ^ fs).
    { intros a Ha. split; [apply Z.quot_div_nonneg; lia|apply Z.div_pos; lia]. }
    destruct (Hq _ Hrows) as [-> Hr0]. destruct (Hq _ Hcols) as [-> Hc0].
    unfold levels_built. rewrite !vector_store_length.
    split; [exact Hl0|]. split; [exact Hl1|]. split; [lia|]. intros _.
    split; [|split].
    + apply vector_at_store_same; lia.
    + intros i Hi. assert (i = fs) by lia. subst i.
      rewrite !vector_at_store_same by lia. simpl. auto.
    + intros i Hi1 Hi2. lia.
  - apply Z.ltb_lt in Elt. destruct (Hbuilt Elt) as (Hbase & Hsame & Hhalf).
    destruct (Hsame (r - 1) ltac:(lia)) as (_ & Hr0 & Hc0).
    destruct (quot_div_half _ Hr0) as [-> Hr1]. destruct (quot_div_half _ Hc0) as [-> Hc1].
    unfold levels_built. rewrite !vector_store_length.
    split; [exact Hl0|]. split; [exact Hl1|]. split; [lia|]. intros _.
    split; [|split].
    + rewrite vector_at_store_other by lia. exact Hbase.
    + intros i Hi. destruct (Z.eq_dec i r) as [->|Hne].
      * rewrite !vector_at_store_same by lia. simpl. auto.
      * rewrite !vector_at_store_other by lia. apply Hsame. lia.
    + intros i Hi1 Hi2. unfold halved. destruct (Z.eq_dec (i + 1) r) as [E|Hne].
      * rewrite E, vector_at_store_same by lia.
        rewrite vector_at_store_other by lia. now replace (r - 1) with i by lia.
      * rewrite !vector_at_store_other by lia. apply Hhalf; lia.
  - apply Z.eqb_neq in Eeq. apply Z.ltb_ge in Elt.
    unfold levels_built. split; [exact Hl0|]. split; [exact Hl1|]. split; [|lia].
    intros _. rewrite (Hfr ltac:(lia)).
    assert (0 < 2 ^ r <= 2 ^ 29).
    { split; [apply Z.pow_pos_nonneg; lia|apply Z.pow_le_mono_r; lia]. }
    rewrite wrap_int_small.
    + rewrite Z.pow_add_r by lia. lia.
    + change (2 ^ 29) with 536870912 in *. lia.
Qed.

End Pyramid.

(** C9. For every call of [prepareBuffers] with
    [0 <= finest_scale <= coarsest_scale] (and [finest_scale <= 30], so
    that [fraction] does not overflow) on an input of non-negative extent:
    level [finest_scale] has the extent of the input divided by
    [2 ^ finest_scale], rounded down, and for [finest_scale <= i <
    coarsest_scale] level [i + 1] has the extent of level [i] divided by 2,
    rounded down; the two pyramids have the same extents. *)
Theorem pyramid_level_sizes (self : DISOpticalFlowImpl) (I0s I1s : list Size)
    (I0_size : Size) :
  0 <= finest_scale self <= coarsest_scale self -> finest_scale self <= 30 ->
  0 <= fst I0_size -> 0 <= snd I0_size ->
  let pyr := prepareBuffers self I0s I1s I0_size in
  vector_at (fst pyr) (finest_scale self) =
    (fst I0_size / 2 ^ finest_scale self, snd I0_size / 2 ^ finest_scale self) /\
  (forall i, finest_scale self <= i < coarsest_scale self ->
     vector_at (fst pyr) (i + 1) =
       (fst (vector_at (fst pyr) i) / 2, snd (vector_at (fst pyr) i) / 2)) /\
  (forall i, finest_scale self <= i <= coarsest_scale self ->
     vector_at (snd pyr) i = vector_at (fst pyr) i).
Proof.
  intros Hfs H30 Hrows Hcols pyr. subst pyr. unfold prepareBuffers, for_le.
  match goal with |- context [for_lt 0 ?hi ?b ?st] =>
    pose proof (for_lt_ind (levels_built self I0_size) 0 hi b st) as Hinv
  end.
  destruct (for_lt 0 _ _ _) as [[[[fraction cur_rows] cur_cols] I0s'] I1s'].
  simpl fst; simpl snd.
  destruct Hinv as (_ & _ & _ & Hbuilt).
  - lia.
  - unfold levels_built. rewrite !vector_resize_length.
    repeat split; try reflexivity; intros; lia.
  - intros r st Hr. apply levels_built_step; try assumption. lia.
  - destruct (Hbuilt ltac:(lia)) as (Hbase & Hsame & Hhalf).
    split; [exact Hbase|]. split.
    + intros i Hi. apply Hhalf; lia.
    + intros i Hi. apply Hsame. lia.
Qed.

(** ** The entry of [calc] *)

Lemma search_range_scale_negative m p :
  0 < m -> 0 < p -> (search_range_scale m p < 0 <-> m * m <= 2 * p * p).
Proof.
  intros Hm Hp. unfold search_range_scale.
  replace (m <=? 0) with false by (symmetry; apply Z.leb_gt; lia).
  replace (p <=? 0) with false by (symmetry; apply Z.leb_gt; lia).
  simpl orb. cbv iota.
  assert (Hpp : 0 < p * p) by nia. assert (Hmm : 0 < m * m) by nia.
  destruct (8 * p * p <=? m * m) eqn:E8.
  - apply Z.leb_le in E8.
    pose proof (Z.log2_nonneg (m * m / (8 * p * p))).
    pose proof (Z.div_pos (Z.log2 (m * m / (8 * p * p))) 2 ltac:(lia) ltac:(lia)). lia.
  - apply Z.leb_gt in E8. destruct (2 * p * p / (m * m) =? 0) eqn:Es.
    + apply Z.eqb_eq in Es. apply Z.div_small_iff in Es; lia.
    + apply Z.eqb_neq in Es.
      assert (m * m <= 2 * p * p).
      { destruct (Z_lt_le_dec (2 * p * p) (m * m)) as [Hlt|Hge]; [|exact Hge].
        exfalso. apply Es. apply Z.div_small. lia. }
      pose proof (Z.log2_nonneg (2 * p * p / (m * m))).
      pose proof (Z.div_pos (Z.log2 (2 * p * p / (m * m))) 2 ltac:(lia) ltac:(lia)). lia.
Qed.

Lemma patch_fit_scale_negative q : patch_fit_scale q < 0 <-> q <= 0.
Proof.
  unfold patch_fit_scale, INT_MIN. destruct (q <=? 0) eqn:E.
  - apply Z.leb_le in E. lia.
  - apply Z.leb_gt in E. pose proof (Z.log2_nonneg q). lia.
Qed.

Lemma quot_nonpositive a p : 0 <= a -> 0 < p -> (Z.quot a p <= 0 <-> a < p).
Proof.
  intros Ha Hp. rewrite Z.quot_div_nonneg by lia. split.
  - intros Hq. destruct (Z_lt_le_dec a p) as [Hlt|Hge]; [exact Hlt|].
    pose proof (Z.div_str_pos a p ltac:(lia)). lia.
  - intros Hlt. rewrite Z.div_small; lia.
Qed.

(** The sign of the coarsest scale that [calc] computes. *)
Lemma coarsest_scale_negative (c r p : Z) :
  0 < c -> 0 < r -> 0 < p ->
  (Z.min (search_range_scale (Z.max c r) p) (patch_fit_scale (Z.quot (Z.min c r) p)) < 0 <->
   Z.max c r * Z.max c r <= 2 * p * p \/ Z.min c r < p).
Proof.
  intros Hc Hr Hp.
  rewrite Z.min_lt_iff, search_range_scale_negative, patch_fit_scale_negative,
    quot_nonpositive by lia.
  reflexivity.
Qed.

Section CalcEntryProofs.
Context {F : Type} `{Arith F}.
Variables Flog2 Ffloor : F -> F.

Lemma valid_arrays_checks (self : DISOpticalFlowImpl) (I0 I1 flow : Mat) :
  valid_arrays I0 I1 = false ->
  calc_entry Flog2 Ffloor self I0 I1 flow = (inl StsAssert, self, flow).
Proof.
  unfold valid_arrays, calc_entry. intros Hv.
  destruct (negb (empty I0) && (depth I0 =? CV_8U) && (channels I0 =? 1)); [|reflexivity].
  destruct (negb (empty I1) && (depth I1 =? CV_8U) && (channels I1 =? 1)); [|reflexivity].
  destruct (sameSize I0 I1); [|reflexivity].
  destruct (isContinuous I0); [|reflexivity].
  destruct (isContinuous I1); [discriminate|reflexivity].
Qed.

(** Past the assertions. *)
Lemma valid_arrays_pass (self : DISOpticalFlowImpl) (I0 I1 flow : Mat) :
  valid_arrays I0 I1 = true ->
  calc_entry Flog2 Ffloor self I0 I1 flow =
  let flow' := if usable_flow flow I0 then flow
               else create flow (rows I1) (cols I1) CV_32F 2 in
  if patch_size self =? 0 then (inl DivideByZero, self, flow')
  else
  let self1 := set_coarsest_scale self
      (Z.min (search_range_scale (Z.max (cols I0) (rows I0)) (patch_size self))
             (patch_fit_scale (Z.quot (Z.min (cols I0) (rows I0)) (patch_size self)))) in
  if coarsest_scale self1 <? 0 then (inl StsBadSize, self1, flow')
  else (inr (usable_flow flow I0),
        if coarsest_scale self1 <? finest_scale self1
        then autoSelectPatchSizeAndScales Flog2 Ffloor self1 (cols I0) else self1,
        flow').
Proof.
  unfold valid_arrays, calc_entry, usable_flow. intros Hv.
  destruct (negb (empty I0) && (depth I0 =? CV_8U) && (channels I0 =? 1)); [|discriminate].
  destruct (negb (empty I1) && (depth I1 =? CV_8U) && (channels I1 =? 1)); [|discriminate].
  destruct (sameSize I0 I1); [|discriminate].
  destruct (isContinuous I0); [|discriminate].
  destruct (isContinuous I1); [|discriminate].
  simpl negb. cbv iota.
  destruct (sameSize flow I0 && (depth flow =? CV_32F) && (channels flow =? 2));
    cbv zeta; reflexivity.
Qed.

Lemma create_changes (flow I0 I1 : Mat) :
  sameSize I0 I1 = true -> usable_flow flow I0 = false ->
  create flow (rows I1) (cols I1) CV_32F 2 <> flow.
Proof.
  unfold usable_flow, sameSize, create. intros Hsame Hun.
  apply andb_true_iff in Hsame as [Hr Hc]. apply Z.eqb_eq in Hr, Hc.
  destruct ((rows flow =? rows I1) && (cols flow =? cols I1) &&
            (depth flow =? CV_32F) && (channels flow =? 2)) eqn:E.
  - rewrite <- Hr, <- Hc, Hun in E. discriminate.
  - intros Heq. rewrite <- Heq in Hun. simpl in Hun.
    rewrite Hr, Hc, !Z.eqb_refl in Hun. discriminate.
Qed.

(** What has happened to the caller's flow array once the assertions have
    passed. *)
Lemma flow_after_create (flow I0 I1 : Mat) :
  sameSize I0 I1 = true ->
  let flow' := if usable_flow flow I0 then flow
               else create flow (rows I1) (cols I1) CV_32F 2 in
  (usable_flow flow I0 = true -> flow' = flow) /\
  (usable_flow flow I0 = false ->
     flow' = create flow (rows I1) (cols I1) CV_32F 2 /\ flow' <> flow).
Proof.
  intros Hsame flow'. subst flow'.
  destruct (usable_flow flow I0) eqn:Hu; split; try discriminate; intros _.
  - reflexivity.
  - split; [reflexivity|]. exact (create_changes flow I0 I1 Hsame Hu).
Qed.

(** C1, as amended. A call of [calc] that fails on one of its five
    assertions (an empty image, a wrong depth or channel count, mismatched
    sizes, non-contiguous storage) leaves the object and the caller's flow
    array as they were.  A call that fails with the size error has passed
    the assertions and has assigned the negative scale it computed to
    [coarsest_scale], all other members being as they were: the object is
    changed whenever its [coarsest_scale] was not negative.  The caller's
    flow array is then as it was only if it already was a 2-channel float
    array of the size of the input, and has otherwise been released and
    allocated anew before the failure.  A call with [patch_size] 0 passes
    the assertions, treats the flow array in the same way and is then
    stopped by the division by zero, before [coarsest_scale] is
    assigned. *)
Theorem calc_failure_effects (self self' : DISOpticalFlowImpl) (I0 I1 flow flow' : Mat)
    (e : Error) :
  calc_entry Flog2 Ffloor self I0 I1 flow = (inl e, self', flow') ->
  match e with
  | StsAssert => valid_arrays I0 I1 = false /\ self' = self /\ flow' = flow
  | StsBadSize =>
      valid_arrays I0 I1 = true /\ patch_size self <> 0 /\
      self' = set_coarsest_scale self
        (Z.min (search_range_scale (Z.max (cols I0) (rows I0)) (patch_size self))
               (patch_fit_scale (Z.quot (Z.min (cols I0) (rows I0)) (patch_size self)))) /\
      coarsest_scale self' < 0 /\
      (0 <= coarsest_scale self -> self' <> self) /\
      (usable_flow flow I0 = true -> flow' = flow) /\
      (usable_flow flow I0 = false ->
         flow' = create flow (rows I1) (cols I1) CV_32F 2 /\ flow' <> flow)
  | DivideByZero =>
      valid_arrays I0 I1 = true /\ patch_size self = 0 /\ self' = self /\
      (usable_flow flow I0 = true -> flow' = flow) /\
      (usable_flow flow I0 = false ->
         flow' = create flow (rows I1) (cols I1) CV_32F 2 /\ flow' <> flow)
  end.
Proof.
  intros Hcall. destruct (valid_arrays I0 I1) eqn:Hv.
  - rewrite (valid_arrays_pass _ _ _ _ Hv) in Hcall. cbv zeta in Hcall.
    assert (Hsame : sameSize I0 I1 = true).
    { unfold valid_arrays in Hv. now repeat (apply andb_true_iff in Hv as [Hv ?]). }
    pose proof (flow_after_create flow I0 I1 Hsame) as Hflow. cbv zeta in Hflow.
    destruct (patch_size self =? 0) eqn:Hps.
    + apply Z.eqb_eq in Hps. injection Hcall as <- <- <-.
      split; [reflexivity|]. split; [exact Hps|]. split; [reflexivity|]. exact Hflow.
    + apply Z.eqb_neq in Hps.
      destruct (coarsest_scale _ <? 0) eqn:Hneg; [|discriminate].
      apply Z.ltb_lt in Hneg. injection Hcall as <- <- <-.
      split; [reflexivity|]. split; [exact Hps|]. split; [reflexivity|].
      split; [exact Hneg|]. split; [|exact Hflow].
      intros Hpos Heq. rewrite Heq in Hneg. lia.
  - rewrite (valid_arrays_checks _ _ _ _ Hv) in Hcall.
    injection Hcall as <- <- <-. repeat split.
Qed.

(** C2, as amended. For equal-size single-channel 8-bit contiguous
    non-empty images and patch size 8, [calc] raises the size error if and
    only if the larger dimension is below 12 or the smaller one below 8;
    no assertion fails.  So smallest dimension 12 passes, 11 x 11 fails,
    and 11 x 12 passes. *)
Theorem calc_size_error_iff (self : DISOpticalFlowImpl) (I0 I1 flow : Mat) :
  patch_size self = 8 -> valid_arrays I0 I1 = true -> 0 <= rows I0 -> 0 <= cols I0 ->
  (fst (fst (calc_entry Flog2 Ffloor self I0 I1 flow)) = inl StsBadSize <->
   Z.max (cols I0) (rows I0) < 12 \/ Z.min (cols I0) (rows I0) < 8) /\
  fst (fst (calc_entry Flog2 Ffloor self I0 I1 flow)) <> inl StsAssert.
Proof.
  intros Hps Hv Hrows Hcols. rewrite (valid_arrays_pass _ _ _ _ Hv). cbv zeta.
  assert (Hne : empty I0 = false).
  { unfold valid_arrays in Hv. repeat (apply andb_true_iff in Hv as [Hv ?]).
    now apply negb_true_iff. }
  unfold empty in Hne. apply orb_false_iff in Hne as [Hr Hc].
  apply Z.eqb_neq in Hr, Hc.
  pose proof (coarsest_scale_negative (cols I0) (rows I0) 8 ltac:(lia) ltac:(lia) ltac:(lia))
    as Hneg.
  rewrite Hps. change (8 =? 0) with false. cbv iota.
  change (coarsest_scale (set_coarsest_scale self ?x)) with x.
  match goal with |- context [if ?c <? 0 then _ else _] => destruct (c <? 0) eqn:E end;
    cbn [fst].
  - apply Z.ltb_lt in E. apply Hneg in E. split; [|discriminate].
    split; [intros _|reflexivity]. destruct E as [E|E]; [left|right; exact E]. nia.
  - apply Z.ltb_ge in E. split; [|discriminate].
    split; [discriminate|]. intros Hsmall. exfalso.
    assert (Z.min (search_range_scale (Z.max (cols I0) (rows I0)) 8)
                  (patch_fit_scale (Z.quot (Z.min (cols I0) (rows I0)) 8)) < 0); [|lia].
    apply Hneg. destruct Hsmall as [Hs|Hs]; [left|right; exact Hs]. nia.
Qed.

End CalcEntryProofs.

(** ** The scale formulas over the reals *)

Lemma log4_bounds r :
  1 <= r -> 0 <= Z.log2 r / 2 /\ 4 ^ (Z.log2 r / 2) <= r < 4 ^ (Z.log2 r / 2 + 1).
Proof.
  intros Hr. pose proof (Z.log2_spec r ltac:(lia)) as [Hlo Hhi].
  pose proof (Z.log2_nonneg r) as HL.
  set (L := Z.log2 r) in *. set (k := L / 2).
  assert (Hk : 2 * k <= L <= 2 * k + 1).
  { unfold k. pose proof (Z.div_mod L 2 ltac:(lia)). pose proof (Z.mod_pos_bound L 2 ltac:(lia)). lia. }
  assert (Hk0 : 0 <= k) by (apply Z.div_pos; lia).
  split; [exact Hk0|].
  change 4 with (2 ^ 2). rewrite <- !Z.pow_mul_r by lia. split.
  - apply Z.le_trans with (2 ^ L); [apply Z.pow_le_mono_r; lia|exact Hlo].
  - apply Z.lt_le_trans with (2 ^ Z.succ L); [exact Hhi|apply Z.pow_le_mono_r; lia].
Qed.

(** The integer facts behind [search_range_scale]. *)
Lemma search_range_scale_spec m p :
  0 < m -> 0 < p ->
  let k := search_range_scale m p in
  (8 * p * p <= m * m -> 0 <= k /\ 4 ^ k * (8 * p * p) <= m * m < 4 ^ (k + 1) * (8 * p * p)) /\
  (m * m < 8 * p * p -> k <= 0 /\ 2 * p * p < 4 ^ (- k) * (m * m) /\ 4 ^ (- k) * (m * m) <= 8 * p * p).
Proof.
  intros Hm Hp k. subst k. unfold search_range_scale.
  replace (m <=? 0) with false by (symmetry; apply Z.leb_gt; lia).
  replace (p <=? 0) with false by (symmetry; apply Z.leb_gt; lia).
  simpl orb. cbv iota.
  assert (Hpp : 0 < p * p) by nia. assert (Hmm : 0 < m * m) by nia.
  destruct (8 * p * p <=? m * m) eqn:E8.
  - apply Z.leb_le in E8. split; [intros _|lia].
    assert (Hr : 1 <= m * m / (8 * p * p)) by (apply Z.div_le_lower_bound; lia).
    pose proof (Z.mul_div_le (m * m) (8 * p * p) ltac:(lia)) as Hd1.
    pose proof (Z.mul_succ_div_gt (m * m) (8 * p * p) ltac:(lia)) as Hd2.
    destruct (log4_bounds _ Hr) as (Hk & Hlo & Hhi).
    set (k := Z.log2 (m * m / (8 * p * p)) / 2) in *. clearbody k.
    set (r := m * m / (8 * p * p)) in *. clearbody r.
    split; [exact Hk|].
    pose proof (Z.mul_le_mono_nonneg_r _ _ (8 * p * p) ltac:(lia) Hlo).
    pose proof (Z.mul_le_mono_nonneg_r (Z.succ r) (4 ^ (k + 1)) (8 * p * p) ltac:(lia) ltac:(lia)).
    lia.
  - apply Z.leb_gt in E8. split; [lia|intros _].
    assert (Hs0 : 0 <= 2 * p * p / (m * m)) by (apply Z.div_pos; lia).
    pose proof (Z.mul_div_le (2 * p * p) (m * m) ltac:(lia)) as Hd1.
    pose proof (Z.mul_succ_div_gt (2 * p * p) (m * m) ltac:(lia)) as Hd2.
    destruct (2 * p * p / (m * m) =? 0) eqn:Es.
    + apply Z.eqb_eq in Es. rewrite Es in Hd2. change (4 ^ (- 0)) with 1. lia.
    + apply Z.eqb_neq in Es.
      assert (Hs : 1 <= 2 * p * p / (m * m)) by lia.
      destruct (log4_bounds _ Hs) as (Hk & Hlo & Hhi).
      set (k := Z.log2 (2 * p * p / (m * m)) / 2) in *. clearbody k.
      set (s := 2 * p * p / (m * m)) in *. clearbody s.
      replace (- - (k + 1)) with (k + 1) by lia.
      split; [lia|].
      pose proof (Z.mul_le_mono_nonneg_r _ _ (m * m) ltac:(lia) Hlo).
      pose proof (Z.mul_le_mono_nonneg_r (Z.succ s) (4 ^ (k + 1)) (m * m) ltac:(lia) ltac:(lia)).
      rewrite Z.pow_add_r in * by lia. change (4 ^ 1) with 4 in *. lia.
Qed.

Section RealReading.
Local Open Scope R_scope.


Lemma ln2_pos : 0 < ln 2.
Proof. pose proof ln_lt_2. lra. Qed.

Lemma ln_IZR_lt a b : (0 < a)%Z -> (a < b)%Z -> ln (IZR a) < ln (IZR b).
Proof. intros Ha Hab. apply ln_increasing; [now apply IZR_lt|now apply IZR_lt]. Qed.

Lemma ln_IZR_le a b : (0 < a)%Z -> (a <= b)%Z -> ln (IZR a) <= ln (IZR b).
Proof.
  intros Ha Hab. destruct (Z.eq_dec a b) as [->|Hne]; [apply Rle_refl|].
  apply Rlt_le, ln_IZR_lt; lia.
Qed.

Lemma ln_IZR_mul a b : (0 < a)%Z -> (0 < b)%Z -> ln (IZR (a * b)) = ln (IZR a) + ln (IZR b).
Proof. intros Ha Hb. rewrite mult_IZR. apply ln_mult; now apply IZR_lt. Qed.

Lemma ln_IZR_pow2 k : (0 <= k)%Z -> ln (IZR (2 ^ k)) = IZR k * ln 2.
Proof.
  intros Hk. rewrite <- (Z2Nat.id k Hk) at 1. rewrite <- pow_IZR, ln_pow by lra.
  now rewrite INR_IZR_INZ, Z2Nat.id.
Qed.

Lemma ln_IZR_pow4 k : (0 <= k)%Z -> ln (IZR (4 ^ k)) = 2 * IZR k * ln 2.
Proof.
  intros Hk. change 4%Z with (2 ^ 2)%Z. rewrite <- Z.pow_mul_r by lia.
  rewrite ln_IZR_pow2 by lia. rewrite mult_IZR. ring.
Qed.

Lemma ln_IZR_2pp p : (0 < p)%Z -> ln (IZR (2 * p * p)) = ln 2 + 2 * ln (IZR p).
Proof. intros Hp. rewrite !ln_IZR_mul by lia. ring. Qed.

Lemma ln_IZR_8pp p : (0 < p)%Z -> ln (IZR (8 * p * p)) = 3 * ln 2 + 2 * ln (IZR p).
Proof.
  intros Hp. rewrite !ln_IZR_mul by lia. change 8%Z with (2 ^ 3)%Z.
  rewrite ln_IZR_pow2 by lia. ring.
Qed.

Lemma ln_search_ratio m p :
  (0 < m)%Z -> (0 < p)%Z ->
  ln (IZR m / (4 * IZR p)) = ln (IZR m) - 2 * ln 2 - ln (IZR p).
Proof.
  intros Hm Hp. apply IZR_lt in Hm, Hp. unfold Rdiv.
  assert (H4 : 0 < 4 * IZR p) by lra.
  rewrite ln_mult by (try apply Rinv_0_lt_compat; lra).
  rewrite ln_Rinv, ln_mult by lra.
  replace 4 with (2 * 2) by ring. rewrite ln_mult by lra. ring.
Qed.

(** The conversion of the double expression agrees with the integer
    formula. *)
Theorem search_range_scale_R_eq m p :
  (0 < m)%Z -> (0 < p)%Z -> search_range_scale_R m p = search_range_scale m p.
Proof.
  intros Hm Hp. unfold search_range_scale_R.
  destruct (search_range_scale_spec m p Hm Hp) as [HA HB].
  set (k := search_range_scale m p) in *. clearbody k.
  rewrite ln_search_ratio by assumption.
  pose proof ln2_pos as H2.
  set (L2 := ln 2) in *. set (Lm := ln (IZR m)). set (Lp := ln (IZR p)).
  set (y := (Lm - 2 * L2 - Lp) / L2 + / 2).
  assert (Hy : 2 * L2 * y = 2 * Lm - 3 * L2 - 2 * Lp) by (unfold y; field; lra).
  assert (Hmm : (0 < m * m)%Z) by nia. assert (Hpp : (0 < p * p)%Z) by nia.
  assert (Elm : ln (IZR (m * m)) = 2 * Lm) by (rewrite ln_IZR_mul by lia; unfold Lm; ring).
  destruct (Z_le_gt_dec (8 * p * p) (m * m)) as [Hge|Hlt].
  - destruct (HA Hge) as (Hk & Hlo & Hhi).
    assert (H4 : (0 < 4 ^ k)%Z) by (apply Z.pow_pos_nonneg; lia).
    assert (H4' : (0 < 4 ^ (k + 1))%Z) by (apply Z.pow_pos_nonneg; lia).
    apply ln_IZR_le in Hlo; [|nia]. apply ln_IZR_lt in Hhi; [|exact Hmm].
    rewrite Elm in Hlo, Hhi.
    rewrite ln_IZR_mul, ln_IZR_pow4, ln_IZR_8pp in Hlo, Hhi by lia.
    rewrite plus_IZR in Hhi. fold L2 Lp in Hlo, Hhi.
    apply IZR_le in Hk.
    assert (Hb : IZR k <= y < IZR k + 1) by (split; nra).
    unfold Rtrunc. destruct (Rle_dec 0 y) as [_|Hn]; [|exfalso; lra].
    now apply Zfloor_eq.
  - destruct (HB ltac:(lia)) as (Hk & Hlo & Hhi).
    assert (H4 : (0 < 4 ^ (- k))%Z) by (apply Z.pow_pos_nonneg; lia).
    apply ln_IZR_lt in Hlo; [|lia]. apply ln_IZR_le in Hhi; [|nia].
    rewrite ln_IZR_2pp in Hlo by lia. rewrite ln_IZR_8pp in Hhi by lia.
    rewrite ln_IZR_mul, ln_IZR_pow4 in Hlo, Hhi by lia.
    rewrite Elm in Hlo, Hhi. rewrite opp_IZR in Hlo, Hhi. fold L2 Lp in Hlo, Hhi.
    assert (Hneg : ln (IZR (m * m)) < ln (IZR (8 * p * p))) by (apply ln_IZR_lt; lia).
    rewrite Elm, ln_IZR_8pp in Hneg by lia. fold L2 Lp in Hneg.
    assert (Hb : IZR k - 1 < y <= IZR k) by (split; nra).
    assert (Hy0 : y < 0) by nra.
    unfold Rtrunc. destruct (Rle_dec 0 y) as [Hn|_]; [exfalso; lra|].
    now apply Zceil_eq.
Qed.

Theorem patch_fit_scale_R_eq q :
  (0 < q)%Z -> patch_fit_scale_R q = patch_fit_scale q.
Proof.
  intros Hq. unfold patch_fit_scale_R, patch_fit_scale.
  replace (q <=? 0)%Z with false by (symmetry; apply Z.leb_gt; lia).
  pose proof (Z.log2_spec q Hq) as [Hlo Hhi]. pose proof (Z.log2_nonneg q) as HL.
  assert (H2 : (0 < 2 ^ Z.log2 q)%Z) by (apply Z.pow_pos_nonneg; lia).
  apply ln_IZR_le in Hlo; [|exact H2]. apply ln_IZR_lt in Hhi; [|exact Hq].
  rewrite ln_IZR_pow2 in Hlo, Hhi by lia. rewrite succ_IZR in Hhi.
  pose proof ln2_pos as Hp. apply IZR_le in HL.
  set (L2 := ln 2) in *. set (y := ln (IZR q) / L2).
  assert (Hy : L2 * y = ln (IZR q)) by (unfold y; field; lra).
  assert (Hb : IZR (Z.log2 q) <= y < IZR (Z.log2 q) + 1) by (split; nra).
  unfold Rtrunc. destruct (Rle_dec 0 y) as [_|Hn]; [|exfalso; lra].
  now apply Zfloor_eq.
Qed.

End RealReading.

(** [calc] computes its coarsest scale as the real-number reading of its
    two [double] expressions says, whenever the smaller dimension is at
    least the patch size. *)
Lemma coarsest_scale_real_reading (c r p : Z) :
  0 < p -> p <= Z.min c r ->
  Z.min (search_range_scale (Z.max c r) p) (patch_fit_scale (Z.quot (Z.min c r) p)) =
  Z.min (search_range_scale_R (Z.max c r) p) (patch_fit_scale_R (Z.quot (Z.min c r) p)).
Proof.
  intros Hp Hmin.
  assert (Hq : 0 < Z.quot (Z.min c r) p).
  { rewrite Z.quot_div_nonneg by lia. apply Z.div_str_pos. lia. }
  rewrite search_range_scale_R_eq, patch_fit_scale_R_eq by lia. reflexivity.
Qed.

(** * Concrete runs *)

(** ** A patch on which the two branches differ in single precision *)

Lemma patch_example_differences :
  map (fun c => this (patch_diff (F := Qc) patch_I0 patch_I1 8 9
                        (Q2Qc (15 # 16)) (Q2Qc (1 # 16)) 0%Qc 0%Qc (fst c) (snd c)))
      [(0, 0); (0, 4); (1, 0); (1, 4); (0, 1); (1, 5); (1, 7); (7, 7)] =
  [375 # 2; -180 # 1; 1 # 16; 1 # 16; 0; 0; 0; 0]%Q.
Proof. vm_compute. reflexivity. Qed.

(** C5: in single precision the vector branch returns 67556.2578125 and
    the scalar branch 67556.25, so the two are not the same value. *)
Lemma simd_differs_in_binary32 :
  let w00 : spec_float := (of_int 15 / of_int 16)%fl in
  let w01 : spec_float := (of_int 1 / of_int 16)%fl in
  computeSSD true patch_I0 patch_I1 8 9 w00 w01 Fzero Fzero 8 =
    S754_finite false 8647201 (-7) /\
  computeSSD false patch_I0 patch_I1 8 9 w00 w01 Fzero Fzero 8 =
    S754_finite false 8647200 (-7) /\
  computeSSD true patch_I0 patch_I1 8 9 w00 w01 Fzero Fzero 8 <>
  computeSSD false patch_I0 patch_I1 8 9 w00 w01 Fzero Fzero 8 /\
  processPatch true patch_I0 patch_I1 no_gradient no_gradient 8 9 w00 w01 Fzero Fzero 8 <>
  processPatch false patch_I0 patch_I1 no_gradient no_gradient 8 9 w00 w01 Fzero Fzero 8 /\
  computeSSDMeanNorm true patch_I0 patch_I1 8 9 w00 w01 Fzero Fzero 8 <>
  computeSSDMeanNorm false patch_I0 patch_I1 8 9 w00 w01 Fzero Fzero 8.
Proof. vm_compute. repeat split; discriminate. Qed.

(** C3: in single precision the scalar branch returns 67556.25 on this
    patch, where the sum of the squared differences is 67556.2578125.  The
    two weights and all 64 differences are exact in single precision; it
    is the additions that round. *)
Lemma computeSSD_rounded_in_binary32 :
  let w00 : spec_float := (of_int 15 / of_int 16)%fl in
  let w01 : spec_float := (of_int 1 / of_int 16)%fl in
  let returned := computeSSD false patch_I0 patch_I1 8 9 w00 w01 Fzero Fzero 8 in
  let diff := patch_diff (F := Qc) patch_I0 patch_I1 8 9
                (Q2Qc (15 # 16)) (Q2Qc (1 # 16)) 0%Qc 0%Qc in
  let sum := sum_over_patch 8 (fun i j => diff i j * diff i j)%fl in
  (B32.to_Q w00 == 15 # 16)%Q /\ (B32.to_Q w01 == 1 # 16)%Q /\
  forallb (fun c => Qeq_bool
             (B32.to_Q (patch_diff patch_I0 patch_I1 8 9 w00 w01 Fzero Fzero (fst c) (snd c)))
             (this (diff (fst c) (snd c))))
          (patch_cells 8) = true /\
  returned = S754_finite false 8647200 (-7) /\
  (B32.to_Q returned == 8647200 # 128)%Q /\
  (this sum == 8647201 # 128)%Q /\
  ~ (B32.to_Q returned == this sum)%Q.
Proof.
  cbv zeta. repeat split; try (vm_compute; reflexivity).
  intros E. vm_compute in E. discriminate.
Qed.

(** The claim's theorem on that patch: in single precision the scalar
    branch returns the running sum, which is 67556.25; over the rationals
    the vector branch returns the sum of the claim. *)
Lemma computeSSD_returns_sum_witness :
  (let w00 : spec_float := (of_int 15 / of_int 16)%fl in
   let w01 : spec_float := (of_int 1 / of_int 16)%fl in
   let diff := patch_diff patch_I0 patch_I1 8 9 w00 w01 Fzero Fzero in
   let sq := fun i j => (diff i j * diff i j)%fl in
   computeSSD false patch_I0 patch_I1 8 9 w00 w01 Fzero Fzero 8 = accumulated false 8 sq /\
   computeSSDMeanNorm false patch_I0 patch_I1 8 9 w00 w01 Fzero Fzero 8 =
     (accumulated false 8 sq -
      accumulated false 8 diff * accumulated false 8 diff / (of_int 8 * of_int 8))%fl) /\
  (let diff := patch_diff (F := Qc) patch_I0 patch_I1 8 9
                 (Q2Qc (15 # 16)) (Q2Qc (1 # 16)) 0%Qc 0%Qc in
   let sq := fun i j => (diff i j * diff i j)%fl in
   computeSSD true patch_I0 patch_I1 8 9 (Q2Qc (15 # 16)) (Q2Qc (1 # 16)) 0%Qc 0%Qc 8 =
     sum_over_patch 8 sq /\
   computeSSDMeanNorm true patch_I0 patch_I1 8 9 (Q2Qc (15 # 16)) (Q2Qc (1 # 16))
       0%Qc 0%Qc 8 =
     (sum_over_patch 8 sq -
      sum_over_patch 8 diff * sum_over_patch 8 diff / (of_int 8 * of_int 8))%fl).
Proof.
  split.
  - exact (proj1 (computeSSD_returns_sum (F := spec_float) false patch_I0 patch_I1 8 9
                    (of_int 15 / of_int 16)%fl (of_int 1 / of_int 16)%fl Fzero Fzero 8)).
  - exact (proj2 (computeSSD_returns_sum (F := Qc) true patch_I0 patch_I1 8 9
                    (Q2Qc (15 # 16)) (Q2Qc (1 # 16)) 0%Qc 0%Qc 8) exact_laws).
Defined.

(** The running sums of that patch in single precision. *)
Lemma patch_example_running_sums :
  let w00 : spec_float := (of_int 15 / of_int 16)%fl in
  let w01 : spec_float := (of_int 1 / of_int 16)%fl in
  let diff := patch_diff patch_I0 patch_I1 8 9 w00 w01 Fzero Fzero in
  let sq := fun i j => (diff i j * diff i j)%fl in
  accumulated false 8 sq = S754_finite false 8647200 (-7) /\
  accumulated true 8 sq = S754_finite false 8647201 (-7) /\
  computeSSDMeanNorm false patch_I0 patch_I1 8 9 w00 w01 Fzero Fzero 8 =
    S754_finite false 8647084 (-7).
Proof. vm_compute. repeat split; reflexivity. Qed.

(** C4: in single precision the scalar branch of [processPatch] returns
    67556.25 on that patch, where the sum of the squared differences is
    67556.2578125; the two gradient sums, 37500 and -32399.125, are
    exact. *)
Lemma processPatch_rounded_in_binary32 :
  let w00 : spec_float := (of_int 15 / of_int 16)%fl in
  let w01 : spec_float := (of_int 1 / of_int 16)%fl in
  let returned := processPatch false patch_I0 patch_I1 patch_I1 patch_I0 8 9
                    w00 w01 Fzero Fzero 8 in
  let diff := patch_diff (F := Qc) patch_I0 patch_I1 8 9
                (Q2Qc (15 # 16)) (Q2Qc (1 # 16)) 0%Qc 0%Qc in
  let sum := sum_over_patch 8 (fun i j => diff i j * diff i j)%fl in
  let sum_x := sum_over_patch 8 (fun i j => diff i j * of_int (patch_I1 (i * 8 + j)%Z))%fl in
  let sum_y := sum_over_patch 8 (fun i j => diff i j * of_int (patch_I0 (i * 8 + j)%Z))%fl in
  returned = (S754_finite false 8647200 (-7), S754_finite false 9600000 (-8),
              S754_finite true 16588352 (-9)) /\
  (this sum == 8647201 # 128)%Q /\ (this sum_x == 37500 # 1)%Q /\
  (this sum_y == -259193 # 8)%Q /\
  (B32.to_Q (snd (fst returned)) == this sum_x)%Q /\
  (B32.to_Q (snd returned) == this sum_y)%Q /\
  ~ (B32.to_Q (fst (fst returned)) == this sum)%Q.
Proof.
  cbv zeta. repeat split; try (vm_compute; reflexivity).
  intros E. vm_compute in E. discriminate.
Qed.

Lemma processPatch_returns_sums_witness :
  (let w00 : spec_float := (of_int 15 / of_int 16)%fl in
   let w01 : spec_float := (of_int 1 / of_int 16)%fl in
   let diff := patch_diff patch_I0 patch_I1 8 9 w00 w01 Fzero Fzero in
   processPatch false patch_I0 patch_I1 patch_I1 patch_I0 8 9 w00 w01 Fzero Fzero 8 =
   (accumulated false 8 (fun i j => diff i j * diff i j)%fl,
    accumulated false 8 (fun i j => diff i j * of_int (patch_I1 (i * 8 + j)%Z))%fl,
    accumulated false 8 (fun i j => diff i j * of_int (patch_I0 (i * 8 + j)%Z))%fl)) /\
  (let diff := patch_diff (F := Qc) patch_I0 patch_I1 8 9
                 (Q2Qc (15 # 16)) (Q2Qc (1 # 16)) 0%Qc 0%Qc in
   processPatch false patch_I0 patch_I1 patch_I1 patch_I0 8 9
     (Q2Qc (15 # 16)) (Q2Qc (1 # 16)) 0%Qc 0%Qc 5 =
   (sum_over_patch 5 (fun i j => diff i j * diff i j)%fl,
    sum_over_patch 5 (fun i j => diff i j * of_int (patch_I1 (i * 8 + j)%Z))%fl,
    sum_over_patch 5 (fun i j => diff i j * of_int (patch_I0 (i * 8 + j)%Z))%fl)).
Proof.
  split.
  - exact (proj1 (processPatch_returns_sums (F := spec_float) false patch_I0 patch_I1
                    patch_I1 patch_I0 8 9
                    (of_int 15 / of_int 16)%fl (of_int 1 / of_int 16)%fl Fzero Fzero 8)).
  - exact (proj2 (processPatch_returns_sums (F := Qc) false patch_I0 patch_I1
                    patch_I1 patch_I0 8 9
                    (Q2Qc (15 # 16)) (Q2Qc (1 # 16)) 0%Qc 0%Qc 5) exact_laws).
Defined.

Lemma simd_agrees_in_exact_arithmetic_witness :
  processPatch (F := Qc) true patch_I0 patch_I1 patch_I1 patch_I0 8 9
    (Q2Qc (15 # 16)) (Q2Qc (1 # 16)) 0%Qc 0%Qc 8 =
  processPatch false patch_I0 patch_I1 patch_I1 patch_I0 8 9
    (Q2Qc (15 # 16)) (Q2Qc (1 # 16)) 0%Qc 0%Qc 8 /\
  computeSSD true patch_I0 patch_I1 8 9 (Q2Qc (15 # 16)) (Q2Qc (1 # 16)) 0%Qc 0%Qc 8 =
  computeSSD false patch_I0 patch_I1 8 9 (Q2Qc (15 # 16)) (Q2Qc (1 # 16)) 0%Qc 0%Qc 8 /\
  computeSSDMeanNorm true patch_I0 patch_I1 8 9 (Q2Qc (15 # 16)) (Q2Qc (1 # 16))
    0%Qc 0%Qc 8 =
  computeSSDMeanNorm false patch_I0 patch_I1 8 9 (Q2Qc (15 # 16)) (Q2Qc (1 # 16))
    0%Qc 0%Qc 8.
Proof.
  exact (simd_agrees_in_exact_arithmetic patch_I0 patch_I1 patch_I1 patch_I0 8 9
           (Q2Qc (15 # 16)) (Q2Qc (1 # 16)) 0%Qc 0%Qc).
Defined.

(** In exact arithmetic both branches return 8647201/128 = 67556.2578125
    on this patch. *)
Lemma patch_example_exact :
  this (computeSSD (F := Qc) true patch_I0 patch_I1 8 9
          (Q2Qc (15 # 16)) (Q2Qc (1 # 16)) 0%Qc 0%Qc 8) = (8647201 # 128)%Q /\
  this (computeSSD (F := Qc) false patch_I0 patch_I1 8 9
          (Q2Qc (15 # 16)) (Q2Qc (1 # 16)) 0%Qc 0%Qc 8) = (8647201 # 128)%Q.
Proof. vm_compute. split; reflexivity. Qed.

(** ** Densification on a 13 x 13 scale, exact arithmetic *)

(** C6: no patch overlaps pixel (12, 0), and the flow stored there is the
    displacement of patch (1, 0), whose footprint is rows 4..11: it is not
    an average over the patches that cover the pixel. *)
Lemma densification_beyond_last_patch :
  (w dis_13, h dis_13, ws dis_13, hs dis_13) = (13, 13, 2, 2) /\
  overlapping 13 8 4 12 = [] /\
  covers 8 4 12 1 = false /\
  fst (Densification_operator body_13 (0, 1)) (12 * 13 + 0) = Sx_13 (1 * 2 + 0) /\
  fst (Densification_operator body_13 (0, 1)) (12 * 13 + 0) <>
  weighted_average (list_prod (overlapping 13 8 4 12) (overlapping 13 8 4 0))
    (coef_13 12 0) (fun c => Sx_13 (fst c * 2 + snd c)).
Proof.
  split; [reflexivity|]. split; [reflexivity|]. split; [reflexivity|]. split.
  - apply Qc_is_canon. vm_compute. reflexivity.
  - intros E. apply (f_equal this) in E. vm_compute in E. discriminate.
Qed.

(** The claim's theorem at pixel (5, 12), which lies under patches (0, 1)
    and (1, 1) along the rows and beyond the last patch along the columns:
    in single precision and over the rationals. *)
Lemma densification_blends_patches_used_witness :
  patches_used 13 8 4 5 = [0; 1] /\ patches_used 13 8 4 12 = [1] /\
  (fst (Densification_operator body_13_binary32 (0, 1)) (5 * 13 + 12) =
     accumulated_average [(0, 1); (1, 1)] (coef_13_binary32 5 12)
       (fun c => Sx_13_binary32 (fst c * 2 + snd c)) /\
   snd (Densification_operator body_13_binary32 (0, 1)) (5 * 13 + 12) =
     accumulated_average [(0, 1); (1, 1)] (coef_13_binary32 5 12)
       (fun c => Sy_13_binary32 (fst c * 2 + snd c))) /\
  (fst (Densification_operator body_13 (0, 1)) (5 * 13 + 12) =
     weighted_average [(0, 1); (1, 1)] (coef_13 5 12) (fun c => Sx_13 (fst c * 2 + snd c)) /\
   snd (Densification_operator body_13 (0, 1)) (5 * 13 + 12) =
     weighted_average [(0, 1); (1, 1)] (coef_13 5 12) (fun c => Sy_13 (fst c * 2 + snd c))).
Proof.
  split; [reflexivity|]. split; [reflexivity|]. split.
  - exact (proj1 (densification_blends_patches_used body_13_binary32 (0, 1) 5 12
                    ltac:(reflexivity) ltac:(discriminate) ltac:(discriminate)
                    ltac:(discriminate) ltac:(discriminate)
                    ltac:(vm_compute; split; (reflexivity || discriminate))
                    ltac:(vm_compute; split; (reflexivity || discriminate)))).
  - assert (G := proj2 (densification_blends_patches_used body_13 (0, 1) 5 12
                          ltac:(reflexivity) ltac:(discriminate) ltac:(discriminate)
                          ltac:(discriminate) ltac:(discriminate)
                          ltac:(vm_compute; split; (reflexivity || discriminate))
                          ltac:(vm_compute; split; (reflexivity || discriminate)))
                        exact_laws).
    cbv zeta in G. destruct G as (Gx & Gy & _). split; [exact Gx|exact Gy].
Defined.

(** The values at that pixel: 12.5659... in single precision, 954970/75997
    over the rationals. *)
Lemma densification_example_values :
  fst (Densification_operator body_13_binary32 (0, 1)) (5 * 13 + 12) =
    S754_finite false 13176291 (-20) /\
  Qeq (this (fst (Densification_operator body_13 (0, 1)) (5 * 13 + 12))) (954970 # 75997).
Proof. split; vm_compute; reflexivity. Qed.

(** C8: on the 13 x 13 scale no patch overlaps row 12, and the window
    there holds the last patch. *)
Lemma window_without_overlapping_patch :
  patch_size dis_13 <= w dis_13 /\ patch_size dis_13 <= h dis_13 /\
  grid_size 13 8 4 = 2 /\
  covers 8 4 12 0 = false /\ covers 8 4 12 1 = false /\
  overlapping 13 8 4 12 = [] /\
  sparse_window 13 8 4 12 = (1, 1).
Proof. vm_compute. repeat split; discriminate. Qed.

(** The claim's theorem at pixel (12, 5), in row 12 that no patch
    overlaps: in single precision and over the rationals. *)
Lemma densification_total_weight_positive_witness :
  let wi := sparse_window 13 8 4 12 in
  let wj := sparse_window 13 8 4 5 in
  let sum_coef := fst (fst (pixel_sums dis_13 Sx_13_binary32 Sy_13_binary32 I0_13 I1_13
                              12 5 wi wj)) in
  ((fst wi <= snd wi /\ fst wj <= snd wj /\ window_cells wi wj <> [] /\
    sum_coef = running_sum (map (coef_13_binary32 12 5) (window_cells wi wj))) /\
   window_cells wi wj = list_prod (patches_used 13 8 4 12) (patches_used 13 8 4 5) /\
   ((Fzero <? sum_coef)%fl = true /\ sum_coef <> Fzero)) /\
  ((Fzero <? fst (fst (pixel_sums dis_13 Sx_13 Sy_13 I0_13 I1_13 12 5 wi wj)))%fl = true /\
   fst (fst (pixel_sums dis_13 Sx_13 Sy_13 I0_13 I1_13 12 5 wi wj)) <> Fzero).
Proof.
  split; [split; [|split]|].
  - exact (proj1 (proj1 densification_total_weight_positive _ _ body_13_binary32 12 5
                    ltac:(reflexivity) ltac:(discriminate) ltac:(discriminate)
                    ltac:(vm_compute; split; (reflexivity || discriminate))
                    ltac:(vm_compute; split; (reflexivity || discriminate)))).
  - reflexivity.
  - exact (proj2 densification_total_weight_positive body_13_binary32 12 5
             ltac:(reflexivity) ltac:(discriminate) ltac:(discriminate)
             ltac:(vm_compute; split; (reflexivity || discriminate))
             ltac:(vm_compute; split; (reflexivity || discriminate))
             ltac:(intros c Hc; vm_compute in Hc;
                   destruct Hc as [<-|[<-|[]]]; vm_compute; reflexivity)).
  - exact (proj2 (proj2 (proj1 densification_total_weight_positive _ _ body_13 12 5
                    ltac:(reflexivity) ltac:(discriminate) ltac:(discriminate)
                    ltac:(vm_compute; split; (reflexivity || discriminate))
                    ltac:(vm_compute; split; (reflexivity || discriminate))))
                 exact_laws).
Defined.

Lemma densification_of_agreeing_patches_witness :
  fst (Densification_operator body_13_uniform (0, 1)) (5 * 13 + 6) = Q2Qc (7 # 2) /\
  snd (Densification_operator body_13_uniform (0, 1)) (5 * 13 + 6) = Q2Qc (-1 # 3).
Proof.
  apply (densification_of_agreeing_patches body_13_uniform (0, 1) 5 6);
    try (intros; split; reflexivity);
    vm_compute; repeat split; (reflexivity || discriminate).
Defined.

(** ** Densification in single precision *)

(** C7: the only patch carries (3.5, 0), and the x flow stored at pixel
    (0, 0) is 3.50000023841858, the single next above 3.5. *)
Lemma agreeing_patches_rounded_in_binary32 :
  overlapping 8 8 4 0 = [0] /\
  (forall is_ js_, In is_ (overlapping 8 8 4 0) -> In js_ (overlapping 8 8 4 0) ->
     pb_Sx body_8 (is_ * ws dis_8 + js_) = (of_int 7 / of_int 2)%fl /\
     pb_Sy body_8 (is_ * ws dis_8 + js_) = Fzero) /\
  (of_int 7 / of_int 2)%fl = S754_finite false 14680064 (-22) /\
  residual dis_8 (pb_Sx body_8) (pb_Sy body_8) (pb_I0 body_8) (pb_I1 body_8) 0 0 0 0 =
    of_int 3 /\
  fst (Densification_operator body_8 (0, 1)) (0 * 8 + 0) =
    S754_finite false 14680065 (-22) /\
  fst (Densification_operator body_8 (0, 1)) (0 * 8 + 0) <> (of_int 7 / of_int 2)%fl.
Proof.
  split; [reflexivity|]. split; [intros; split; reflexivity|].
  vm_compute. repeat split; discriminate.
Qed.

(** C10: on a scale 32770 wide, [w - 1.0f - EPS] is 32769 in single
    precision (the spacing of singles there is 1/256), so at the last
    column and zero displacement [j_u] is [w]; in the last row the read
    [I1_ptr[i_u * w + j_u]] is at offset [w * h], one past the image. *)
Lemma sample_index_escapes_wide_image :
  (w dis_wide, h dis_wide) = (32770, 8) /\
  (of_int (w dis_wide) - Fone - EPS)%fl = B32.of_Z 32769 /\
  snd (sample_coords (F := spec_float) dis_wide 7 32769 Fzero Fzero) =
    (6, 7, 32769, 32770) /\
  (let '(_, i_u, _, j_u) := snd (sample_coords (F := spec_float) dis_wide 7 32769 Fzero Fzero)
   in j_u = w dis_wide /\ i_u * w dis_wide + j_u = w dis_wide * h dis_wide).
Proof. vm_compute. repeat split; reflexivity. Qed.

(** On every scale from 2 to 32769 wide the bound is below [w - 1] and
    its integer part is [w - 2]; from 32770 on the bound is [w - 1]. *)
Lemma clamp_bound_binary32_sweep :
  forallb (fun w' => B32.to_Z (of_int w' - Fone - EPS)%fl =? w' - 2) (Zrange 2 (Z.to_nat 32768)) = true /\
  forallb (fun w' => B32.to_Z (of_int w' - Fone - EPS)%fl =? w' - 1) (Zrange 32770 (Z.to_nat 2000)) = true.
Proof. vm_compute. split; reflexivity. Qed.

(** ** Calls of [calc] *)

(** C1: a 7 x 7 input fails with the size error, and by then the caller's
    5 x 5 flow array has been replaced by an unwritten 7 x 7 one. *)
Lemma size_error_after_flow_create :
  calc_entry libm_unused libm_unused DISOpticalFlowImpl_ctor (gray_image 7 7) (gray_image 7 7) flow_5x5 =
    (inl StsBadSize,
     set_coarsest_scale DISOpticalFlowImpl_ctor INT_MIN,
     {| rows := 7; cols := 7; depth := CV_32F; channels := 2; isContinuous := true;
        data := None |}) /\
  snd (calc_entry libm_unused libm_unused DISOpticalFlowImpl_ctor (gray_image 7 7) (gray_image 7 7) flow_5x5) <>
    flow_5x5.
Proof. split; [reflexivity|discriminate]. Qed.

Lemma calc_failure_effects_witness :
  valid_arrays (gray_image 7 7) (gray_image 7 7) = true /\
  patch_size DISOpticalFlowImpl_ctor <> 0 /\
  set_coarsest_scale DISOpticalFlowImpl_ctor INT_MIN =
    set_coarsest_scale DISOpticalFlowImpl_ctor
      (Z.min (search_range_scale (Z.max 7 7) 8) (patch_fit_scale (Z.quot (Z.min 7 7) 8))) /\
  coarsest_scale (set_coarsest_scale DISOpticalFlowImpl_ctor INT_MIN) < 0 /\
  (0 <= coarsest_scale DISOpticalFlowImpl_ctor ->
   set_coarsest_scale DISOpticalFlowImpl_ctor INT_MIN <> DISOpticalFlowImpl_ctor) /\
  (usable_flow flow_5x5 (gray_image 7 7) = true ->
   create flow_5x5 7 7 CV_32F 2 = flow_5x5) /\
  (usable_flow flow_5x5 (gray_image 7 7) = false ->
   create flow_5x5 7 7 CV_32F 2 = create flow_5x5 7 7 CV_32F 2 /\
   create flow_5x5 7 7 CV_32F 2 <> flow_5x5).
Proof.
  exact (calc_failure_effects libm_unused libm_unused DISOpticalFlowImpl_ctor
           (set_coarsest_scale DISOpticalFlowImpl_ctor INT_MIN)
           (gray_image 7 7) (gray_image 7 7) flow_5x5
           (create flow_5x5 7 7 CV_32F 2) StsBadSize eq_refl).
Defined.

(** With [patch_size] 0 the call passes the assertions, replaces the
    caller's flow array and stops at the division. *)
Lemma patch_size_zero_example :
  calc_entry libm_unused libm_unused
    (set_scales DISOpticalFlowImpl_ctor 0 10 2) (gray_image 64 64) (gray_image 64 64) flow_5x5 =
    (inl DivideByZero, set_scales DISOpticalFlowImpl_ctor 0 10 2,
     {| rows := 64; cols := 64; depth := CV_32F; channels := 2; isContinuous := true;
        data := None |}).
Proof. reflexivity. Qed.

(** An assertion failure leaves everything as it was: here the second
    image has another size. *)
Lemma assertion_failure_example :
  calc_entry libm_unused libm_unused DISOpticalFlowImpl_ctor (gray_image 7 7) (gray_image 7 8) flow_5x5 =
    (inl StsAssert, DISOpticalFlowImpl_ctor, flow_5x5).
Proof. reflexivity. Qed.

(** C2: an 11 x 12 input has smallest dimension 11 and passes the size
    check; 12 x 12 passes; 11 x 11 and 7 x 100 fail. *)
Lemma smallest_dimension_11_passes :
  Z.min (cols (gray_image 11 12)) (rows (gray_image 11 12)) = 11 /\
  fst (fst (calc_entry libm_unused libm_unused DISOpticalFlowImpl_ctor (gray_image 11 12) (gray_image 11 12)
              flow_5x5)) = inr false /\
  fst (fst (calc_entry libm_unused libm_unused DISOpticalFlowImpl_ctor (gray_image 11 12) (gray_image 11 12)
              flow_5x5)) <> inl StsBadSize.
Proof. repeat split; try reflexivity. discriminate. Qed.

Lemma size_check_examples :
  fst (fst (calc_entry libm_unused libm_unused DISOpticalFlowImpl_ctor (gray_image 12 12) (gray_image 12 12)
              flow_5x5)) = inr false /\
  fst (fst (calc_entry libm_unused libm_unused DISOpticalFlowImpl_ctor (gray_image 11 11) (gray_image 11 11)
              flow_5x5)) = inl StsBadSize /\
  fst (fst (calc_entry libm_unused libm_unused DISOpticalFlowImpl_ctor (gray_image 7 100) (gray_image 7 100)
              flow_5x5)) = inl StsBadSize.
Proof. repeat split; reflexivity. Qed.

Lemma calc_size_error_iff_witness :
  (fst (fst (calc_entry libm_unused libm_unused DISOpticalFlowImpl_ctor (gray_image 11 12) (gray_image 11 12)
               flow_5x5)) = inl StsBadSize <->
   Z.max 12 11 < 12 \/ Z.min 12 11 < 8) /\
  fst (fst (calc_entry libm_unused libm_unused DISOpticalFlowImpl_ctor (gray_image 11 12) (gray_image 11 12)
              flow_5x5)) <> inl StsAssert.
Proof.
  apply (calc_size_error_iff libm_unused libm_unused DISOpticalFlowImpl_ctor
           (gray_image 11 12) (gray_image 11 12) flow_5x5); [reflexivity|reflexivity|simpl; lia|simpl; lia].
Defined.

(** ** A pyramid *)

Lemma pyramid_example :
  (finest_scale self_400x300, coarsest_scale self_400x300, patch_size self_400x300) =
    (2, 4, 8) /\
  fst (prepareBuffers self_400x300 [] [] (300, 400)) =
    [(0, 0); (0, 0); (75, 100); (37, 50); (18, 25)].
Proof. split; reflexivity. Qed.

Lemma pyramid_level_sizes_witness :
  let pyr := prepareBuffers self_400x300 [] [] (300, 400) in
  vector_at (fst pyr) 2 = (300 / 2 ^ 2, 400 / 2 ^ 2) /\
  (forall i, 2 <= i < 4 ->
     vector_at (fst pyr) (i + 1) =
       (fst (vector_at (fst pyr) i) / 2, snd (vector_at (fst pyr) i) / 2)) /\
  (forall i, 2 <= i <= 4 -> vector_at (snd pyr) i = vector_at (fst pyr) i).
Proof.
  apply (pyramid_level_sizes self_400x300 [] [] (300, 400)); vm_compute;
    repeat split; (reflexivity || discriminate).
Defined.
